(** * Streaming-response decoder and structured-content extractors

    A shallow embedding of the algorithmic core of the personal-assistant
    front end:

    - [api.post] (services/api.ts): the reader loop that turns the chunks
      of a streamed HTTP response into the accumulated answer text;
    - [detectMessageType] (the chat component): the three-way classifier;
    - [parseEmailFromText], [parseMultipleEmails] and
      [parseCalendarEventsFromText] (the message parsers);
    - [formatEmail] and [formatCalendarEvents] (the formatters);
    - [renderContent] of [FormattedMessage] (the message view), without
      the styling;
    - the state of [Chat], [handleSend] and [handleKeyPress] as the setter
      calls they make, and the request body [JSON.stringify] writes.

    JavaScript strings are sequences of UTF-16 code units, so a string is
    a [list N] here; the built-ins the code calls ([String.prototype.split],
    [includes], [startsWith], [slice], [trim], [JSON.parse], string
    concatenation with [+=], and the regular expressions) are written out
    with the meaning ECMA-262 gives them. *)

From Stdlib Require Import String Ascii.
From Stdlib Require Import List NArith ZArith Bool Lia.
From Stdlib Require Import Floats.SpecFloat.
Import ListNotations.

Set Warnings "-register-all".

(* ================================================================== *)
(** * JavaScript strings *)
(* ================================================================== *)

Module JS.

(** A string value: the sequence of its UTF-16 code units. *)
Definition jsstring := list N.

(** A source literal, written as a Rocq string of ASCII characters. *)
Definition lit (s : string) : jsstring :=
  map N_of_ascii (list_ascii_of_string s).
Arguments lit s%_string.

(** A source literal in which every apostrophe stands for a double quote
    (code unit 34): JSON text is written [litq "{'type':'content'}"]. *)
Definition litq (s : string) : jsstring :=
  map (fun c => if N.eqb c 39 then 34%N else c) (lit s).
Arguments litq s%_string.

Definition LF : N := 10.

(** [s.startsWith(p)]. *)
Fixpoint startsWith (p s : jsstring) : bool :=
  match p, s with
  | [], _ => true
  | _ :: _, [] => false
  | a :: p', b :: s' => N.eqb a b && startsWith p' s'
  end.

(** [s.includes(p)]: [p] occurs at some position of [s]. *)
Fixpoint includes (p s : jsstring) : bool :=
  startsWith p s ||
  match s with
  | [] => false
  | _ :: s' => includes p s'
  end.

(** [a === b] on strings: the same code units. *)
Fixpoint eqb (a b : jsstring) : bool :=
  match a, b with
  | [], [] => true
  | x :: a', y :: b' => N.eqb x y && eqb a' b'
  | _, _ => false
  end.

(** [s.slice(n)] for a non-negative [n]. *)
Definition slice (n : nat) (s : jsstring) : jsstring := skipn n s.

(** Puts a code unit in front of the first segment of a segment list. *)
Definition push_front (c : N) (segs : list jsstring) : list jsstring :=
  match segs with
  | [] => [[c]]
  | seg :: rest => (c :: seg) :: rest
  end.

(** [s.split(sep)] for a separator of one code unit: the text between the
    occurrences of [sep]; a string without [sep] (the empty one too) gives
    the one-element array holding it. *)
Fixpoint split (sep : N) (s : jsstring) : list jsstring :=
  match s with
  | [] => [[]]
  | c :: r => if N.eqb c sep then [] :: split sep r
              else push_front c (split sep r)
  end.

(** WhiteSpace and LineTerminator code units: what [trim] strips and what
    the regular-expression class [\s] matches. *)
Definition is_ws (c : N) : bool :=
  ((9 <=? c) && (c <=? 13) || (c =? 32) || (c =? 160) || (c =? 5760)
   || (8192 <=? c) && (c <=? 8202) || (c =? 8232) || (c =? 8233)
   || (c =? 8239) || (c =? 8287) || (c =? 12288) || (c =? 65279))%N.

(** The regular-expression class [\d]. *)
Definition is_digit (c : N) : bool := ((48 <=? c) && (c <=? 57))%N.

(** [s.trimStart()]; also the greedy [\s*] of the field patterns. *)
Fixpoint trimStart (s : jsstring) : jsstring :=
  match s with
  | [] => []
  | c :: r => if is_ws c then trimStart r else s
  end.

Definition trimEnd (s : jsstring) : jsstring := rev (trimStart (rev s)).

(** [s.trim()]. *)
Definition trim (s : jsstring) : jsstring := trimEnd (trimStart s).

(** [xs.join(sep)]. *)
Fixpoint join (sep : jsstring) (xs : list jsstring) : jsstring :=
  match xs with
  | [] => []
  | [x] => x
  | x :: rest => x ++ sep ++ join sep rest
  end.

End JS.
Import JS.

(* ================================================================== *)
(** * The regular expressions of the parsers *)
(* ================================================================== *)

Module Regex.

(** ** The delimiter [/\d+\./] and [text.split(/\d+\./)] *)

(** Greedy [\d*]: the number of leading digits. *)
Fixpoint digit_run (s : jsstring) : nat :=
  match s with
  | c :: r => if is_digit c then S (digit_run r) else 0
  | [] => 0
  end.

(** [/\d+\./] tried at the head of [s]: the length of the match. The run of
    digits is taken whole: giving a digit back cannot help, the next code
    unit would be a digit and not the period. *)
Definition delimiter_at (s : jsstring) : option nat :=
  match digit_run s with
  | 0 => None
  | S _ as n =>
      match skipn n s with
      | c :: _ => if N.eqb c 46 then Some (S n) else None
      | [] => None
      end
  end.

(** The scan of [String.prototype.split] with the delimiter pattern: at
    each position the pattern is tried; where it matches, the segment read
    so far ends and the scan resumes after the match ([skip] counts the code
    units of the match still to pass over); elsewhere the code unit joins
    the current segment. *)
Fixpoint split_scan (skip : nat) (s : jsstring) : list jsstring :=
  match s with
  | [] => [[]]
  | c :: r =>
      match skip with
      | S k => split_scan k r
      | 0 =>
          match delimiter_at s with
          | Some n => [] :: split_scan (pred n) r
          | None => push_front c (split_scan 0 r)
          end
      end
  end.

(** [text.split(/\d+\./)]. *)
Definition split_numbered (text : jsstring) : list jsstring :=
  split_scan 0 text.

(** ** The field patterns *)

(** The lookahead [(?=\s*-\s*LABEL)] at the head of [s]. Each [\s*] takes
    all the white space there is: the hyphen and the asterisk that must
    follow are not white space, so a shorter run cannot match either. *)
Definition lookahead_dash (label s : jsstring) : bool :=
  match trimStart s with
  | c :: r => N.eqb c 45 && startsWith label (trimStart r)
  | [] => false
  end.

(** The anchor [$] (no [m] flag): the end of the input. *)
Definition at_end (s : jsstring) : bool :=
  match s with
  | [] => true
  | _ :: _ => false
  end.

(** The lazy group [(.*?)] under the [s] flag, followed by [K]: the shortest
    prefix of [s] after which [K] holds, when there is one. *)
Fixpoint lazy_group (K : jsstring -> bool) (s : jsstring) : option jsstring :=
  if K s then Some []
  else match s with
       | [] => None
       | c :: r => option_map (cons c) (lazy_group K r)
       end.

(** The pattern [/LABEL(.*?)K/s] tried at the head of [s]: capture group 1. *)
Definition field_at (label : jsstring) (K : jsstring -> bool)
    (s : jsstring) : option jsstring :=
  if startsWith label s then lazy_group K (skipn (length label) s)
  else None.

(** [s.match(/LABEL(.*?)K/s)]: the match at the leftmost position that has
    one; group 1 of it. *)
Fixpoint match_field (label : jsstring) (K : jsstring -> bool)
    (s : jsstring) : option jsstring :=
  match field_at label K s with
  | Some g => Some g
  | None =>
      match s with
      | [] => None
      | _ :: r => match_field label K r
      end
  end.

End Regex.
Import Regex.

(* ================================================================== *)
(** * The message parsers *)
(* ================================================================== *)

Record EmailData := mkEmail
  { from : jsstring; date : jsstring; subject : jsstring; content : jsstring }.

Record CalendarEvent := mkEvent
  { event : jsstring; location : jsstring; time : jsstring }.

(** [parseEmailFromText]. No step of the body throws (a match is an array
    or null, and group 1 takes part in every match), so the [catch] branch
    is never taken. *)
Definition parseEmailFromText (text : jsstring) : option EmailData :=
  let fromMatch :=
    match_field (lit "**From**: ") (lookahead_dash (lit "**Date**:")) text in
  let dateMatch :=
    match_field (lit "**Date**: ") (lookahead_dash (lit "**Subject**:")) text in
  let subjectMatch :=
    match_field (lit "**Subject**: ") (lookahead_dash (lit "**Content**:")) text in
  let contentMatch := match_field (lit "**Content**: ") at_end text in
  match fromMatch, dateMatch, subjectMatch, contentMatch with
  | Some f, Some d, Some s, Some c =>
      Some (mkEmail (trim f) (trim d) (trim s) (trim c))
  | _, _, _, _ => None
  end.

Definition closingPhrases : list jsstring :=
  [ lit "If you need more information";
    lit "If you need any further actions";
    lit "Let me know if you need";
    lit "Just let me know";
    lit "Is there anything else" ].

(** The filter's predicate: no closing phrase occurs in the block. *)
Definition keeps_block (block : jsstring) : bool :=
  negb (existsb (fun phrase => includes phrase block) closingPhrases).

(** [parseMultipleEmails]. *)
Definition parseMultipleEmails (text : jsstring) : list EmailData :=
  let emailBlocks := tl (split_numbered text) in
  let filteredBlocks := filter keeps_block emailBlocks in
  fold_left
    (fun emails block =>
       match parseEmailFromText block with
       | Some emailData => emails ++ [emailData]
       | None => emails
       end)
    filteredBlocks [].

(** The three matches of one calendar block. *)
Definition parseCalendarBlock (block : jsstring) : option CalendarEvent :=
  let eventMatch :=
    match_field (lit "**Event**: ") (lookahead_dash (lit "**Location**:")) block in
  let locationMatch :=
    match_field (lit "**Location**: ") (lookahead_dash (lit "**Time**:")) block in
  let timeMatch := match_field (lit "**Time**: ") at_end block in
  match eventMatch, locationMatch, timeMatch with
  | Some e, Some l, Some t => Some (mkEvent (trim e) (trim l) (trim t))
  | _, _, _ => None
  end.

(** [parseCalendarEventsFromText]; as in [parseEmailFromText], nothing in
    the [try] block throws. *)
Definition parseCalendarEventsFromText (text : jsstring) : list CalendarEvent :=
  let eventBlocks := tl (split_numbered text) in
  fold_left
    (fun events block =>
       match parseCalendarBlock block with
       | Some ev => events ++ [ev]
       | None => events
       end)
    eventBlocks [].

(* ================================================================== *)
(** * The classifier *)
(* ================================================================== *)

Inductive MessageType := email | calendar | text.

(** [detectMessageType]. *)
Definition detectMessageType (t : jsstring) : MessageType :=
  if includes (lit "[EMAIL]") t then email
  else if includes (lit "**Event**:") t && includes (lit "**Location**:") t
       then calendar
       else text.

(* ================================================================== *)
(** * JSON *)
(* ================================================================== *)

Module Number.

(** The Number type: IEEE-754 binary64, as the Standard Library specifies
    it ([spec_float] with 53 bits of precision). *)
Definition prec : Z := 53.
Definition emax : Z := 1024.

(** The Number value of the decimal numeral [M * 10^E] ([M >= 0]) with
    sign [neg]: the nearest binary64 value, ties to even. A numeral of
    [10^401] or more is infinite and one below [2^-1499] is zero: these are
    settled without computing the power of ten. *)
Definition of_decimal (neg : bool) (M E : Z) : spec_float :=
  match M with
  | Zpos m =>
      if (400 <? E)%Z then S754_infinity neg
      else if (0 <=? E)%Z then
        binary_normalize prec emax (if neg then - (M * 10 ^ E) else M * 10 ^ E)%Z
          0 neg
      else if (E + Z.log2 M <? -1500)%Z then S754_zero neg
      else SFdiv prec emax (S754_finite neg m 0)
             (S754_finite false (Z.to_pos (10 ^ (- E))) 0)
  | _ => S754_zero neg
  end.

Definition same_value (x y : spec_float) : bool :=
  match x, y with
  | S754_finite _ mx ex, S754_finite _ my ey => Pos.eqb mx my && Z.eqb ex ey
  | _, _ => false
  end.

(** [x < 10^n] for the positive rational [x = num / den]. *)
Definition below_pow10 (num den n : Z) : bool :=
  if (0 <=? n)%Z then (num <? 10 ^ n * den)%Z
  else (num * 10 ^ (- n) <? den)%Z.

(** The least [n] from [lo] on with [x < 10^n] (at most [fuel] steps). *)
Fixpoint magnitude (fuel : nat) (num den lo : Z) : Z :=
  match fuel with
  | O => lo
  | S f => if below_pow10 num den lo then lo
           else magnitude f num den (lo + 1)%Z
  end.

(** The decimal digits of [z >= 0], the most significant first. *)
Fixpoint digits_fuel (fuel : nat) (z : Z) (acc : jsstring) : jsstring :=
  match fuel with
  | O => acc
  | S f =>
      let acc' := (Z.to_N (48 + z mod 10)) :: acc in
      if (z <? 10)%Z then acc' else digits_fuel f (z / 10)%Z acc'
  end.

Definition digits (z : Z) : jsstring := digits_fuel 400 z [].

(** The digits [s] of Number::toString for [x = num / den] with magnitude
    [n], tried with [k] digits: of the two [k]-digit decimals around [x],
    those whose Number value is [x], the nearer one first (the even one on
    a tie). *)
Definition candidate (x : spec_float) (num den n k : Z) : option Z :=
  let e := (n - k)%Z in
  let lo := if (0 <=? e)%Z then (num / (den * 10 ^ e))%Z
            else (num * 10 ^ (- e) / den)%Z in
  let hi := (lo + 1)%Z in
  let ok s := same_value (of_decimal false s e) x in
  (* the sign of [2 x - (lo + hi) * 10^e] *)
  let side :=
    if (0 <=? e)%Z then (2 * num ?= (lo + hi) * 10 ^ e * den)%Z
    else (2 * num * 10 ^ (- e) ?= (lo + hi) * den)%Z in
  match ok lo, ok hi with
  | true, false => Some lo
  | false, true => Some hi
  | false, false => None
  | true, true =>
      match side with
      | Lt => Some lo
      | Gt => Some hi
      | Eq => if Z.even lo then Some lo else Some hi
      end
  end.

(** The least number of digits [k] (from [k] on, at most [fuel] more) that
    has a candidate, with the candidate. *)
Fixpoint shortest (fuel : nat) (x : spec_float) (num den n k : Z) : Z * Z :=
  match fuel with
  | O => (k, 0%Z)
  | S f =>
      match candidate x num den n k with
      | Some s => (k, s)
      | None => shortest f x num den n (k + 1)%Z
      end
  end.

Definition zeros (n : Z) : jsstring := repeat 48%N (Z.to_nat n).

(** Number::toString of a positive finite value. *)
Definition positive_to_string (x : spec_float) (m : positive) (e : Z) : jsstring :=
  let num := if (0 <=? e)%Z then (Zpos m * 2 ^ e)%Z else Zpos m in
  let den := if (0 <=? e)%Z then 1%Z else (2 ^ (- e))%Z in
  let n0 := magnitude 700 num den (-330) in
  let '(k, s0) := shortest 17 x num den n0 1 in
  (* a candidate [10^k] is the one-digit [1] of the next magnitude *)
  let '(n, s) := if (s0 =? 10 ^ k)%Z then ((n0 + 1)%Z, (10 ^ (k - 1))%Z)
                 else (n0, s0) in
  let ds := digits s in
  let exponent :=
    (if (0 <=? n - 1)%Z then 43%N else 45%N) :: digits (Z.abs (n - 1)) in
  if (k <=? n)%Z && (n <=? 21)%Z then ds ++ zeros (n - k)
  else if (0 <? n)%Z && (n <=? 21)%Z then
    firstn (Z.to_nat n) ds ++ [46%N] ++ skipn (Z.to_nat n) ds
  else if (-6 <? n)%Z && (n <=? 0)%Z then
    lit "0." ++ zeros (- n) ++ ds
  else if (k =? 1)%Z then ds ++ [101%N] ++ exponent
  else firstn 1 ds ++ [46%N] ++ skipn 1 ds ++ [101%N] ++ exponent.

(** Number::toString (radix 10). *)
Definition to_string (x : spec_float) : jsstring :=
  match x with
  | S754_zero _ => lit "0"
  | S754_nan => lit "NaN"
  | S754_infinity neg => (if neg then [45%N] else []) ++ lit "Infinity"
  | S754_finite neg m e =>
      (if neg then [45%N] else []) ++ positive_to_string (S754_finite false m e) m e
  end.

End Number.

Module Json.

(** A value [JSON.parse] can return. The members of an object are kept in
    source order; where a key is repeated the last member is the property. *)
Inductive value :=
| JNull
| JBool (b : bool)
| JNumber (x : spec_float)
| JString (s : jsstring)
| JArray (elements : list value)
| JObject (members : list (jsstring * value)).

(** JSON white space: space, tab, line feed, carriage return. *)
Definition is_json_ws (c : N) : bool :=
  ((c =? 32) || (c =? 9) || (c =? 10) || (c =? 13))%N.

Fixpoint skip_ws (s : jsstring) : jsstring :=
  match s with
  | [] => []
  | c :: r => if is_json_ws c then skip_ws r else s
  end.

Definition hex_value (c : N) : option N :=
  if ((48 <=? c) && (c <=? 57))%N then Some (c - 48)%N
  else if ((97 <=? c) && (c <=? 102))%N then Some (c - 87)%N
  else if ((65 <=? c) && (c <=? 70))%N then Some (c - 55)%N
  else None.

Definition hex4 (a b c d : N) : option N :=
  match hex_value a, hex_value b, hex_value c, hex_value d with
  | Some x, Some y, Some z, Some w => Some (((x * 16 + y) * 16 + z) * 16 + w)%N
  | _, _, _, _ => None
  end.

(** The code unit a one-letter escape stands for. *)
Definition escape_value (c : N) : option N :=
  if (c =? 34)%N then Some 34%N           (* quotation mark *)
  else if (c =? 92)%N then Some 92%N      (* reverse solidus *)
  else if (c =? 47)%N then Some 47%N      (* solidus *)
  else if (c =? 98)%N then Some 8%N       (* b: backspace *)
  else if (c =? 102)%N then Some 12%N     (* f: form feed *)
  else if (c =? 110)%N then Some 10%N     (* n: line feed *)
  else if (c =? 114)%N then Some 13%N     (* r: carriage return *)
  else if (c =? 116)%N then Some 9%N      (* t: tab *)
  else None.

Definition with_head {A B : Type} (a : A) (r : option (list A * B))
  : option (list A * B) :=
  match r with
  | Some (l, b) => Some (a :: l, b)
  | None => None
  end.

(** The characters of a string literal after its opening quote, up to the
    closing quote: the string denoted and the text after the literal. *)
Fixpoint parse_string (s : jsstring) : option (jsstring * jsstring) :=
  match s with
  | [] => None
  | c :: r =>
      if (c =? 34)%N then Some ([], r)
      else if (c =? 92)%N then
        match r with
        | [] => None
        | e :: r1 =>
            if (e =? 117)%N then
              match r1 with
              | h1 :: h2 :: h3 :: h4 :: r2 =>
                  match hex4 h1 h2 h3 h4 with
                  | Some u => with_head u (parse_string r2)
                  | None => None
                  end
              | _ => None
              end
            else
              match escape_value e with
              | Some u => with_head u (parse_string r1)
              | None => None
              end
        end
      else if (c <? 32)%N then None
      else with_head c (parse_string r)
  end.

(** A run of decimal digits: its digits and the text after it. *)
Fixpoint read_digits (s : jsstring) : list N * jsstring :=
  match s with
  | c :: r => if is_digit c then let '(ds, r') := read_digits r in (c :: ds, r')
              else ([], s)
  | [] => ([], [])
  end.

Definition digits_value (ds : list N) : Z :=
  fold_left (fun acc d => (10 * acc + (Z.of_N d - 48))%Z) ds 0%Z.

(** A number literal: an optional minus sign; the integer part, a single
    zero or a run of digits that starts with a non-zero digit; an optional
    fraction, a period and one digit or more; an optional exponent, [e] or
    [E], an optional sign and one digit or more. *)
Definition parse_number (s : jsstring) : option (spec_float * jsstring) :=
  let '(neg, s1) := match s with
                    | c :: r => if (c =? 45)%N then (true, r) else (false, s)
                    | [] => (false, s)
                    end in
  let int_part :=
    match s1 with
    | c :: r => if (c =? 48)%N then Some ([c], r)
                else if is_digit c then Some (read_digits s1)
                else None
    | [] => None
    end in
  match int_part with
  | None => None
  | Some (ids, s2) =>
      let frac_part :=
        match s2 with
        | c :: r => if (c =? 46)%N then
                      match read_digits r with
                      | ([], _) => None
                      | (fds, r') => Some (fds, r')
                      end
                    else Some ([], s2)
        | [] => Some ([], s2)
        end in
      match frac_part with
      | None => None
      | Some (fds, s3) =>
          let exp_part :=
            match s3 with
            | c :: r =>
                if ((c =? 101) || (c =? 69))%N then
                  let '(eneg, r1) :=
                    match r with
                    | sg :: r' => if (sg =? 45)%N then (true, r')
                                  else if (sg =? 43)%N then (false, r')
                                  else (false, r)
                    | [] => (false, r)
                    end in
                  match read_digits r1 with
                  | ([], _) => None
                  | (eds, r2) =>
                      Some ((if eneg then - digits_value eds
                             else digits_value eds)%Z, r2)
                  end
                else Some (0%Z, s3)
            | [] => Some (0%Z, s3)
            end in
          match exp_part with
          | None => None
          | Some (ex, s4) =>
              Some (Number.of_decimal neg (digits_value (ids ++ fds))
                      (ex - Z.of_nat (length fds)), s4)
          end
      end
  end.

(** One of the literals [true], [false], [null]. *)
Definition parse_literal (word : jsstring) (v : value) (s : jsstring)
  : option (value * jsstring) :=
  if startsWith word s then Some (v, skipn (length word) s) else None.

(** A JSON value at the head of [s] (white space before it allowed), with
    the text after it. The recursion of the grammar is bounded by [fuel];
    the fuel [parse] gives is never used up ([parse_fuel_enough] below). *)
Fixpoint parse_value (fuel : nat) (s : jsstring) : option (value * jsstring) :=
  match fuel with
  | O => None
  | S fuel' =>
      match skip_ws s with
      | [] => None
      | c :: r =>
          if (c =? 123)%N then                        (* { *)
            match skip_ws r with
            | c' :: r' =>
                if (c' =? 125)%N then Some (JObject [], r')
                else match parse_members fuel' r with
                     | Some (ms, r2) => Some (JObject ms, r2)
                     | None => None
                     end
            | [] => None
            end
          else if (c =? 91)%N then                    (* [ *)
            match skip_ws r with
            | c' :: r' =>
                if (c' =? 93)%N then Some (JArray [], r')
                else match parse_elements fuel' r with
                     | Some (vs, r2) => Some (JArray vs, r2)
                     | None => None
                     end
            | [] => None
            end
          else if (c =? 34)%N then                    (* string *)
            match parse_string r with
            | Some (str, r') => Some (JString str, r')
            | None => None
            end
          else if (c =? 116)%N then parse_literal (lit "true") (JBool true) (c :: r)
          else if (c =? 102)%N then parse_literal (lit "false") (JBool false) (c :: r)
          else if (c =? 110)%N then parse_literal (lit "null") JNull (c :: r)
          else match parse_number (c :: r) with
               | Some (x, r') => Some (JNumber x, r')
               | None => None
               end
      end
  end

(** The elements of an array after its bracket, up to the closing one. *)
with parse_elements (fuel : nat) (s : jsstring) : option (list value * jsstring) :=
  match fuel with
  | O => None
  | S fuel' =>
      match parse_value fuel' s with
      | Some (v, r) =>
          match skip_ws r with
          | c :: r' =>
              if (c =? 44)%N then with_head v (parse_elements fuel' r')
              else if (c =? 93)%N then Some ([v], r')
              else None
          | [] => None
          end
      | None => None
      end
  end

(** The members of an object after its brace, up to the closing one. *)
with parse_members (fuel : nat) (s : jsstring)
  : option (list (jsstring * value) * jsstring) :=
  match fuel with
  | O => None
  | S fuel' =>
      match skip_ws s with
      | c :: r =>
          if (c =? 34)%N then
            match parse_string r with
            | Some (key, r1) =>
                match skip_ws r1 with
                | c1 :: r2 =>
                    if (c1 =? 58)%N then
                      match parse_value fuel' r2 with
                      | Some (v, r3) =>
                          match skip_ws r3 with
                          | c3 :: r4 =>
                              if (c3 =? 44)%N then
                                with_head (key, v) (parse_members fuel' r4)
                              else if (c3 =? 125)%N then Some ([(key, v)], r4)
                              else None
                          | [] => None
                          end
                      | None => None
                      end
                    else None
                | [] => None
                end
            | None => None
            end
          else None
      | [] => None
      end
  end.

(** [JSON.parse(s)]: [None] stands for the SyntaxError it throws. *)
Definition parse (s : jsstring) : option value :=
  match parse_value (2 * length s + 2) s with
  | Some (v, r) => if at_end (skip_ws r) then Some v else None
  | None => None
  end.

(** The own property [key] of an object with these members. *)
Fixpoint lookup (key : jsstring) (ms : list (jsstring * value)) : option value :=
  match ms with
  | [] => None
  | (k, v) :: rest =>
      match lookup key rest with
      | Some v' => Some v'
      | None => if eqb k key then Some v else None
      end
  end.

(** [v.key] for a key that no prototype defines ([type] and [content] are
    such keys): [None] is the TypeError of reading a property of [null],
    [Some None] is [undefined]. *)
Definition get (v : value) (key : jsstring) : option (option value) :=
  match v with
  | JNull => None
  | JObject ms => Some (lookup key ms)
  | _ => Some None
  end.

(** ToString of a parsed value, as string concatenation applies it;
    [None] is a TypeError. An object has [Object.prototype.toString] unless
    a member named [toString] shadows it with a value that cannot be called;
    an array is joined with commas, [null] elements giving the empty string. *)
Fixpoint to_string (v : value) : option jsstring :=
  match v with
  | JNull => Some (lit "null")
  | JBool true => Some (lit "true")
  | JBool false => Some (lit "false")
  | JNumber x => Some (Number.to_string x)
  | JString s => Some s
  | JObject ms =>
      match lookup (lit "toString") ms with
      | Some _ => None
      | None => Some (lit "[object Object]")
      end
  | JArray vs =>
      (fix elements (vs : list value) : option jsstring :=
         match vs with
         | [] => Some []
         | v :: rest =>
             let head := match v with
                         | JNull => Some []
                         | _ => to_string v
                         end in
             match head, rest with
             | Some h, [] => Some h
             | Some h, _ :: _ =>
                 match elements rest with
                 | Some t => Some (h ++ [44%N] ++ t)
                 | None => None
                 end
             | None, _ => None
             end
         end) vs
  end.

(** ToString of the operand of [result += x], [x] possibly [undefined]. *)
Definition operand_to_string (x : option value) : option jsstring :=
  match x with
  | None => Some (lit "undefined")
  | Some v => to_string v
  end.

End Json.

(* ================================================================== *)
(** * The stream decoder: [api.post] *)
(* ================================================================== *)

Module Api.

(** What the body's reader delivers: the decoded text of each chunk, in
    order, and then either the end of the stream or, when [broken], a
    rejected read. *)
Record Stream := mkStream { chunks : list jsstring; broken : bool }.

(** The response [fetch] resolves with. [body = None]: no readable stream. *)
Record Response := mkResponse
  { ok : bool; status : N; body : option Stream }.

(** The transport: [fetch n] is the response to the [n]-th request issued. *)
Definition Transport := nat -> Response.

(** What [post] throws. *)
Inductive error :=
| HttpError (status : N)      (* "HTTP error! status: ..." *)
| NoReader                    (* "No reader available" *)
| ReadError.                  (* the rejection of [reader.read()] *)

Inductive completion (A : Type) :=
| Returned (a : A)
| Thrown (e : error).
Arguments Returned {A} a.
Arguments Thrown {A} e.

(** The value [post] returns. *)
Record Data (Id : Type) := mkData
  { response : jsstring; conversation_id : Id }.
Arguments mkData {Id} _ _.
Arguments response {Id} _.
Arguments conversation_id {Id} _.

(** One run of [post]: the requests it issued, the arguments of its calls
    of [onStream], in order, and how it completed. *)
Record Run (Id : Type) := mkRun
  { requests : nat;
    snapshots : list jsstring;
    outcome : completion (Data Id) }.
Arguments mkRun {Id} _ _ _.
Arguments requests {Id} _.
Arguments snapshots {Id} _.
Arguments outcome {Id} _.

(** The loop state: the variable [result] and the observer calls so far. *)
Record State := mkState { result : jsstring; emitted : list jsstring }.

(** [parsedData.type === 'content']. *)
Definition is_content (ty : option Json.value) : bool :=
  match ty with
  | Some (Json.JString s) => eqb s (lit "content")
  | _ => false
  end.

(** The body of the [for] loop for one line. Whatever the [try] block
    throws (the SyntaxError of [JSON.parse], the TypeError of reading
    [type] from [null] or of a [content] that has no string form) is caught
    and logged, with [result] as it was. [onStream] tells whether the
    caller passed an observer. *)
Definition process_line (onStream : bool) (st : State) (line : jsstring) : State :=
  if startsWith (lit "data: ") line then
    match Json.parse (slice 6 line) with
    | None => st
    | Some parsedData =>
        match Json.get parsedData (lit "type") with
        | None => st
        | Some ty =>
            if is_content ty then
              match Json.get parsedData (lit "content") with
              | None => st
              | Some c =>
                  match Json.operand_to_string c with
                  | None => st
                  | Some fragment =>
                      let result' := result st ++ fragment in
                      mkState result'
                        (if onStream then emitted st ++ [result']
                         else emitted st)
                  end
              end
            else st
        end
    end
  else st.

(** The body of the [while] loop for one chunk read. *)
Definition process_chunk (onStream : bool) (st : State) (chunk : jsstring) : State :=
  let lines := split LF chunk in
  fold_left (process_line onStream) lines st.

Definition initial : State := mkState [] [].

(** [api.post(endpoint, requestData, onStream)], with [id] the
    [conversation_id] of [requestData]. *)
Definition post {Id : Type} (fetch : Transport) (id : Id) (onStream : bool)
  : Run Id :=
  let resp := fetch 0 in
  if negb (ok resp) then mkRun 1 [] (Thrown (HttpError (status resp)))
  else
    match body resp with
    | None => mkRun 1 [] (Thrown NoReader)
    | Some stream =>
        let st := fold_left (process_chunk onStream) (chunks stream) initial in
        mkRun 1 (emitted st)
          (if broken stream then Thrown ReadError
           else Returned (mkData (result st) id))
    end.

(** A transport whose every response is a complete stream of [cs]. *)
Definition streaming (cs : list jsstring) : Transport :=
  fun _ => mkResponse true 200 (Some (mkStream cs false)).

End Api.
Import Api.

(* ================================================================== *)
(** * Specification vocabulary *)
(* ================================================================== *)

(** [p] occurs in [s]: some position of [s] holds the code units of [p]. *)
Definition occurs (p s : jsstring) : Prop :=
  exists before after, s = before ++ p ++ after.

(** No white space at either end of [s]. *)
Definition no_outer_ws (s : jsstring) : Prop :=
  (forall c r, s = c :: r -> is_ws c = false) /\
  (forall c r, s = r ++ [c] -> is_ws c = false).

(** The places of [s] where a digit is immediately followed by a period:
    one for each run of digits that a period follows, that is, one for each
    occurrence of the numbered-list delimiter. *)
Fixpoint digit_period_count (s : jsstring) : nat :=
  match s with
  | [] => 0
  | c :: r =>
      (if is_digit c && match r with
                        | d :: _ => N.eqb d 46
                        | [] => false
                        end
       then 1 else 0) + digit_period_count r
  end.

(** ** Wire text *)

Definition hex_digit (n : N) : N :=
  if (n <? 10)%N then (48 + n)%N else (87 + n)%N.

(** One code unit of a string inside a JSON string literal, escaped the
    way [JSON.stringify] escapes the quotation mark, the reverse solidus
    and the control characters; every other code unit stands for itself. *)
Definition quote_unit (c : N) : jsstring :=
  if (c =? 34)%N then [92; 34]%N
  else if (c =? 92)%N then [92; 92]%N
  else if (c =? 8)%N then [92; 98]%N
  else if (c =? 12)%N then [92; 102]%N
  else if (c =? 10)%N then [92; 110]%N
  else if (c =? 13)%N then [92; 114]%N
  else if (c =? 9)%N then [92; 116]%N
  else if (c <? 32)%N then
    [92; 117; 48; 48; hex_digit (c / 16); hex_digit (c mod 16)]%N
  else [c].

(** A JSON string literal that denotes [s]. *)
Definition quote (s : jsstring) : jsstring :=
  [34%N] ++ flat_map quote_unit s ++ [34%N].

(** A well-formed content frame: the line that carries [fragment]. *)
Definition frame (fragment : jsstring) : jsstring :=
  litq "data: {'type':'content','content':" ++ quote fragment ++ litq "}".

(** The wire text of a sequence of fragments: one frame per line. *)
Definition wire_text (fragments : list jsstring) : jsstring :=
  concat (map (fun fragment => frame fragment ++ [LF]) fragments).

(** The accumulated text after each fragment, starting from [acc]. *)
Fixpoint running (acc : jsstring) (fragments : list jsstring) : list jsstring :=
  match fragments with
  | [] => []
  | f :: rest => (acc ++ f) :: running (acc ++ f) rest
  end.

(** The chunks of the specification's example: one frame cut twice. *)
Definition example_chunks : list jsstring :=
  [ litq "data: {'typ";
    litq "e':'content','content':'Hel";
    litq "lo'}" ++ [LF] ].

(** The value the payload of a content frame denotes. *)
Definition content_object (fragment : jsstring) : Json.value :=
  Json.JObject [(lit "type", Json.JString (lit "content"));
                (lit "content", Json.JString fragment)].

(** What a content frame does to the loop state. *)
Definition append_fragment (onStream : bool) (st : Api.State)
    (fragment : jsstring) : Api.State :=
  Api.mkState (Api.result st ++ fragment)
    (if onStream then Api.emitted st ++ [Api.result st ++ fragment]
     else Api.emitted st).

(** A transport whose first response has status 500 and whose later
    responses would stream an answer. *)
Definition failing_transport : Api.Transport :=
  fun n => match n with
           | 0 => Api.mkResponse false 500 None
           | S _ => Api.mkResponse true 200
                      (Some (Api.mkStream [wire_text [lit "Hello"]] false))
           end.

(** ** Numbered lists of labeled email blocks *)

(** The labeled block of an email: its four fields under their markers. *)
Definition render_block (e : EmailData) : jsstring :=
  lit " **From**: " ++ from e ++ lit " - **Date**: " ++ date e ++
  lit " - **Subject**: " ++ subject e ++ lit " - **Content**: " ++ content e.

(** A list item: the item number, a period, the block. *)
Definition render_item (item : jsstring * EmailData) : jsstring :=
  fst item ++ [46%N] ++ render_block (snd item).

(** The numbered list: its items, one per line. *)
Definition render_list (items : list (jsstring * EmailData)) : jsstring :=
  join [LF] (map render_item items).

(** The record with every field trimmed. *)
Definition trimmed (e : EmailData) : EmailData :=
  mkEmail (trim (from e)) (trim (date e)) (trim (subject e)) (trim (content e)).

(** An item the numbered-list extractor reads back: the number is a run of
    digits; no field holds the marker of a later field; nowhere in the block
    is a digit followed by a period; the block holds no closing phrase. *)
Record readable_item (item : jsstring * EmailData) : Prop := mkReadable
  { number_digits : fst item <> [] /\ forallb is_digit (fst item) = true;
    from_markers :
      includes (lit "**Date**:") (from (snd item)) = false /\
      includes (lit "**Subject**:") (from (snd item)) = false /\
      includes (lit "**Content**:") (from (snd item)) = false;
    date_markers :
      includes (lit "**Subject**:") (date (snd item)) = false /\
      includes (lit "**Content**:") (date (snd item)) = false;
    subject_markers :
      includes (lit "**Content**:") (subject (snd item)) = false;
    no_digit_period : digit_period_count (render_block (snd item)) = 0;
    no_closing_phrase : keeps_block (render_block (snd item)) = true }.

(** The example text of the specification. *)
Definition example_email_text : jsstring :=
  lit "1. **From**: a@x.com - **Date**: Mon - **Subject**: Hi - **Content**: test".

Definition example_email : EmailData :=
  mkEmail (lit "a@x.com") (lit "Mon") (lit "Hi") (lit "test").

(** A numbered item whose From and Content values are empty. *)
Definition empty_fields_text : jsstring :=
  lit "1. **From**: - **Date**: Mon - **Subject**: Hi - **Content**: ".

(** An email whose content mentions a version number. *)
Definition versioned_email : EmailData :=
  mkEmail (lit "a@x.com") (lit "Mon") (lit "Hi") (lit "see v2.0").

(** A numbered item with four labeled fields and a closing phrase. *)
Definition closing_text : jsstring :=
  lit "1. **From**: a - **Date**: b - **Subject**: c - **Content**: Let me know if you need more".

(** All fields of a record are free of white space at both ends. *)
Definition email_fields_trimmed (r : EmailData) : Prop :=
  no_outer_ws (from r) /\ no_outer_ws (date r) /\
  no_outer_ws (subject r) /\ no_outer_ws (content r).

Definition event_fields_trimmed (r : CalendarEvent) : Prop :=
  no_outer_ws (event r) /\ no_outer_ws (location r) /\ no_outer_ws (time r).

(** What a [forEach] that pushes the results of [f] builds from [blocks]. *)
Definition collected {R : Type} (f : jsstring -> option R)
    (blocks : list jsstring) : list R :=
  flat_map (fun b => match f b with Some r => [r] | None => [] end) blocks.

(** What the email extractor makes of a list of segments. *)
Definition emails_of (blocks : list jsstring) : list EmailData :=
  collected parseEmailFromText (filter keeps_block blocks).

(** ** Auxiliary notions *)

(** Nothing but white space. *)
Definition all_ws (w : jsstring) : bool := forallb is_ws w.

(** [m] is a field marker: it starts with an asterisk and holds no space. *)
Definition is_marker (m : jsstring) : bool :=
  match m with
  | c :: _ => N.eqb c 42
  | [] => false
  end && forallb (fun c => negb (N.eqb c 32)) m.

(** [label] and [p] agree as far as both go. *)
Fixpoint agrees (label p : jsstring) : bool :=
  match label, p with
  | a :: l, b :: q => N.eqb a b && agrees l q
  | _, _ => true
  end.

(** [label] cannot start at any place of [p], whatever follows [p]. *)
Fixpoint no_start (label p : jsstring) : bool :=
  match p with
  | [] => true
  | _ :: q => negb (agrees label p) && no_start label q
  end.

(** [y] put in front of the first segment. *)
Definition prepend (y : jsstring) (segs : list jsstring) : list jsstring :=
  fold_right push_front segs y.

(** The segments of a rendered list: each block with the line feed that
    ends its line, the last block bare. *)
Fixpoint segments_of (items : list (jsstring * EmailData)) : list jsstring :=
  match items with
  | [] => []
  | [item] => [render_block (snd item)]
  | item :: rest => (render_block (snd item) ++ [LF]) :: segments_of rest
  end.

(* ================================================================== *)
(** * The formatters *)
(* ================================================================== *)

(** The decimal numeral of a natural number: what a template literal makes
    of an array index plus one (an integer below [2^32], far below the
    [10^21] from which Number::toString uses an exponent). *)
Definition decimal (n : nat) : jsstring := Number.digits (Z.of_nat n).

(** [xs.map((x, index) => f(index, x))], the indices counted from [i]. *)
Fixpoint mapi_from {A B : Type} (i : nat) (f : nat -> A -> B) (xs : list A)
  : list B :=
  match xs with
  | [] => []
  | x :: rest => f i x :: mapi_from (S i) f rest
  end.

(** The code units of the pictographs of the templates: envelope (U+1F4E7),
    calendar (U+1F4C5), pushpin (U+1F4CC), round pushpin (U+1F4CD), each a
    surrogate pair, and alarm clock (U+23F0). *)
Definition envelope : jsstring := [55357; 56551]%N.
Definition calendar_sign : jsstring := [55357; 56517]%N.
Definition pushpin : jsstring := [55357; 56524]%N.
Definition round_pushpin : jsstring := [55357; 56525]%N.
Definition alarm_clock : jsstring := [9200]%N.

(** [formatEmail]. *)
Definition formatEmail (e : EmailData) : jsstring :=
  (envelope ++ lit " " ++ from e ++ [LF]) ++
  (calendar_sign ++ lit " " ++ date e ++ [LF]) ++
  (pushpin ++ lit " " ++ subject e ++ [LF; LF]) ++
  content e.

(** The template of one event of [formatCalendarEvents]. *)
Definition formatCalendarEvent (index : nat) (ev : CalendarEvent) : jsstring :=
  (decimal (index + 1) ++ lit ". " ++ calendar_sign ++ lit " " ++ event ev ++ [LF]) ++
  (lit "   " ++ round_pushpin ++ lit " " ++ location ev ++ [LF]) ++
  (lit "   " ++ alarm_clock ++ lit " " ++ time ev ++ [LF]).

(** [formatCalendarEvents]. *)
Definition formatCalendarEvents (events : list CalendarEvent) : jsstring :=
  join [LF] (mapi_from 0 formatCalendarEvent events).

(* ================================================================== *)
(** * The message view: [FormattedMessage] *)
(* ================================================================== *)

(** The scan of [s.split(sep)] for a separator string that is not empty:
    as [split_scan], with the separator for pattern. *)
Fixpoint split_on_scan (sep : jsstring) (skip : nat) (s : jsstring)
  : list jsstring :=
  match s with
  | [] => [[]]
  | c :: r =>
      match skip with
      | S k => split_on_scan sep k r
      | 0 =>
          if startsWith sep s
          then [] :: split_on_scan sep (pred (length sep)) r
          else push_front c (split_on_scan sep 0 r)
      end
  end.

(** [s.split(sep)] for a separator string: the empty separator cuts
    between all code units. *)
Definition split_on (sep s : jsstring) : list jsstring :=
  match sep with
  | [] => map (fun c => [c]) s
  | _ :: _ => split_on_scan sep 0 s
  end.

(** A string in a condition: the empty string counts as false. *)
Definition truthy (s : jsstring) : bool :=
  match s with
  | [] => false
  | _ :: _ => true
  end.

(** What [renderContent] returns, without the styling: the lines are the
    children of a card, in order (the first one is styled as its header). *)
Inductive Content :=
| PlainMessage (message : jsstring)          (* the bare [Typography] *)
| EmailCards (cards : list (list jsstring))  (* one [Paper] per block *)
| CalendarCard (lines : list jsstring)       (* one [Paper] *)
| TextMessage (message : jsstring).          (* the default branch *)

(** The email blocks of a message: its pieces between the markers that
    are not blank. *)
Definition emailBlocks (message : jsstring) : list jsstring :=
  filter (fun block => truthy (trim block)) (split_on (lit "[EMAIL]") message).

(** [renderContent] of [FormattedMessage], for the props [message] and
    [type]. *)
Definition renderContent (message : jsstring) (type : MessageType) : Content :=
  match type with
  | email =>
      match emailBlocks message with
      | [] => PlainMessage message
      | blocks => EmailCards (map (fun block => split LF (trim block)) blocks)
      end
  | calendar => CalendarCard (split LF message)
  | text => TextMessage message
  end.

(* ================================================================== *)
(** * The request body *)
(* ================================================================== *)

Definition is_leading_surrogate (c : N) : bool :=
  ((55296 <=? c) && (c <=? 56319))%N.
Definition is_trailing_surrogate (c : N) : bool :=
  ((56320 <=? c) && (c <=? 57343))%N.

(** [\uXXXX] with lower-case digits. *)
Definition unicode_escape (c : N) : jsstring :=
  [92; 117; hex_digit (c / 4096); hex_digit ((c / 256) mod 16);
   hex_digit ((c / 16) mod 16); hex_digit (c mod 16)]%N.

(** The escape of one code point that is a single code unit, in
    QuoteJSONString. *)
Definition quote_json_unit (c : N) : jsstring :=
  if (c =? 8)%N then [92; 98]%N
  else if (c =? 9)%N then [92; 116]%N
  else if (c =? 10)%N then [92; 110]%N
  else if (c =? 12)%N then [92; 102]%N
  else if (c =? 13)%N then [92; 114]%N
  else if (c =? 34)%N then [92; 34]%N
  else if (c =? 92)%N then [92; 92]%N
  else if (c <? 32)%N || is_leading_surrogate c || is_trailing_surrogate c
       then unicode_escape c
  else [c].

(** The body of QuoteJSONString: the string is read by code points, a
    leading surrogate with the trailing surrogate after it being one code
    point that is copied, any other surrogate being escaped. *)
Fixpoint quote_json_body (s : jsstring) : jsstring :=
  match s with
  | [] => []
  | c :: r =>
      match r with
      | d :: r' =>
          if is_leading_surrogate c && is_trailing_surrogate d
          then c :: d :: quote_json_body r'
          else quote_json_unit c ++ quote_json_body r
      | [] => quote_json_unit c
      end
  end.

(** [JSON.stringify(s)] for a string [s]. *)
Definition stringify_string (s : jsstring) : jsstring :=
  [34%N] ++ quote_json_body s ++ [34%N].

(** [JSON.stringify(requestData)] for the [requestData] the chat passes:
    the object with [message] and [conversation_id] ([None] is [null]). *)
Definition request_body (message : jsstring) (conversation_id : option jsstring)
  : jsstring :=
  litq "{'message':" ++ stringify_string message ++
  litq ",'conversation_id':" ++
  match conversation_id with
  | Some id => stringify_string id
  | None => lit "null"
  end ++ litq "}".

(** The value [JSON.parse] makes of a conversation id. *)
Definition id_value (conversation_id : option jsstring) : Json.value :=
  match conversation_id with
  | Some id => Json.JString id
  | None => Json.JNull
  end.

(* ================================================================== *)
(** * The chat component *)
(* ================================================================== *)

Module Message.

(** A message of the list: [timestamp] is the time value of its [Date];
    [type] is an optional property. *)
Record t := mk
  { text : jsstring;
    isUser : bool;
    timestamp : N;
    type : option MessageType }.

End Message.

(** The state variables of [Chat]. *)
Record ChatState := mkChat
  { messages : list Message.t;
    input : jsstring;
    isLoading : bool;
    conversationId : option jsstring;
    streamingMessage : jsstring }.

(** The state of a chat that was just mounted. *)
Definition mounted : ChatState := mkChat [] [] false None [].

Definition errorText : jsstring :=
  lit "Sorry, there was an error processing your message.".

(** A call of one of the state setters. *)
Inductive Update :=
| AppendMessage (m : Message.t)          (* setMessages(prev => [...prev, m]) *)
| SetInput (value : jsstring)
| SetIsLoading (value : bool)
| SetStreamingMessage (value : jsstring)
| SetConversationId (value : option jsstring).

Definition apply_update (u : Update) (st : ChatState) : ChatState :=
  match u with
  | AppendMessage m =>
      mkChat (messages st ++ [m]) (input st) (isLoading st)
        (conversationId st) (streamingMessage st)
  | SetInput value =>
      mkChat (messages st) value (isLoading st)
        (conversationId st) (streamingMessage st)
  | SetIsLoading value =>
      mkChat (messages st) (input st) value
        (conversationId st) (streamingMessage st)
  | SetStreamingMessage value =>
      mkChat (messages st) (input st) (isLoading st)
        (conversationId st) value
  | SetConversationId value =>
      mkChat (messages st) (input st) (isLoading st)
        value (streamingMessage st)
  end.

Definition apply_updates (us : list Update) (st : ChatState) : ChatState :=
  fold_left (fun s u => apply_update u s) us st.

(** The condition under which [handleSend] returns at once, which is also
    the [disabled] property of the send button. *)
Definition sendDisabled (st : ChatState) : bool :=
  negb (truthy (trim (input st))) || isLoading st.

(** [handleSend], called in a render of state [st]: the setter calls it
    makes, in order (none when it returns at once). [sent_at] and
    [replied_at] are the two readings of the clock. *)
Definition handleSend (fetch : Transport) (sent_at replied_at : N)
    (st : ChatState) : list Update :=
  if sendDisabled st then []
  else
    let userMessage := Message.mk (input st) true sent_at (Some text) in
    let run := post fetch (conversationId st) true in
    [AppendMessage userMessage; SetInput []; SetIsLoading true;
     SetStreamingMessage []] ++
    map SetStreamingMessage (snapshots run) ++
    match outcome run with
    | Returned data =>
        let messageType := detectMessageType (response data) in
        let assistantMessage :=
          Message.mk (response data) false replied_at (Some messageType) in
        [AppendMessage assistantMessage; SetStreamingMessage [];
         SetConversationId (conversation_id data)]
    | Thrown _ =>
        let errorMessage :=
          Message.mk errorText false replied_at (Some text) in
        [AppendMessage errorMessage; SetStreamingMessage []]
    end ++
    [SetIsLoading false].

(** [handleKeyPress]: Enter without Shift sends. *)
Definition handleKeyPress (key : jsstring) (shiftKey : bool)
    (fetch : Transport) (sent_at replied_at : N) (st : ChatState)
  : list Update :=
  if JS.eqb key (lit "Enter") && negb shiftKey
  then handleSend fetch sent_at replied_at st
  else [].

(** The rows the component shows, without the styling. *)
Inductive Row :=
| UserBubble (text : jsstring) (timestamp : N)
| AssistantBubble (content : Content) (timestamp : N)
| StreamingBubble (content : Content).

Definition row (m : Message.t) : Row :=
  if Message.isUser m then UserBubble (Message.text m) (Message.timestamp m)
  else AssistantBubble
         (renderContent (Message.text m)
            (match Message.type m with Some ty => ty | None => text end))
         (Message.timestamp m).

(** The list the component renders: the messages, then the streaming
    message while it is not empty. *)
Definition rows (st : ChatState) : list Row :=
  map row (messages st) ++
  (if truthy (streamingMessage st)
   then [StreamingBubble (renderContent (streamingMessage st) text)]
   else []).

(* ================================================================== *)
(** * Further vocabulary *)
(* ================================================================== *)

(** ** Streams *)

(** Each text of [xs] is the one before it, or [acc] for the first, with
    something added at its end. *)
Fixpoint grows_from (acc : jsstring) (xs : list jsstring) : Prop :=
  match xs with
  | [] => True
  | x :: rest => (exists added, x = acc ++ added) /\ grows_from x rest
  end.

(** A line of a stream: a content frame, possibly with JSON white space
    after its payload (the carriage return of a CR LF line end, say), or a
    line of another kind. *)
Inductive WireLine :=
| ContentLine (fragment : jsstring) (trailing : jsstring)
| OtherLine (line : jsstring).

Definition line_text (l : WireLine) : jsstring :=
  match l with
  | ContentLine fragment trailing => frame fragment ++ trailing
  | OtherLine line => line
  end.

(** The fragment a line carries. *)
Definition line_fragment (l : WireLine) : list jsstring :=
  match l with
  | ContentLine fragment _ => [fragment]
  | OtherLine _ => []
  end.

(** A line as the decoder expects it: it holds no line feed; white space
    after a payload is JSON white space; a line of another kind does not
    start with the prefix of a frame. *)
Definition proper_line (l : WireLine) : Prop :=
  forallb (fun c => negb (N.eqb c LF)) (line_text l) = true /\
  match l with
  | ContentLine _ trailing => forallb Json.is_json_ws trailing = true
  | OtherLine line => startsWith (lit "data: ") line = false
  end.

(** The text of a chunk made of whole lines, each ended by a line feed. *)
Definition lines_text (ls : list WireLine) : jsstring :=
  concat (map (fun l => line_text l ++ [LF]) ls).

(** What the loop keeps true when there is an observer: the snapshots grow
    one from the other, and [result] is the last of them. *)
Definition accumulating (st : State) : Prop :=
  grows_from [] (emitted st) /\ result st = last (emitted st) [].

(** A stream with CR LF line ends, an empty line and a comment line. *)
Definition crlf_stream : list (list WireLine) :=
  [ [ContentLine (lit "Hel") [13%N]; OtherLine [13%N]];
    [OtherLine (lit ": keep-alive"); ContentLine (lit "lo") [13%N]] ].

(** A message with a quotation mark, a reverse solidus, a line feed, a
    surrogate pair and a surrogate alone. *)
Definition awkward_message : jsstring :=
  [34; 92; 10; 55357; 56551; 55357; 104; 105]%N.

(** ** Numbered lists of labeled event blocks *)

(** A numbered list: each item is a number, a period and a body; one item
    per line. *)
Definition numbered (items : list (jsstring * jsstring)) : jsstring :=
  join [LF] (map (fun item => fst item ++ [46%N] ++ snd item) items).

(** The segments of a numbered list: each body with the line feed that
    ends its line, the last body bare. *)
Fixpoint numbered_segments (items : list (jsstring * jsstring))
  : list jsstring :=
  match items with
  | [] => []
  | [item] => [snd item]
  | item :: rest => (snd item ++ [LF]) :: numbered_segments rest
  end.

(** An item whose number is a run of digits and whose body holds no digit
    followed by a period. *)
Definition plain_item (item : jsstring * jsstring) : Prop :=
  fst item <> [] /\ forallb is_digit (fst item) = true /\
  digit_period_count (snd item) = 0.

(** The labeled block of an event: its three fields under their markers. *)
Definition render_event_block (ev : CalendarEvent) : jsstring :=
  lit " **Event**: " ++ event ev ++ lit " - **Location**: " ++ location ev ++
  lit " - **Time**: " ++ time ev.

(** The numbered list of events, one per line. *)
Definition render_event_list (items : list (jsstring * CalendarEvent))
  : jsstring :=
  numbered (map (fun item => (fst item, render_event_block (snd item))) items).

Definition trimmed_event (ev : CalendarEvent) : CalendarEvent :=
  mkEvent (trim (event ev)) (trim (location ev)) (trim (time ev)).

(** An item the calendar extractor reads back: the number is a run of
    digits; no field holds the marker of a later field; nowhere in the block
    is a digit followed by a period. *)
Record readable_event (item : jsstring * CalendarEvent) : Prop := mkReadableEvent
  { event_number_digits : fst item <> [] /\ forallb is_digit (fst item) = true;
    event_markers :
      includes (lit "**Location**:") (event (snd item)) = false /\
      includes (lit "**Time**:") (event (snd item)) = false;
    location_markers :
      includes (lit "**Time**:") (location (snd item)) = false;
    event_no_digit_period :
      digit_period_count (render_event_block (snd item)) = 0 }.

(** Every field of a record occurs in the text. *)
Definition email_fields_occur (t : jsstring) (r : EmailData) : Prop :=
  occurs (from r) t /\ occurs (date r) t /\
  occurs (subject r) t /\ occurs (content r) t.

Definition event_fields_occur (t : jsstring) (r : CalendarEvent) : Prop :=
  occurs (event r) t /\ occurs (location r) t /\ occurs (time r) t.

(** ** Formatted text *)

Definition no_line_feed (s : jsstring) : Prop :=
  forallb (fun c => negb (N.eqb c LF)) s = true.

(** The lines of a formatted email before its content: the three headers
    and the empty line. *)
Definition email_header_lines (e : EmailData) : list jsstring :=
  [ envelope ++ lit " " ++ from e;
    calendar_sign ++ lit " " ++ date e;
    pushpin ++ lit " " ++ subject e;
    [] ].

(** What follows the number and the period in a formatted event. *)
Definition event_body (ev : CalendarEvent) : jsstring :=
  (lit " " ++ calendar_sign ++ lit " " ++ event ev ++ [LF]) ++
  (lit "   " ++ round_pushpin ++ lit " " ++ location ev ++ [LF]) ++
  (lit "   " ++ alarm_clock ++ lit " " ++ time ev ++ [LF]).

(** The items of the formatted list: the number and the body of each. *)
Definition event_items (events : list CalendarEvent)
  : list (jsstring * jsstring) :=
  mapi_from 0 (fun index ev => (decimal (index + 1), event_body ev)) events.

(** ** Cards *)

(** A line of a card: it holds neither a line feed nor the block marker. *)
Definition card_line (line : jsstring) : Prop :=
  no_line_feed line /\ ~ occurs (lit "[EMAIL]") line.

(** A card: it has a first line, which is not empty, and proper lines. *)
Definition card (lines : list jsstring) : Prop :=
  (exists c first rest, lines = (c :: first) :: rest) /\ Forall card_line lines.

(** [s] holds no code unit [c]. *)
Definition without (c : N) (s : jsstring) : bool :=
  forallb (fun x => negb (N.eqb x c)) s.

Definition asterisk : N := 42.

(** ** Sessions of the chat *)

(** What the user does. While a request is in flight the text field and
    the send button are disabled and [handleSend] returns at once, so one
    action is over before the next begins. *)
Inductive Action :=
| Change (value : jsstring)                           (* [onChange] *)
| Click (fetch : Transport) (sent_at replied_at : N)  (* [onClick] *)
| KeyPress (key : jsstring) (shiftKey : bool)
           (fetch : Transport) (sent_at replied_at : N). (* [onKeyPress] *)

Definition perform (a : Action) (st : ChatState) : ChatState :=
  match a with
  | Change value => apply_update (SetInput value) st
  | Click fetch sent_at replied_at =>
      apply_updates (handleSend fetch sent_at replied_at st) st
  | KeyPress key shiftKey fetch sent_at replied_at =>
      apply_updates (handleKeyPress key shiftKey fetch sent_at replied_at st) st
  end.

(** The state after the actions of a session, from the mounted chat. *)
Definition session (actions : list Action) : ChatState :=
  fold_left (fun st a => perform a st) actions mounted.

(** A message of the user and the answer to it: the user's text is not
    blank and is typed as plain text; the answer carries the type the
    classifier gives its text. *)
Definition exchange (u a : Message.t) : Prop :=
  Message.isUser u = true /\ Message.type u = Some text /\
  truthy (trim (Message.text u)) = true /\
  Message.isUser a = false /\
  Message.type a = Some (detectMessageType (Message.text a)).

Inductive exchanges : list Message.t -> Prop :=
| exchanges_nil : exchanges []
| exchanges_snoc ms u a :
    exchanges ms -> exchange u a -> exchanges (ms ++ [u; a]).

(** A transport that answers with two content frames in one chunk. *)
Definition greeting_transport : Transport :=
  streaming [frame (lit "Hel") ++ [LF] ++ frame (lit "lo") ++ [LF]].

(** ** Lines of a stream in general *)

(** A line of a stream with what it carries: a content frame and its
    fragment, a frame of another type, or a line that is no frame (an
    empty line, a comment). *)
Inductive StreamLine :=
| ContentFrame (line : jsstring) (fragment : jsstring)
| OtherFrame (line : jsstring)
| NoFrame (line : jsstring).

Definition stream_line_text (l : StreamLine) : jsstring :=
  match l with
  | ContentFrame line _ => line
  | OtherFrame line => line
  | NoFrame line => line
  end.

Definition stream_line_fragment (l : StreamLine) : list jsstring :=
  match l with
  | ContentFrame _ fragment => [fragment]
  | _ => []
  end.

(** The members of the object a frame line holds: the line is the marker
    prefix followed by JSON text for an object. *)
Definition frame_members (line : jsstring)
  : option (list (jsstring * Json.value)) :=
  if startsWith (lit "data: ") line then
    match Json.parse (slice 6 line) with
    | Some (Json.JObject members) => Some members
    | _ => None
    end
  else None.

(** The member [key] of an object, when it is a string. *)
Definition string_member (key : jsstring)
    (members : list (jsstring * Json.value)) : option jsstring :=
  match Json.lookup key members with
  | Some (Json.JString s) => Some s
  | _ => None
  end.

(** A line is well formed when it holds no line feed and is what it is
    given as: a content frame is the prefix and an object whose [type] is
    the string [content] and whose [content] is the fragment, a string; a
    frame of another type is the prefix and an object whose [type] is
    another string; a line that is no frame does not start with the
    prefix. *)
Definition well_formed_line (l : StreamLine) : bool :=
  forallb (fun c => negb (N.eqb c LF)) (stream_line_text l) &&
  match l with
  | ContentFrame line fragment =>
      match frame_members line with
      | Some members =>
          match string_member (lit "type") members,
                string_member (lit "content") members with
          | Some ty, Some c => JS.eqb ty (lit "content") && JS.eqb c fragment
          | _, _ => false
          end
      | None => false
      end
  | OtherFrame line =>
      match frame_members line with
      | Some members =>
          match string_member (lit "type") members with
          | Some ty => negb (JS.eqb ty (lit "content"))
          | None => false
          end
      | None => false
      end
  | NoFrame line => negb (startsWith (lit "data: ") line)
  end.

(** The text of a chunk made of whole lines: the lines with a line feed
    between them. A chunk that ends with a line feed has the empty line for
    last line; one that does not ends with a line that has no line feed
    after it. *)
Definition chunk_of (ls : list StreamLine) : jsstring :=
  join [LF] (map stream_line_text ls).

(** The text the decoder returns for a stream of this chunk alone. *)
Definition decoded_alone (chunk : jsstring) : jsstring :=
  result (process_chunk false initial chunk).

(** A stream in three chunks: a frame written with spaces, a frame with
    its members in another order and one more member, a frame of another
    type, a comment, empty lines, and a last line with no line feed after
    it. *)
Definition varied_stream : list (list StreamLine) :=
  [ [ContentFrame (litq "data: { 'type' : 'content' , 'content' : 'Hel' }")
       (lit "Hel");
     NoFrame []];
    [NoFrame (lit ": ping");
     OtherFrame (litq "data: {'type':'status','content':'thinking'}");
     ContentFrame (litq "data: {'content':'lo','id':7,'type':'content'}")
       (lit "lo");
     NoFrame []];
    [NoFrame [];
     ContentFrame (litq "data: {'type':'content','content':'!'}") (lit "!")] ].

(** ** What a field pattern captures *)

(** The pattern of a label, its lazy group and what [K] tests after it
    matches at the head of [s] with group [g]: [s] is the label, the group
    and a rest at which [K] holds, and [K] holds at no earlier place of the
    group (the group is lazy: it is the shortest). *)
Definition matches_at (label : jsstring) (K : jsstring -> bool)
    (s g : jsstring) : Prop :=
  exists rest,
    s = label ++ g ++ rest /\ K rest = true /\
    forall g1 g2, g = g1 ++ g2 -> g2 <> [] -> K (g2 ++ rest) = false.

(** [g] is the text the pattern captures in [s]: the group of its match at
    the leftmost place of [s] that has a match. *)
Definition captures (label : jsstring) (K : jsstring -> bool)
    (s g : jsstring) : Prop :=
  exists before tail,
    s = before ++ tail /\ matches_at label K tail g /\
    forall b1 b2 g', before = b1 ++ b2 -> b2 <> [] ->
                     ~ matches_at label K (b2 ++ tail) g'.

(** The pattern finds no match in [s], at any place. *)
Definition finds_no_match (label : jsstring) (K : jsstring -> bool)
    (s : jsstring) : Prop :=
  forall before tail g, s = before ++ tail -> ~ matches_at label K tail g.

(** The record read from a segment: each field is the trimmed text its
    label's pattern captures in the segment. *)
Definition email_read (block : jsstring) (r : EmailData) : Prop :=
  exists f d s c,
    captures (lit "**From**: ") (lookahead_dash (lit "**Date**:")) block f /\
    captures (lit "**Date**: ") (lookahead_dash (lit "**Subject**:")) block d /\
    captures (lit "**Subject**: ") (lookahead_dash (lit "**Content**:")) block s /\
    captures (lit "**Content**: ") at_end block c /\
    r = mkEmail (trim f) (trim d) (trim s) (trim c).

(** A segment in which one of the four patterns finds no match. *)
Definition email_unmatched (block : jsstring) : Prop :=
  finds_no_match (lit "**From**: ") (lookahead_dash (lit "**Date**:")) block \/
  finds_no_match (lit "**Date**: ") (lookahead_dash (lit "**Subject**:")) block \/
  finds_no_match (lit "**Subject**: ") (lookahead_dash (lit "**Content**:")) block \/
  finds_no_match (lit "**Content**: ") at_end block.

Definition event_read (block : jsstring) (r : CalendarEvent) : Prop :=
  exists e l t,
    captures (lit "**Event**: ") (lookahead_dash (lit "**Location**:")) block e /\
    captures (lit "**Location**: ") (lookahead_dash (lit "**Time**:")) block l /\
    captures (lit "**Time**: ") at_end block t /\
    r = mkEvent (trim e) (trim l) (trim t).

Definition event_unmatched (block : jsstring) : Prop :=
  finds_no_match (lit "**Event**: ") (lookahead_dash (lit "**Location**:")) block \/
  finds_no_match (lit "**Location**: ") (lookahead_dash (lit "**Time**:")) block \/
  finds_no_match (lit "**Time**: ") at_end block.

(** The records are read off the segments in order: each segment gives its
    record, or gives none because it is unmatched. *)
Inductive read_off {R : Type} (reads : jsstring -> R -> Prop)
    (unmatched : jsstring -> Prop) : list jsstring -> list R -> Prop :=
| read_off_nil : read_off reads unmatched [] []
| read_off_record block blocks r rs :
    reads block r -> read_off reads unmatched blocks rs ->
    read_off reads unmatched (block :: blocks) (r :: rs)
| read_off_none block blocks rs :
    unmatched block -> read_off reads unmatched blocks rs ->
    read_off reads unmatched (block :: blocks) rs.

(* ================================================================== *)
(** * Strings: basic facts *)
(* ================================================================== *)

Lemma eqb_eq (a b : jsstring) : JS.eqb a b = true <-> a = b.
Proof.
  revert b; induction a as [|x a IH]; intros [|y b]; simpl;
    try (split; [discriminate | discriminate]); try tauto.
  rewrite andb_true_iff, N.eqb_eq, IH. split.
  - intros [-> ->]; reflexivity.
  - intros H; injection H; auto.
Qed.

Lemma startsWith_app (p r : jsstring) : startsWith p (p ++ r) = true.
Proof.
  induction p as [|a p IH]; simpl; [reflexivity|].
  now rewrite N.eqb_refl.
Qed.

Lemma startsWith_inv (p s : jsstring) :
  startsWith p s = true -> s = p ++ skipn (length p) s.
Proof.
  revert s; induction p as [|a p IH]; intros s H; [reflexivity|].
  destruct s as [|b s]; [discriminate|]. simpl in H.
  apply andb_true_iff in H as [E H]. apply N.eqb_eq in E. subst b.
  simpl. f_equal. now apply IH.
Qed.

Lemma startsWith_spec (p s : jsstring) :
  startsWith p s = true <-> exists r, s = p ++ r.
Proof.
  split.
  - intros H. eexists. now apply startsWith_inv.
  - intros [r ->]. apply startsWith_app.
Qed.

Lemma includes_spec (p s : jsstring) :
  includes p s = true <-> occurs p s.
Proof.
  induction s as [|c s IH]; simpl.
  - rewrite orb_false_r, startsWith_spec. split.
    + intros [r H]. exists [], r. exact H.
    + intros (b & a & H). destruct b; [|discriminate].
      exists a. exact H.
  - rewrite orb_true_iff, startsWith_spec, IH. split.
    + intros [[r H] | (b & a & H)].
      * exists [], r. exact H.
      * exists (c :: b), a. now rewrite H.
    + intros (b & a & H). destruct b as [|x b].
      * left. exists a. exact H.
      * right. injection H as _ H. now exists b, a.
Qed.

Lemma includes_false (p s : jsstring) :
  includes p s = false <-> ~ occurs p s.
Proof.
  rewrite <- includes_spec. destruct (includes p s); split; intros H;
    try reflexivity; try discriminate; try (intros E; discriminate).
  exfalso. now apply H.
Qed.

(** An occurrence in a part is an occurrence in the whole. *)
Lemma occurs_within (p a s b : jsstring) :
  occurs p s -> occurs p (a ++ s ++ b).
Proof.
  intros (x & y & ->). exists (a ++ x), (y ++ b).
  now rewrite <- !app_assoc.
Qed.

Lemma occurs_trans (p q s : jsstring) : occurs p q -> occurs q s -> occurs p s.
Proof.
  intros H (a & b & ->). now apply occurs_within.
Qed.


(** ** [trim] *)

Lemma trimStart_head (s : jsstring) c r :
  trimStart s = c :: r -> is_ws c = false.
Proof.
  induction s as [|x s IH]; simpl; [discriminate|].
  destruct (is_ws x) eqn:E; [exact IH|].
  intros H; injection H as -> _. exact E.
Qed.

Lemma trimStart_split (s : jsstring) :
  exists w, s = w ++ trimStart s /\ all_ws w = true.
Proof.
  induction s as [|x s (w & E & W)]; simpl.
  - now exists [].
  - destruct (is_ws x) eqn:X.
    + exists (x :: w). simpl. rewrite X, W. split; [now f_equal|reflexivity].
    + now exists [].
Qed.

Lemma trimStart_ws_app (w z : jsstring) :
  all_ws w = true -> trimStart (w ++ z) = trimStart z.
Proof.
  induction w as [|x w IH]; simpl; [reflexivity|].
  intros H. apply andb_true_iff in H as [X W]. rewrite X. now apply IH.
Qed.

Lemma trimStart_app (g w : jsstring) :
  trimStart g <> [] -> trimStart (g ++ w) = trimStart g ++ w.
Proof.
  induction g as [|x g IH]; simpl; [congruence|].
  destruct (is_ws x); [exact IH|reflexivity].
Qed.

Lemma trimStart_all_ws (w : jsstring) : all_ws w = true -> trimStart w = [].
Proof.
  intros H. rewrite <- (app_nil_r w). now rewrite trimStart_ws_app.
Qed.

Lemma all_ws_rev (w : jsstring) : all_ws (rev w) = all_ws w.
Proof.
  unfold all_ws. induction w as [|x w IH]; simpl; [reflexivity|].
  rewrite forallb_app, IH. simpl. rewrite andb_true_r. apply andb_comm.
Qed.

Lemma trimEnd_split (s : jsstring) :
  exists w, s = trimEnd s ++ w /\ all_ws w = true.
Proof.
  unfold trimEnd. destruct (trimStart_split (rev s)) as (w & E & W).
  exists (rev w). rewrite all_ws_rev. split; [|exact W].
  rewrite <- rev_app_distr, <- E. symmetry. apply rev_involutive.
Qed.

Lemma trimEnd_app_ws (y w : jsstring) :
  all_ws w = true -> trimEnd (y ++ w) = trimEnd y.
Proof.
  intros W. unfold trimEnd. rewrite rev_app_distr, trimStart_ws_app; [reflexivity|].
  now rewrite all_ws_rev.
Qed.

Lemma trimEnd_last (s r : jsstring) c :
  trimEnd s = r ++ [c] -> is_ws c = false.
Proof.
  unfold trimEnd. intros H. apply (f_equal (@rev N)) in H.
  rewrite rev_involutive, rev_app_distr in H. simpl in H.
  eapply trimStart_head, H.
Qed.

(** [trim] leaves no white space at either end. *)
Lemma trim_no_outer_ws (s : jsstring) : no_outer_ws (trim s).
Proof.
  unfold trim. split.
  - intros c r H.
    destruct (trimEnd_split (trimStart s)) as (w & E & _).
    rewrite H in E. simpl in E. eapply trimStart_head, E.
  - intros c r H. eapply trimEnd_last, H.
Qed.

(** [trim] does not see white space that follows its argument. *)
Lemma trim_app_ws (g w : jsstring) : all_ws w = true -> trim (g ++ w) = trim g.
Proof.
  intros W. unfold trim. destruct (trimStart g) as [|x y] eqn:G.
  - destruct (trimStart_split g) as (v & E & V). rewrite G, app_nil_r in E.
    subst v. rewrite trimStart_ws_app by exact V.
    now rewrite (trimStart_all_ws _ W).
  - rewrite trimStart_app by (rewrite G; discriminate).
    rewrite G. now apply trimEnd_app_ws.
Qed.

(** ** The [forEach] loops *)

Lemma fold_push_collected {R : Type} (f : jsstring -> option R) blocks acc :
  fold_left (fun out b => match f b with
                          | Some r => out ++ [r]
                          | None => out
                          end) blocks acc
  = acc ++ collected f blocks.
Proof.
  revert acc; induction blocks as [|b bs IH]; intros acc; simpl.
  - now rewrite app_nil_r.
  - rewrite IH. destruct (f b); [|reflexivity]. now rewrite <- app_assoc.
Qed.

Lemma parseMultipleEmails_collected (t : jsstring) :
  parseMultipleEmails t
  = collected parseEmailFromText (filter keeps_block (tl (split_numbered t))).
Proof. unfold parseMultipleEmails. now rewrite fold_push_collected. Qed.

Lemma parseCalendarEvents_collected (t : jsstring) :
  parseCalendarEventsFromText t
  = collected parseCalendarBlock (tl (split_numbered t)).
Proof. unfold parseCalendarEventsFromText. now rewrite fold_push_collected. Qed.

Lemma in_collected {R : Type} (f : jsstring -> option R) blocks r :
  In r (collected f blocks) <-> exists b, In b blocks /\ f b = Some r.
Proof.
  unfold collected. rewrite in_flat_map. split.
  - intros (b & Hb & Hr). exists b. split; [exact Hb|].
    destruct (f b); simpl in Hr; [|contradiction].
    destruct Hr as [->|[]]. reflexivity.
  - intros (b & Hb & E). exists b. split; [exact Hb|]. rewrite E. now left.
Qed.

Lemma collected_app {R : Type} (f : jsstring -> option R) xs ys :
  collected f (xs ++ ys) = collected f xs ++ collected f ys.
Proof. unfold collected. apply flat_map_app. Qed.

Lemma collected_length {R : Type} (f : jsstring -> option R) blocks :
  length (collected f blocks) <= length blocks.
Proof.
  induction blocks as [|b bs IH]; simpl; [lia|].
  rewrite length_app. destruct (f b); simpl; lia.
Qed.

(* ================================================================== *)
(** * The numbered-list split *)
(* ================================================================== *)

Lemma push_front_length c (segs : list jsstring) :
  segs <> [] -> length (push_front c segs) = length segs.
Proof. destruct segs; [congruence|reflexivity]. Qed.

Lemma split_scan_nonempty skip s : split_scan skip s <> [].
Proof.
  revert skip; induction s as [|c r IH]; intros skip; simpl; [discriminate|].
  destruct skip; [|apply IH].
  destruct (delimiter_at (c :: r)); [discriminate|].
  specialize (IH 0). destruct (split_scan 0 r); [congruence|discriminate].
Qed.

(** The first segment is read from where the scan starts. *)
Lemma split_scan_head skip s :
  exists h t b, split_scan skip s = h :: t /\ skipn skip s = h ++ b.
Proof.
  revert skip; induction s as [|c r IH]; intros skip; simpl.
  - exists [], [], []. now rewrite skipn_nil.
  - destruct skip as [|k].
    + destruct (delimiter_at (c :: r)).
      * exists [], (split_scan (pred n) r), (c :: r). now split.
      * destruct (IH 0) as (h & t & b & E & P). rewrite E. simpl in *.
        exists (c :: h), t, b. split; [reflexivity|]. now rewrite P.
    + apply IH.
Qed.

(** Every segment is a piece of the text. *)
Lemma split_scan_occurs skip s seg :
  In seg (split_scan skip s) -> occurs seg s.
Proof.
  revert skip; induction s as [|c r IH]; intros skip; simpl.
  - intros [<-|[]]. now exists [], [].
  - destruct skip as [|k].
    + destruct (delimiter_at (c :: r)).
      * intros [<-|H].
        -- now exists [], (c :: r).
        -- destruct (IH _ H) as (a & b & ->). now exists (c :: a), b.
      * destruct (split_scan_head 0 r) as (h & t & b & E & P).
        rewrite E. simpl in *. intros [<-|H].
        -- exists [], b. simpl. now rewrite P.
        -- assert (In seg (split_scan 0 r)) as H' by (rewrite E; now right).
           destruct (IH _ H') as (a & b' & ->). now exists (c :: a), b'.
    + intros H. destruct (IH _ H) as (a & b & ->). now exists (c :: a), b.
Qed.

Lemma split_numbered_occurs t seg :
  In seg (tl (split_numbered t)) -> occurs seg t.
Proof.
  intros H. apply (split_scan_occurs 0). unfold split_numbered in H.
  destruct (split_scan 0 t); [destruct H|now right].
Qed.

(** A delimiter is a run of digits and the period after it. *)
Lemma delimiter_at_inv s n :
  delimiter_at s = Some n ->
  exists ds rest, s = ds ++ 46%N :: rest /\ ds <> [] /\
                  forallb is_digit ds = true /\ n = S (length ds).
Proof.
  unfold delimiter_at.
  assert (forall s, exists ds rest, s = ds ++ rest /\ length ds = digit_run s /\
                    forallb is_digit ds = true) as run.
  { clear. induction s as [|c r (ds & rest & E & L & D)]; simpl.
    - now exists [], [].
    - destruct (is_digit c) eqn:C.
      + exists (c :: ds), rest. simpl. rewrite C, D, L, E at 1. auto.
      + now exists [], (c :: r). }
  destruct (run s) as (ds & rest & E & L & D).
  destruct (digit_run s) as [|m] eqn:R; [discriminate|].
  rewrite E at 1. rewrite <- L, skipn_app, skipn_all, Nat.sub_diag. simpl.
  destruct rest as [|c rest]; [discriminate|].
  destruct (N.eqb_spec c 46); [|discriminate].
  intros H; injection H as <-. subst c.
  exists ds, rest. repeat split; auto.
  destruct ds; [discriminate|discriminate].
Qed.

Lemma delimiter_at_digits ds rest :
  ds <> [] -> forallb is_digit ds = true ->
  delimiter_at (ds ++ 46%N :: rest) = Some (S (length ds)).
Proof.
  intros NE D. unfold delimiter_at.
  assert (digit_run (ds ++ 46%N :: rest) = length ds) as ->.
  { clear NE. induction ds as [|c ds IH]; simpl in *; [reflexivity|].
    apply andb_true_iff in D as [C D]. rewrite C. now rewrite IH. }
  destruct ds as [|c ds]; [congruence|]. cbn [length].
  change (S (length ds)) with (length (c :: ds)).
  now rewrite skipn_app, skipn_all, Nat.sub_diag.
Qed.

(** Passing over the rest of a match. *)
Lemma split_scan_skip a s : split_scan (length a) (a ++ s) = split_scan 0 s.
Proof.
  induction a as [|c a IH]; simpl; [reflexivity|exact IH].
Qed.

(** At a delimiter the current segment ends and the scan resumes after it. *)
Lemma split_scan_delimiter ds rest :
  ds <> [] -> forallb is_digit ds = true ->
  split_scan 0 (ds ++ 46%N :: rest) = [] :: split_scan 0 rest.
Proof.
  intros NE D. pose proof (delimiter_at_digits ds rest NE D) as E.
  destruct ds as [|c ds]; [congruence|].
  cbn [app split_scan]. cbn [app] in E. rewrite E. cbn [pred length].
  f_equal.
  replace (S (length ds)) with (length (ds ++ [46%N]))
    by (rewrite length_app; simpl; lia).
  replace (ds ++ 46%N :: rest) with ((ds ++ [46%N]) ++ rest)
    by (now rewrite <- app_assoc).
  apply split_scan_skip.
Qed.

Lemma digit_period_count_cons c r :
  digit_period_count (c :: r)
  = (if is_digit c && match r with d :: _ => N.eqb d 46 | [] => false end
     then 1 else 0) + digit_period_count r.
Proof. reflexivity. Qed.

Lemma digit_period_count_delimiter ds rest :
  ds <> [] -> forallb is_digit ds = true ->
  digit_period_count (ds ++ 46%N :: rest) = S (digit_period_count rest).
Proof.
  induction ds as [|c ds IH]; [congruence|]. intros _ D.
  simpl in D. apply andb_true_iff in D as [C D].
  rewrite <- app_comm_cons, digit_period_count_cons.
  destruct ds as [|d ds].
  - cbn [app]. rewrite C, digit_period_count_cons. simpl. reflexivity.
  - rewrite IH by (auto; discriminate).
    simpl in D. apply andb_true_iff in D as [D' _].
    rewrite <- app_comm_cons.
    assert (N.eqb d 46 = false) as ->.
    { apply N.eqb_neq. intros ->. discriminate. }
    now rewrite andb_false_r.
Qed.

(** Where no delimiter starts, the place is not a digit before a period. *)
Lemma delimiter_at_none c r :
  delimiter_at (c :: r) = None ->
  is_digit c && match r with d :: _ => N.eqb d 46 | [] => false end = false.
Proof.
  intros H. destruct (is_digit c) eqn:C; [|reflexivity].
  destruct r as [|d r]; [reflexivity|]. simpl.
  destruct (N.eqb_spec d 46) as [->|]; [|reflexivity].
  pose proof (delimiter_at_digits [c] r) as E. cbn [app] in E.
  rewrite E in H; [discriminate|discriminate|].
  simpl. now rewrite C.
Qed.

(** The scan cuts once at each digit-period place. *)
Lemma split_scan_length skip s :
  length (split_scan skip s) = S (digit_period_count (skipn skip s)).
Proof.
  remember (length s) as n eqn:L. revert s skip L.
  induction n as [n IH] using lt_wf_ind. intros s skip L.
  destruct s as [|c r]; [now rewrite skipn_nil|].
  destruct skip as [|k].
  - cbn [skipn]. destruct (delimiter_at (c :: r)) as [m|] eqn:E.
    + destruct (delimiter_at_inv _ _ E) as (ds & rest & S' & NE & D & ->).
      rewrite S', split_scan_delimiter, digit_period_count_delimiter by auto.
      cbn [length]. f_equal.
      rewrite (IH (length rest)) with (skip := 0); [reflexivity| |reflexivity].
      subst n. rewrite S', length_app. simpl. lia.
    + cbn [split_scan]. rewrite E.
      rewrite push_front_length by apply split_scan_nonempty.
      rewrite (IH (length r)) with (skip := 0) by (subst; simpl; lia).
      cbn [skipn digit_period_count].
      now rewrite (delimiter_at_none c r E).
  - cbn [split_scan skipn]. apply (IH (length r)); subst; simpl; lia.
Qed.

Lemma split_numbered_length t :
  length (split_numbered t) = S (digit_period_count t).
Proof. apply (split_scan_length 0). Qed.

(* ================================================================== *)
(** * The field patterns *)
(* ================================================================== *)

Lemma lazy_group_inv K s g :
  lazy_group K s = Some g -> exists rest, s = g ++ rest /\ K rest = true.
Proof.
  revert g; induction s as [|c r IH]; intros g; simpl.
  - destruct (K []) eqn:E; [|discriminate].
    intros H; injection H as <-. now exists [].
  - destruct (K (c :: r)) eqn:E.
    + intros H; injection H as <-. now exists (c :: r).
    + destruct (lazy_group K r) as [g'|]; [|discriminate].
      intros H; injection H as <-.
      destruct (IH g' eq_refl) as (rest & -> & F). now exists rest.
Qed.

(** A match is the label, the group, and a place where the rest of the
    pattern holds. *)
Lemma match_field_inv label K s g :
  match_field label K s = Some g ->
  exists before rest, s = before ++ label ++ g ++ rest /\ K rest = true.
Proof.
  induction s as [|c r IH]; cbn [match_field].
  - unfold field_at. destruct (startsWith label []) eqn:P; [|discriminate].
    destruct (lazy_group K (skipn (length label) [])) as [g'|] eqn:G;
      [|discriminate].
    intros H; injection H as <-.
    apply startsWith_inv in P. apply lazy_group_inv in G as (rest & G & F).
    exists [], rest. rewrite <- G, <- P. now split.
  - destruct (field_at label K (c :: r)) as [g'|] eqn:A.
    + intros H; injection H as <-. unfold field_at in A.
      destruct (startsWith label (c :: r)) eqn:P; [|discriminate].
      apply startsWith_inv in P. apply lazy_group_inv in A as (rest & G & F).
      exists [], rest. rewrite <- G. now split.
    + intros H. destruct (IH H) as (b & rest & -> & F).
      now exists (c :: b), rest.
Qed.

Lemma lookahead_dash_occurs label s :
  lookahead_dash label s = true -> occurs label s.
Proof.
  unfold lookahead_dash. destruct (trimStart_split s) as (w & E & _).
  destruct (trimStart s) as [|c r]; [discriminate|].
  intros H. apply andb_true_iff in H as [_ H].
  destruct (trimStart_split r) as (w' & E' & _).
  apply startsWith_spec in H as (r' & H). rewrite H in E'.
  rewrite E, E'. exists (w ++ c :: w'), r'.
  now rewrite <- app_assoc.
Qed.

(** A field delimited by a lookahead needs its own label and the next one. *)
Lemma match_field_dash_occurs label next s g :
  match_field label (lookahead_dash next) s = Some g ->
  occurs label s /\ occurs next s.
Proof.
  intros H. apply match_field_inv in H as (b & rest & -> & F).
  split.
  - now exists b, (g ++ rest).
  - apply lookahead_dash_occurs in F.
    replace (b ++ label ++ g ++ rest) with ((b ++ label ++ g) ++ rest ++ [])
      by (now rewrite app_nil_r, <- !app_assoc).
    now apply occurs_within.
Qed.

Lemma occurs_shorter p x s : occurs (p ++ x) s -> occurs p s.
Proof.
  intros (a & b & ->). exists a, (x ++ b). now rewrite <- app_assoc.
Qed.

(** A calendar block yields an event only if both markers occur in it. *)
Lemma parseCalendarBlock_markers block ev :
  parseCalendarBlock block = Some ev ->
  occurs (lit "**Event**:") block /\ occurs (lit "**Location**:") block.
Proof.
  unfold parseCalendarBlock.
  destruct (match_field (lit "**Event**: ") _ block) as [e|] eqn:E;
    [|discriminate].
  intros _. apply match_field_dash_occurs in E as [E L]. split; [|exact L].
  apply (occurs_shorter (lit "**Event**:") (lit " ")). exact E.
Qed.

(** ** Searching a label across text that does not hold it *)

Lemma match_field_skip label K c s :
  startsWith label (c :: s) = false ->
  match_field label K (c :: s) = match_field label K s.
Proof.
  intros H. cbn [match_field]. unfold field_at. now rewrite H.
Qed.

Lemma match_field_here label K s g :
  lazy_group K s = Some g ->
  match_field label K (label ++ s) = Some g.
Proof.
  intros H.
  assert (field_at label K (label ++ s) = Some g) as E.
  { unfold field_at. rewrite startsWith_app.
    now rewrite skipn_app, skipn_all, Nat.sub_diag. }
  destruct (label ++ s); cbn [match_field]; now rewrite E.
Qed.

(** A marker that starts inside [x] and runs into a space lies in [x]. *)
Lemma startsWith_before_space m tail x r :
  forallb (fun c => negb (N.eqb c 32)) m = true ->
  startsWith (m ++ tail) (x ++ 32%N :: r) = true ->
  startsWith m x = true.
Proof.
  revert x; induction m as [|a m IH]; intros x M H; [reflexivity|].
  simpl in M. apply andb_true_iff in M as [A M].
  destruct x as [|b x]; simpl in *.
  - apply andb_true_iff in H as [H _]. now rewrite H in A.
  - apply andb_true_iff in H as [-> H]. simpl. now apply IH.
Qed.

Lemma includes_cons_false p c s :
  includes p (c :: s) = false ->
  startsWith p (c :: s) = false /\ includes p s = false.
Proof. cbn [includes]. apply orb_false_iff. Qed.

(** The search for a label passes over a value that does not hold the
    label's marker, when a space follows the value. *)
Lemma match_field_pass label m tail K x r :
  label = m ++ tail -> is_marker m = true -> includes m x = false ->
  match_field label K (x ++ 32%N :: r) = match_field label K (32%N :: r).
Proof.
  intros -> M. apply andb_true_iff in M as [_ M].
  induction x as [|c x IH]; intros H; [reflexivity|].
  apply includes_cons_false in H as [P H].
  rewrite <- app_comm_cons, match_field_skip; [now apply IH|].
  destruct (startsWith (m ++ tail) (c :: x ++ 32%N :: r)) eqn:E; [|reflexivity].
  apply (startsWith_before_space m tail (c :: x) r M) in E. congruence.
Qed.

(** ** The lazy group before a lookahead *)

Lemma lookahead_dash_ws label c s :
  is_ws c = true -> lookahead_dash label (c :: s) = lookahead_dash label s.
Proof. intros W. unfold lookahead_dash. simpl. now rewrite W. Qed.

(** Inside a value that does not hold the marker, the lookahead for the
    marker holds only where nothing but white space is left of the value. *)
Lemma lookahead_dash_in_value m x r :
  is_marker m = true -> includes m x = false ->
  lookahead_dash m (x ++ lit " - " ++ m ++ r) = true ->
  all_ws x = true.
Proof.
  intros M. pose proof M as M'. apply andb_true_iff in M' as [M1 M2].
  induction x as [|c x IH]; intros H L; [reflexivity|].
  apply includes_cons_false in H as [P H].
  destruct (is_ws c) eqn:W.
  - simpl. rewrite W. rewrite <- app_comm_cons, lookahead_dash_ws in L by exact W.
    now apply IH.
  - exfalso. unfold lookahead_dash in L. rewrite <- app_comm_cons in L.
    cbn [trimStart] in L. rewrite W in L.
    apply andb_true_iff in L as [_ L].
    destruct (trimStart x) as [|y z] eqn:T.
    + destruct (trimStart_split x) as (w & E & Wx). rewrite T, app_nil_r in E.
      subst w. rewrite trimStart_ws_app in L by exact Wx.
      change (trimStart (lit " - " ++ m ++ r)) with (45%N :: 32%N :: m ++ r) in L.
      destruct m as [|a m]; [discriminate|]. simpl in L, M1.
      apply andb_true_iff in L as [L _]. apply N.eqb_eq in M1, L. congruence.
    + rewrite trimStart_app in L by (rewrite T; discriminate).
      change (lit " - " ++ m ++ r) with (32%N :: 45%N :: 32%N :: m ++ r) in L.
      pose proof (startsWith_before_space m [] (trimStart x)
                    (45%N :: 32%N :: m ++ r) M2) as Q.
      rewrite app_nil_r in Q. apply Q in L. clear Q.
      destruct (trimStart_split x) as (w & E & _).
      apply startsWith_spec in L as (q & L). rewrite L in E.
      assert (occurs m x) as O by (now exists w, q).
      apply includes_spec in O. congruence.
Qed.

Lemma lookahead_dash_sep m r :
  is_marker m = true -> lookahead_dash m (lit " - " ++ m ++ r) = true.
Proof.
  intros M. apply andb_true_iff in M as [M _].
  change (lit " - " ++ m ++ r) with (32%N :: 45%N :: 32%N :: m ++ r).
  destruct m as [|a m]; [discriminate|]. apply N.eqb_eq in M. subst a.
  unfold lookahead_dash. cbn. apply startsWith_app.
Qed.

(** The group before the lookahead is the value without the white space
    at its end. *)
Lemma lazy_group_value m x r :
  is_marker m = true -> includes m x = false ->
  exists g w, x = g ++ w /\ all_ws w = true /\
    lazy_group (lookahead_dash m) (x ++ lit " - " ++ m ++ r) = Some g.
Proof.
  intros M. induction x as [|c x IH]; intros H.
  - exists [], []. repeat split.
    cbn [app]. pose proof (lookahead_dash_sep m r M) as E.
    destruct (lit " - " ++ m ++ r); cbn [lazy_group]; now rewrite E.
  - destruct (lookahead_dash m ((c :: x) ++ lit " - " ++ m ++ r)) eqn:L.
    + exists [], (c :: x). repeat split.
      * now apply (lookahead_dash_in_value m (c :: x) r).
      * rewrite <- app_comm_cons in *. cbn [lazy_group]. now rewrite L.
    + apply includes_cons_false in H as [_ H].
      destruct (IH H) as (g & w & E & W & G).
      exists (c :: g), w. rewrite E. repeat split; [exact W|].
      rewrite <- E. rewrite <- app_comm_cons in *. cbn [lazy_group].
      now rewrite L, G.
Qed.

(** The last group runs to the end of the input. *)
Lemma lazy_group_at_end s : lazy_group at_end s = Some s.
Proof.
  induction s as [|c s IH]; [reflexivity|].
  cbn [lazy_group at_end]. now rewrite IH.
Qed.

(** ** Passing over literal text *)

Lemma agrees_false label p s :
  agrees label p = false -> startsWith label (p ++ s) = false.
Proof.
  revert p; induction label as [|a l IH]; intros [|b q]; simpl;
    try discriminate.
  destruct (N.eqb a b); simpl; [apply IH|reflexivity].
Qed.

Lemma match_field_skip_prefix label K p s :
  no_start label p = true ->
  match_field label K (p ++ s) = match_field label K s.
Proof.
  induction p as [|c p IH]; [reflexivity|].
  cbn [no_start]. intros H. apply andb_true_iff in H as [A H].
  apply negb_true_iff in A.
  rewrite <- app_comm_cons, match_field_skip; [now apply IH|].
  now apply (agrees_false label (c :: p) s).
Qed.

Lemma match_field_pass_value m K x r :
  is_marker m = true -> includes m x = false ->
  match_field (m ++ lit " ") K (x ++ lit " - " ++ r)
  = match_field (m ++ lit " ") K (lit " - " ++ r).
Proof.
  intros M H. now apply (match_field_pass (m ++ lit " ") m (lit " ")).
Qed.

(** The field under marker [m], before the marker [next]: its group is the
    value without the white space at its end. *)
Lemma match_field_value m next x r :
  is_marker next = true -> includes next x = false ->
  exists g w, x = g ++ w /\ all_ws w = true /\
    match_field (m ++ lit " ") (lookahead_dash next)
      (m ++ lit " " ++ x ++ lit " - " ++ next ++ r) = Some g.
Proof.
  intros M H. destruct (lazy_group_value next x r M H) as (g & w & E & W & G).
  exists g, w. repeat split; auto.
  rewrite app_assoc. now apply match_field_here.
Qed.

Lemma match_field_last m x :
  match_field (m ++ lit " ") at_end (m ++ lit " " ++ x) = Some x.
Proof. rewrite app_assoc. apply match_field_here, lazy_group_at_end. Qed.

(** ** Reading back a labeled block *)

Lemma render_block_shape e w :
  render_block e ++ w
  = lit " " ++ lit "**From**:" ++ lit " " ++ from e ++
    lit " - " ++ lit "**Date**:" ++ lit " " ++ date e ++
    lit " - " ++ lit "**Subject**:" ++ lit " " ++ subject e ++
    lit " - " ++ lit "**Content**:" ++ lit " " ++ (content e ++ w).
Proof. unfold render_block. rewrite <- !app_assoc. reflexivity. Qed.

(** Passing over the literal text and the values before a label. *)
Ltac skip_literals :=
  repeat (rewrite match_field_skip_prefix by reflexivity).

Ltac pass_value :=
  rewrite match_field_pass_value by (reflexivity || assumption).

(** A block followed by white space reads back as its trimmed fields. *)
Lemma parseEmailFromText_block e w :
  includes (lit "**Date**:") (from e) = false ->
  includes (lit "**Subject**:") (from e) = false ->
  includes (lit "**Content**:") (from e) = false ->
  includes (lit "**Subject**:") (date e) = false ->
  includes (lit "**Content**:") (date e) = false ->
  includes (lit "**Content**:") (subject e) = false ->
  all_ws w = true ->
  parseEmailFromText (render_block e ++ w) = Some (trimmed e).
Proof.
  intros FD FS FC DS DC SC W. unfold parseEmailFromText.
  rewrite render_block_shape.
  change (lit "**From**: ") with (lit "**From**:" ++ lit " ").
  change (lit "**Date**: ") with (lit "**Date**:" ++ lit " ").
  change (lit "**Subject**: ") with (lit "**Subject**:" ++ lit " ").
  change (lit "**Content**: ") with (lit "**Content**:" ++ lit " ").
  (* From *)
  destruct (match_field_value (lit "**From**:") (lit "**Date**:") (from e)
              (lit " " ++ date e ++ lit " - " ++ lit "**Subject**:" ++ lit " "
               ++ subject e ++ lit " - " ++ lit "**Content**:" ++ lit " "
               ++ (content e ++ w)) eq_refl FD) as (gf & wf & Ef & Wf & Mf).
  rewrite (match_field_skip_prefix _ _ (lit " ")) by reflexivity.
  rewrite Mf.
  (* Date *)
  destruct (match_field_value (lit "**Date**:") (lit "**Subject**:") (date e)
              (lit " " ++ subject e ++ lit " - " ++ lit "**Content**:" ++ lit " "
               ++ (content e ++ w)) eq_refl DS) as (gd & wd & Ed & Wd & Md).
  skip_literals. pass_value. skip_literals. rewrite Md.
  (* Subject *)
  destruct (match_field_value (lit "**Subject**:") (lit "**Content**:")
              (subject e) (lit " " ++ (content e ++ w)) eq_refl SC)
    as (gs & ws & Es & Ws & Ms).
  skip_literals. pass_value. skip_literals. pass_value. skip_literals.
  rewrite Ms.
  (* Content *)
  skip_literals. pass_value. skip_literals. pass_value. skip_literals.
  pass_value. skip_literals. rewrite match_field_last.
  unfold trimmed. rewrite Ef, Ed, Es, !trim_app_ws by assumption.
  reflexivity.
Qed.

(** ** Splitting a rendered list *)

Lemma prepend_cons y h t : prepend y (h :: t) = (y ++ h) :: t.
Proof. induction y as [|a y IH]; simpl; [reflexivity|]. now rewrite IH. Qed.

Lemma delimiter_at_cons a r :
  delimiter_at (a :: r)
  = if is_digit a then
      match r with
      | d :: _ => if N.eqb d 46 then Some 2 else option_map S (delimiter_at r)
      | [] => None
      end
    else None.
Proof.
  unfold delimiter_at. cbn [digit_run]. destruct (is_digit a) eqn:A; [|reflexivity].
  destruct r as [|d r]; [reflexivity|]. cbn [digit_run skipn].
  destruct (N.eqb_spec d 46) as [->|N46].
  - reflexivity.
  - destruct (is_digit d) eqn:D.
    + cbn [skipn]. destruct (skipn (digit_run r) r) as [|x ?]; [reflexivity|].
      now destruct (N.eqb x 46).
    + cbn [skipn]. apply N.eqb_neq in N46. now rewrite N46.
Qed.

(** A delimiter lies within text that ends with a code unit other than a
    digit, if it starts there. *)
Lemma delimiter_at_app y c s :
  is_digit c = false ->
  delimiter_at ((y ++ [c]) ++ s) = delimiter_at (y ++ [c]).
Proof.
  intros C. induction y as [|a y IH].
  - cbn [app]. now rewrite !delimiter_at_cons, C.
  - rewrite <- !app_comm_cons, !delimiter_at_cons.
    destruct (is_digit a); [|reflexivity].
    destruct y as [|d y]; cbn [app] in *.
    + destruct (N.eqb c 46); [reflexivity|]. now rewrite IH.
    + destruct (N.eqb d 46); [reflexivity|]. now rewrite IH.
Qed.

Lemma delimiter_at_count s n :
  delimiter_at s = Some n -> digit_period_count s <> 0.
Proof.
  intros H. destruct (delimiter_at_inv _ _ H) as (ds & rest & -> & NE & D & _).
  now rewrite digit_period_count_delimiter.
Qed.

Lemma no_delimiter s : digit_period_count s = 0 -> delimiter_at s = None.
Proof.
  intros H. destruct (delimiter_at s) eqn:E; [|reflexivity].
  now apply delimiter_at_count in E.
Qed.

Lemma digit_period_count_tail a r :
  digit_period_count (a :: r) = 0 -> digit_period_count r = 0.
Proof. rewrite digit_period_count_cons. lia. Qed.

(** Text without a digit-period place that ends with a code unit other than
    a digit goes whole to the current segment. *)
Lemma split_scan_plain y c s :
  digit_period_count (y ++ [c]) = 0 -> is_digit c = false ->
  split_scan 0 ((y ++ [c]) ++ s) = prepend (y ++ [c]) (split_scan 0 s).
Proof.
  intros H C. induction y as [|a y IH].
  - cbn [app split_scan prepend fold_right].
    now rewrite delimiter_at_cons, C.
  - pose proof (no_delimiter _ H) as E.
    rewrite <- (delimiter_at_app _ _ s C) in E.
    rewrite <- !app_comm_cons in *. cbn [split_scan]. rewrite E.
    rewrite IH by (eapply digit_period_count_tail, H). reflexivity.
Qed.

(** Text without a digit-period place is a single segment. *)
Lemma split_scan_single x : digit_period_count x = 0 -> split_scan 0 x = [x].
Proof.
  induction x as [|a x IH]; intros H; [reflexivity|].
  cbn [split_scan]. rewrite (no_delimiter _ H).
  now rewrite IH by (eapply digit_period_count_tail, H).
Qed.

Lemma digit_period_count_snoc x c :
  N.eqb c 46 = false -> digit_period_count (x ++ [c]) = digit_period_count x.
Proof.
  intros C. induction x as [|a x IH].
  - simpl. now rewrite andb_false_r.
  - rewrite <- app_comm_cons, !digit_period_count_cons, IH. f_equal.
    destruct x; cbn [app]; [now rewrite C|reflexivity].
Qed.

(** ** The closing-phrase filter and a trailing line feed *)

Lemma startsWith_snoc p s c :
  forallb (fun a => negb (N.eqb a c)) p = true ->
  startsWith p (s ++ [c]) = startsWith p s.
Proof.
  revert s; induction p as [|a p IH]; intros s H; [reflexivity|].
  simpl in H. apply andb_true_iff in H as [A H]. apply negb_true_iff in A.
  destruct s as [|b s]; simpl.
  - now rewrite A.
  - now rewrite IH.
Qed.

Lemma includes_snoc p s c :
  forallb (fun a => negb (N.eqb a c)) p = true ->
  includes p (s ++ [c]) = includes p s.
Proof.
  intros H. induction s as [|b s IH].
  - pose proof (startsWith_snoc p [] c H) as E. cbn [app] in E.
    cbn [app includes]. rewrite E. now destruct (startsWith p []).
  - rewrite <- app_comm_cons. cbn [includes].
    rewrite app_comm_cons, startsWith_snoc by exact H. now rewrite IH.
Qed.

Lemma keeps_block_line_feed s : keeps_block (s ++ [LF]) = keeps_block s.
Proof.
  unfold keeps_block, closingPhrases. cbn [existsb].
  now rewrite !includes_snoc by reflexivity.
Qed.

(** ** Reading back a rendered list *)

Lemma split_rendered_list items :
  Forall readable_item items -> items <> [] ->
  split_scan 0 (render_list items) = [] :: segments_of items.
Proof.
  induction 1 as [|item rest R _ IH]; [congruence|]. intros _.
  destruct R as [[NE D] _ _ _ DP _].
  unfold render_list in *. destruct rest as [|item' rest].
  - cbn [map join segments_of]. unfold render_item. cbn [app].
    rewrite split_scan_delimiter by assumption.
    now rewrite split_scan_single.
  - change (join [LF] (map render_item (item :: item' :: rest)))
      with (render_item item ++ [LF] ++ join [LF] (map render_item (item' :: rest))).
    change (segments_of (item :: item' :: rest))
      with ((render_block (snd item) ++ [LF]) :: segments_of (item' :: rest)).
    unfold render_item at 1. cbn [app]. rewrite <- app_assoc. cbn [app].
    rewrite split_scan_delimiter by assumption. f_equal.
    change (render_block (snd item) ++ LF :: ?x)
      with (render_block (snd item) ++ [LF] ++ x).
    rewrite app_assoc, split_scan_plain, IH by
      (try discriminate; try reflexivity;
       rewrite digit_period_count_snoc by reflexivity; exact DP).
    now rewrite prepend_cons, app_nil_r.
Qed.

Lemma collected_segments items :
  Forall readable_item items ->
  collected parseEmailFromText (filter keeps_block (segments_of items))
  = map (fun item => trimmed (snd item)) items.
Proof.
  induction 1 as [|item rest R _ IH]; [reflexivity|].
  destruct R as [_ (FD & FS & FC) (DS & DC) SC _ KB].
  destruct rest as [|item' rest].
  - cbn [segments_of filter]. rewrite KB. cbn [collected flat_map map].
    rewrite <- (app_nil_r (render_block (snd item))).
    now rewrite parseEmailFromText_block.
  - change (segments_of (item :: item' :: rest))
      with ((render_block (snd item) ++ [LF]) :: segments_of (item' :: rest)).
    cbn [filter]. rewrite keeps_block_line_feed, KB.
    change (collected parseEmailFromText (?b :: ?bs))
      with ((match parseEmailFromText b with Some r => [r] | None => [] end)
            ++ collected parseEmailFromText bs).
    rewrite IH, parseEmailFromText_block by (assumption || reflexivity).
    reflexivity.
Qed.

(* ================================================================== *)
(** * The classifier: claims C4 and C5 *)
(* ================================================================== *)

(** C5. [detectMessageType] maps every text to one kind by ordered checks:
    a text in which the marker [[EMAIL]] occurs is [email], whatever else
    it holds (both calendar markers included); a text without it in which
    both [**Event**:] and [**Location**:] occur is [calendar]; every other
    text is [text]. *)
Theorem detectMessageType_ordered (t : jsstring) :
  (occurs (lit "[EMAIL]") t -> detectMessageType t = email) /\
  (occurs (lit "[EMAIL]") t -> occurs (lit "**Event**:") t ->
   occurs (lit "**Location**:") t -> detectMessageType t = email) /\
  (~ occurs (lit "[EMAIL]") t -> occurs (lit "**Event**:") t ->
   occurs (lit "**Location**:") t -> detectMessageType t = calendar) /\
  (~ occurs (lit "[EMAIL]") t ->
   ~ (occurs (lit "**Event**:") t /\ occurs (lit "**Location**:") t) ->
   detectMessageType t = text).
Proof.
  unfold detectMessageType. repeat split.
  - intros E. apply includes_spec in E. now rewrite E.
  - intros E _ _. apply includes_spec in E. now rewrite E.
  - intros E V L. apply includes_false in E. apply includes_spec in V, L.
    now rewrite E, V, L.
  - intros E N. apply includes_false in E. rewrite E.
    destruct (includes (lit "**Event**:") t) eqn:V; [|reflexivity].
    destruct (includes (lit "**Location**:") t) eqn:L; [|reflexivity].
    exfalso. apply N. split; now apply includes_spec.
Qed.

(** A text with all three markers is an email list. *)
Lemma detectMessageType_ordered_witness :
  detectMessageType
    (lit "[EMAIL] **Event**: standup - **Location**: room 4") = email.
Proof.
  apply (proj1 (proj2 (detectMessageType_ordered _))).
  - exists [], (lit " **Event**: standup - **Location**: room 4"). reflexivity.
  - exists (lit "[EMAIL] "), (lit " standup - **Location**: room 4"). reflexivity.
  - exists (lit "[EMAIL] **Event**: standup - "), (lit " room 4"). reflexivity.
Defined.

(** C4, as the specification states it, fails: the example text holds no
    [[EMAIL]] marker, so the classifier does not call it an email list. *)
Lemma example_not_classified_email :
  detectMessageType example_email_text <> email.
Proof. vm_compute. discriminate. Qed.

(** C4, amended. The example text is classified [text]; the numbered-list
    email extractor applied to it returns exactly the one record of the
    example. *)
Theorem example_email_extracted :
  detectMessageType example_email_text = text /\
  parseMultipleEmails example_email_text = [example_email].
Proof. split; vm_compute; reflexivity. Qed.

(* ================================================================== *)
(** * The extractors: claims C3, C6, C7, C8 and C10 *)
(* ================================================================== *)

(** C3, as the specification states it, fails: a numbered item whose From
    and Content values are empty is emitted, with empty fields. *)
Lemma empty_fields_emitted :
  parseMultipleEmails empty_fields_text
  = [mkEmail [] (lit "Mon") (lit "Hi") []].
Proof. vm_compute. reflexivity. Qed.

(** ** What the patterns capture *)

Lemma lazy_group_shortest K s g :
  lazy_group K s = Some g ->
  exists rest, s = g ++ rest /\ K rest = true /\
    forall g1 g2, g = g1 ++ g2 -> g2 <> [] -> K (g2 ++ rest) = false.
Proof.
  revert g; induction s as [|c r IH]; intros g; cbn [lazy_group].
  - destruct (K []) eqn:E; [|discriminate].
    intros H; injection H as <-. exists []. repeat split; [exact E|].
    intros g1 g2 H N. symmetry in H. apply app_eq_nil in H as [_ ->].
    now destruct N.
  - destruct (K (c :: r)) eqn:E.
    + intros H; injection H as <-. exists (c :: r). repeat split; [exact E|].
      intros g1 g2 H N. symmetry in H. apply app_eq_nil in H as [_ ->].
      now destruct N.
    + destruct (lazy_group K r) as [g'|]; [|discriminate].
      intros H; injection H as <-.
      destruct (IH g' eq_refl) as (rest & -> & T & M).
      exists rest. repeat split; [exact T|].
      intros g1 g2 H N. destruct g1 as [|x g1].
      * cbn [app] in H. subst g2. exact E.
      * injection H as _ H. now apply (M g1 g2).
Qed.

Lemma lazy_group_none K s :
  lazy_group K s = None -> forall g rest, s = g ++ rest -> K rest = false.
Proof.
  induction s as [|c r IH]; cbn [lazy_group].
  - destruct (K []) eqn:E; [discriminate|].
    intros _ g rest H. symmetry in H. apply app_eq_nil in H as [_ ->]. exact E.
  - destruct (K (c :: r)) eqn:E; [discriminate|].
    destruct (lazy_group K r) as [g'|]; [discriminate|].
    intros _ g rest H. destruct g as [|x g].
    + cbn [app] in H. now subst rest.
    + injection H as _ H. now apply (IH eq_refl g rest).
Qed.

Lemma skipn_label (label s : jsstring) : skipn (length label) (label ++ s) = s.
Proof. induction label as [|a l IH]; [reflexivity|exact IH]. Qed.

Lemma field_at_matches label K s g :
  field_at label K s = Some g -> matches_at label K s g.
Proof.
  unfold field_at. destruct (startsWith label s) eqn:P; [|discriminate].
  apply startsWith_inv in P. intros H.
  apply lazy_group_shortest in H as (rest & E & T & M).
  exists rest. rewrite <- E. now repeat split.
Qed.

Lemma field_at_none label K s g :
  field_at label K s = None -> ~ matches_at label K s g.
Proof.
  intros H (rest & -> & T & _). unfold field_at in H.
  rewrite startsWith_app, skipn_label in H.
  rewrite (lazy_group_none K _ H g rest eq_refl) in T. discriminate.
Qed.

Lemma match_field_captures label K s g :
  match_field label K s = Some g -> captures label K s g.
Proof.
  induction s as [|c r IH]; cbn [match_field].
  - destruct (field_at label K []) as [g0|] eqn:E; [|discriminate].
    intros H; injection H as <-. exists [], []. repeat split.
    + now apply field_at_matches.
    + intros b1 b2 g' H N. symmetry in H. apply app_eq_nil in H as [_ ->].
      now destruct N.
  - destruct (field_at label K (c :: r)) as [g0|] eqn:E.
    + intros H; injection H as <-. exists [], (c :: r). repeat split.
      * now apply field_at_matches.
      * intros b1 b2 g' H N. symmetry in H. apply app_eq_nil in H as [_ ->].
        now destruct N.
    + intros H. destruct (IH H) as (before & tail & -> & M & L).
      exists (c :: before), tail. repeat split; [exact M|].
      intros b1 b2 g' B N. destruct b1 as [|x b1].
      * cbn [app] in B. subst b2. cbn [app]. now apply field_at_none.
      * injection B as _ B. now apply (L b1 b2).
Qed.

Lemma match_field_none label K s :
  match_field label K s = None -> finds_no_match label K s.
Proof.
  induction s as [|c r IH]; cbn [match_field].
  - destruct (field_at label K []) eqn:E; [discriminate|].
    intros _ before tail g H. symmetry in H. apply app_eq_nil in H as [_ ->].
    now apply field_at_none.
  - destruct (field_at label K (c :: r)) eqn:E; [discriminate|].
    intros H before tail g B. destruct before as [|x before].
    + cbn [app] in B. subst tail. now apply field_at_none.
    + injection B as _ B. now apply (IH H before tail).
Qed.

Lemma collected_read_off {R : Type} (f : jsstring -> option R)
    (reads : jsstring -> R -> Prop) (unmatched : jsstring -> Prop) :
  (forall b r, f b = Some r -> reads b r) ->
  (forall b, f b = None -> unmatched b) ->
  forall blocks, read_off reads unmatched blocks (collected f blocks).
Proof.
  intros Hr Hn. unfold collected.
  induction blocks as [|b bs IH]; [constructor|].
  cbn [flat_map]. destruct (f b) as [r|] eqn:E.
  - apply read_off_record; [now apply Hr|exact IH].
  - apply read_off_none; [now apply Hn|exact IH].
Qed.

Lemma parseEmailFromText_read b r :
  parseEmailFromText b = Some r -> email_read b r.
Proof.
  unfold parseEmailFromText. intros H.
  repeat match type of H with
         | match ?m with _ => _ end = _ => destruct m eqn:?; [|discriminate]
         end.
  injection H as <-. do 4 eexists.
  repeat split; try (apply match_field_captures; eassumption).
Qed.

Lemma parseEmailFromText_unmatched b :
  parseEmailFromText b = None -> email_unmatched b.
Proof.
  unfold parseEmailFromText, email_unmatched. intros H.
  destruct (match_field (lit "**From**: ") _ b) eqn:F;
    [|left; now apply match_field_none].
  destruct (match_field (lit "**Date**: ") _ b) eqn:D;
    [|right; left; now apply match_field_none].
  destruct (match_field (lit "**Subject**: ") _ b) eqn:S;
    [|right; right; left; now apply match_field_none].
  destruct (match_field (lit "**Content**: ") _ b) eqn:C;
    [discriminate|right; right; right; now apply match_field_none].
Qed.

Lemma parseCalendarBlock_read b r :
  parseCalendarBlock b = Some r -> event_read b r.
Proof.
  unfold parseCalendarBlock. intros H.
  repeat match type of H with
         | match ?m with _ => _ end = _ => destruct m eqn:?; [|discriminate]
         end.
  injection H as <-. do 3 eexists.
  repeat split; try (apply match_field_captures; eassumption).
Qed.

Lemma parseCalendarBlock_unmatched b :
  parseCalendarBlock b = None -> event_unmatched b.
Proof.
  unfold parseCalendarBlock, event_unmatched. intros H.
  destruct (match_field (lit "**Event**: ") _ b) eqn:E;
    [|left; now apply match_field_none].
  destruct (match_field (lit "**Location**: ") _ b) eqn:L;
    [|right; left; now apply match_field_none].
  destruct (match_field (lit "**Time**: ") _ b) eqn:T;
    [discriminate|right; right; now apply match_field_none].
Qed.

(** ** The captures are determined *)

Lemma matches_at_unique label K s g g' :
  matches_at label K s g -> matches_at label K s g' -> g = g'.
Proof.
  intros (rest & -> & T & M) (rest' & E & T' & M').
  apply app_inv_head in E. apply app_eq_app in E as (d & [[-> ->]|[-> ->]]).
  - destruct d as [|x d]; [now rewrite app_nil_r|].
    rewrite (M g' (x :: d) eq_refl) in T'; discriminate.
  - destruct d as [|x d]; [now rewrite app_nil_r|].
    rewrite (M' g (x :: d) eq_refl) in T; discriminate.
Qed.

Lemma captures_unique label K s g g' :
  captures label K s g -> captures label K s g' -> g = g'.
Proof.
  intros (b & t & -> & M & L) (b' & t' & E & M' & L').
  apply app_eq_app in E as (d & [[-> ->]|[-> ->]]).
  - destruct d as [|x d].
    + rewrite app_nil_l in M'. now apply (matches_at_unique label K t).
    + exfalso. apply (L b' (x :: d) g' eq_refl); [discriminate|exact M'].
  - destruct d as [|x d].
    + rewrite app_nil_l in M. now apply (matches_at_unique label K t').
    + exfalso. apply (L' b (x :: d) g eq_refl); [discriminate|exact M].
Qed.

Lemma captures_matched label K s g :
  captures label K s g -> ~ finds_no_match label K s.
Proof. intros (b & t & E & M & _) N. exact (N b t g E M). Qed.

Lemma email_read_unique b r r' : email_read b r -> email_read b r' -> r = r'.
Proof.
  intros (f & d & s & c & F & D & S & C & ->)
         (f' & d' & s' & c' & F' & D' & S' & C' & ->).
  now rewrite (captures_unique _ _ _ _ _ F F'), (captures_unique _ _ _ _ _ D D'),
    (captures_unique _ _ _ _ _ S S'), (captures_unique _ _ _ _ _ C C').
Qed.

Lemma email_read_matched b r : email_read b r -> ~ email_unmatched b.
Proof.
  intros (f & d & s & c & F & D & S & C & _) [N|[N|[N|N]]].
  - exact (captures_matched _ _ _ _ F N).
  - exact (captures_matched _ _ _ _ D N).
  - exact (captures_matched _ _ _ _ S N).
  - exact (captures_matched _ _ _ _ C N).
Qed.

Lemma event_read_unique b r r' : event_read b r -> event_read b r' -> r = r'.
Proof.
  intros (e & l & t & E & L & T & ->) (e' & l' & t' & E' & L' & T' & ->).
  now rewrite (captures_unique _ _ _ _ _ E E'), (captures_unique _ _ _ _ _ L L'),
    (captures_unique _ _ _ _ _ T T').
Qed.

Lemma event_read_matched b r : event_read b r -> ~ event_unmatched b.
Proof.
  intros (e & l & t & E & L & T & _) [N|[N|N]].
  - exact (captures_matched _ _ _ _ E N).
  - exact (captures_matched _ _ _ _ L N).
  - exact (captures_matched _ _ _ _ T N).
Qed.

Lemma read_off_unique {R : Type} (reads : jsstring -> R -> Prop)
    (unmatched : jsstring -> Prop) :
  (forall b r r', reads b r -> reads b r' -> r = r') ->
  (forall b r, reads b r -> ~ unmatched b) ->
  forall blocks rs rs',
    read_off reads unmatched blocks rs -> read_off reads unmatched blocks rs' ->
    rs = rs'.
Proof.
  intros U X blocks rs rs' H. revert rs'.
  induction H as [|b bs r rs Hr H IH|b bs rs Hn H IH]; intros rs' H';
    inversion H'; subst; try reflexivity.
  - f_equal; [now apply (U b)|now apply IH].
  - exfalso. now apply (X b r).
  - exfalso. now apply (X b r).
  - now apply IH.
Qed.

(** C3, amended. Every field of every record the email extractor and the
    calendar extractor emit is present and has no white space at either end
    (it may be empty). The records are read off the segments in order: a
    segment gives the record whose fields are the trimmed texts the
    patterns of its labels capture in it (for each label, the lazy group of
    the leftmost match), and a segment gives no record only when one of its
    patterns finds no match in it, never because a captured text is empty
    or blank. This fixes the output: no other list of records is read off
    the segments. *)
Theorem emitted_fields_trimmed (t : jsstring) :
  Forall email_fields_trimmed (parseMultipleEmails t) /\
  Forall event_fields_trimmed (parseCalendarEventsFromText t) /\
  read_off email_read email_unmatched
    (filter keeps_block (tl (split_numbered t))) (parseMultipleEmails t) /\
  read_off event_read event_unmatched
    (tl (split_numbered t)) (parseCalendarEventsFromText t) /\
  (forall emails,
      read_off email_read email_unmatched
        (filter keeps_block (tl (split_numbered t))) emails ->
      emails = parseMultipleEmails t) /\
  (forall events,
      read_off event_read event_unmatched (tl (split_numbered t)) events ->
      events = parseCalendarEventsFromText t).
Proof.
  assert (read_off email_read email_unmatched
            (filter keeps_block (tl (split_numbered t)))
            (parseMultipleEmails t)) as Emails.
  { rewrite parseMultipleEmails_collected. apply collected_read_off.
    - apply parseEmailFromText_read.
    - apply parseEmailFromText_unmatched. }
  assert (read_off event_read event_unmatched
            (tl (split_numbered t)) (parseCalendarEventsFromText t)) as Events.
  { rewrite parseCalendarEvents_collected. apply collected_read_off.
    - apply parseCalendarBlock_read.
    - apply parseCalendarBlock_unmatched. }
  split; [|split; [|split; [exact Emails|split; [exact Events|split]]]].
  - apply Forall_forall; intros r H.
    rewrite parseMultipleEmails_collected in H.
    apply in_collected in H as (b & _ & H). unfold parseEmailFromText in H.
    repeat match type of H with
           | match ?m with _ => _ end = _ => destruct m; [|discriminate]
           end.
    injection H as <-. repeat split; apply trim_no_outer_ws.
  - apply Forall_forall; intros r H.
    rewrite parseCalendarEvents_collected in H.
    apply in_collected in H as (b & _ & H). unfold parseCalendarBlock in H.
    repeat match type of H with
           | match ?m with _ => _ end = _ => destruct m; [|discriminate]
           end.
    injection H as <-. repeat split; apply trim_no_outer_ws.
  - intros emails H.
    apply (read_off_unique email_read email_unmatched email_read_unique
             email_read_matched _ _ _ H Emails).
  - intros events H.
    apply (read_off_unique event_read event_unmatched event_read_unique
             event_read_matched _ _ _ H Events).
Qed.

(** C7. A numbered-list segment in which a closing phrase occurs adds
    nothing to the output of the email extractor, whatever labeled fields
    it holds: the output is that of the segments before it followed by that
    of the segments after it. *)
Theorem closing_segment_excluded (t : jsstring) before block after :
  tl (split_numbered t) = before ++ block :: after ->
  (exists phrase, In phrase closingPhrases /\ occurs phrase block) ->
  parseMultipleEmails t = emails_of before ++ emails_of after.
Proof.
  intros E (phrase & P & O). rewrite parseMultipleEmails_collected, E.
  unfold emails_of. rewrite filter_app, collected_app. f_equal.
  cbn [filter].
  assert (keeps_block block = false) as ->; [|reflexivity].
  unfold keeps_block. apply negb_false_iff, existsb_exists.
  exists phrase. split; [exact P|]. now apply includes_spec.
Qed.

(** A segment with four labeled fields and a closing phrase gives no record. *)
Lemma closing_segment_excluded_witness :
  parseMultipleEmails closing_text = [].
Proof.
  apply (closing_segment_excluded closing_text []
           (lit " **From**: a - **Date**: b - **Subject**: c - **Content**: Let me know if you need more")
           []).
  - vm_compute. reflexivity.
  - exists (lit "Let me know if you need"). split.
    + simpl. tauto.
    + exists (lit " **From**: a - **Date**: b - **Subject**: c - **Content**: "),
        (lit " more"). vm_compute. reflexivity.
Defined.

(** C8. The calendar extractor returns a sequence for every text. On a
    text in which [**Event**:] does not occur or [**Location**:] does not
    occur the sequence is empty; a segment that does not match all three
    patterns is passed over, and the segments before and after it are read
    as they would be without it. *)
Theorem calendar_extractor_total (t : jsstring) :
  (~ occurs (lit "**Event**:") t \/ ~ occurs (lit "**Location**:") t ->
   parseCalendarEventsFromText t = []) /\
  (forall before block after,
     tl (split_numbered t) = before ++ block :: after ->
     parseCalendarBlock block = None ->
     parseCalendarEventsFromText t
     = collected parseCalendarBlock before ++ collected parseCalendarBlock after).
Proof.
  split.
  - intros H. rewrite parseCalendarEvents_collected.
    destruct (collected parseCalendarBlock (tl (split_numbered t)))
      as [|ev evs] eqn:C; [reflexivity|]. exfalso.
    assert (In ev (collected parseCalendarBlock (tl (split_numbered t)))) as I
      by (rewrite C; now left).
    apply in_collected in I as (b & B & P).
    apply parseCalendarBlock_markers in P as [V L].
    apply split_numbered_occurs in B.
    destruct H as [H|H]; apply H; eapply occurs_trans; eassumption.
  - intros before block after E N.
    rewrite parseCalendarEvents_collected, E, collected_app. f_equal.
    unfold collected at 1. cbn [flat_map]. now rewrite N.
Qed.

(** A text with events but no Location marker gives no event. *)
Lemma calendar_extractor_total_witness :
  parseCalendarEventsFromText
    (lit "1. **Event**: standup - **Time**: 9am 2. **Event**: lunch") = [].
Proof.
  apply (proj1 (calendar_extractor_total _)). right.
  apply includes_false. vm_compute. reflexivity.
Defined.

(** C10. Both extractors cut the text at every place where a digit is
    followed by a period, wherever it is: the split has one segment more
    than there are such places, so neither extractor returns more records
    than there are such places. *)
Theorem records_bounded_by_delimiters (t : jsstring) :
  length (split_numbered t) = S (digit_period_count t) /\
  length (parseMultipleEmails t) <= digit_period_count t /\
  length (parseCalendarEventsFromText t) <= digit_period_count t.
Proof.
  pose proof (split_numbered_length t) as L.
  assert (length (tl (split_numbered t)) = digit_period_count t) as T.
  { destruct (split_numbered t); simpl in *; lia. }
  split; [exact L|split].
  - rewrite parseMultipleEmails_collected.
    etransitivity; [apply collected_length|].
    etransitivity; [apply filter_length_le|]. lia.
  - rewrite parseCalendarEvents_collected.
    etransitivity; [apply collected_length|]. lia.
Qed.

(** C6, as the specification states it, fails: a block with the four
    labeled fields in order and no closing phrase, whose content holds a
    digit followed by a period, is not read back. *)
Lemma versioned_email_not_read_back :
  parseMultipleEmails (render_list [(lit "1", versioned_email)])
  <> [trimmed versioned_email].
Proof. vm_compute. discriminate. Qed.

(** C6, amended. For a numbered list of [N] items, one per line, each with
    a run of digits for number, in which no field holds the marker of a
    later field and no block holds a digit followed by a period or a closing
    phrase, the email extractor returns the [N] records in order, each
    field trimmed. The empty text gives the empty sequence. *)
Theorem numbered_list_read_back (items : list (jsstring * EmailData)) :
  Forall readable_item items ->
  parseMultipleEmails (render_list items)
  = map (fun item => trimmed (snd item)) items /\
  length (parseMultipleEmails (render_list items)) = length items /\
  parseMultipleEmails [] = [].
Proof.
  intros R.
  assert (parseMultipleEmails (render_list items)
          = map (fun item => trimmed (snd item)) items) as E.
  { rewrite parseMultipleEmails_collected. destruct items as [|item rest].
    - reflexivity.
    - unfold split_numbered. rewrite split_rendered_list by (auto; discriminate).
      cbn [tl]. now apply collected_segments. }
  split; [exact E|split; [|reflexivity]].
  now rewrite E, length_map.
Qed.

(** Two items, the second with white space around its values. *)
Lemma numbered_list_read_back_witness :
  parseMultipleEmails
    (render_list [(lit "1", example_email);
                  (lit "12", mkEmail (lit " b@y.org ") (lit "Tue, 3 May")
                                    (lit "Re: Hi  ") (lit "  see you - bye "))])
  = [example_email;
     mkEmail (lit "b@y.org") (lit "Tue, 3 May") (lit "Re: Hi") (lit "see you - bye")].
Proof.
  apply (numbered_list_read_back
           [(lit "1", example_email);
            (lit "12", mkEmail (lit " b@y.org ") (lit "Tue, 3 May")
                              (lit "Re: Hi  ") (lit "  see you - bye "))]).
  repeat constructor; try discriminate; reflexivity.
Defined.

(* ================================================================== *)
(** * The JSON parser and its fuel *)
(* ================================================================== *)

Module JsonFacts.
Import Json.

Lemma skip_ws_length s : length (skip_ws s) <= length s.
Proof.
  induction s as [|c s IH]; simpl; [lia|].
  destruct (is_json_ws c); simpl; lia.
Qed.

Lemma with_head_inv {A B : Type} (a : A) (r : option (list A * B)) l b :
  with_head a r = Some (l, b) -> exists l', r = Some (l', b) /\ l = a :: l'.
Proof.
  destruct r as [[l' b']|]; simpl; [|discriminate].
  intros H; injection H as <- <-. now exists l'.
Qed.

Lemma parse_string_length s x r :
  parse_string s = Some (x, r) -> length r < length s.
Proof.
  remember (length s) as n eqn:L. revert s x r L.
  induction n as [n IH] using lt_wf_ind. intros s x r L.
  destruct s as [|c s]; [discriminate|]. cbn [parse_string].
  destruct (c =? 34)%N.
  { intros H; injection H as <- <-. subst; simpl; lia. }
  destruct (c =? 92)%N.
  - destruct s as [|e s]; [discriminate|].
    destruct (e =? 117)%N.
    + destruct s as [|h1 [|h2 [|h3 [|h4 s]]]]; try discriminate.
      destruct (hex4 h1 h2 h3 h4); [|discriminate].
      intros H. apply with_head_inv in H as (l' & H & _).
      apply (IH (length s)) in H; subst; simpl in *; lia.
    + destruct (escape_value e); [|discriminate].
      intros H. apply with_head_inv in H as (l' & H & _).
      apply (IH (length s)) in H; subst; simpl in *; lia.
  - destruct (c <? 32)%N; [discriminate|].
    intros H. apply with_head_inv in H as (l' & H & _).
    apply (IH (length s)) in H; subst; simpl in *; lia.
Qed.

Lemma read_digits_length s : length (snd (read_digits s)) <= length s.
Proof.
  induction s as [|c s IH]; simpl; [lia|].
  destruct (is_digit c); simpl; [|lia].
  destruct (read_digits s). simpl in *. lia.
Qed.

Lemma parse_number_length s x r :
  parse_number s = Some (x, r) -> length r < length s.
Proof.
  unfold parse_number.
  set (sign := match s with
               | c :: r => if (c =? 45)%N then (true, r) else (false, s)
               | [] => (false, s)
               end).
  assert (length (snd sign) <= length s) as L1.
  { subst sign. destruct s as [|c s]; simpl; [lia|].
    destruct (c =? 45)%N; simpl; lia. }
  destruct sign as [neg s1]. cbn [snd] in L1.
  match goal with
  | |- match ?ip with _ => _ end = _ -> _ => destruct ip as [[ids s2]|] eqn:IP
  end; [|discriminate].
  assert (length s2 < length s1) as L2.
  { destruct s1 as [|c s1']; [discriminate|].
    destruct (c =? 48)%N.
    - injection IP as <- <-. simpl. lia.
    - destruct (is_digit c) eqn:D; [|discriminate].
      injection IP as IP. cbn [read_digits] in IP. rewrite D in IP.
      pose proof (read_digits_length s1') as R'.
      destruct (read_digits s1'). injection IP as _ <-. simpl in *. lia. }
  match goal with
  | |- match ?fp with _ => _ end = _ -> _ => destruct fp as [[fds s3]|] eqn:FP
  end; [|discriminate].
  assert (length s3 <= length s2) as L3.
  { destruct s2 as [|c s2']; [injection FP as <- <-; lia|].
    destruct (c =? 46)%N.
    - pose proof (read_digits_length s2') as R.
      destruct (read_digits s2') as [[|d ds] r']; [discriminate|].
      injection FP as <- <-. simpl in *. lia.
    - injection FP as <- <-. lia. }
  match goal with
  | |- match ?ep with _ => _ end = _ -> _ => destruct ep as [[ex s4]|] eqn:EP
  end; [|discriminate].
  assert (length s4 <= length s3) as L4.
  { destruct s3 as [|c s3']; [injection EP as <- <-; lia|].
    destruct ((c =? 101) || (c =? 69))%N.
    - set (sg := match s3' with
                 | sg :: r' => if (sg =? 45)%N then (true, r')
                               else if (sg =? 43)%N then (false, r')
                               else (false, s3')
                 | [] => (false, s3')
                 end) in EP.
      assert (length (snd sg) <= length s3') as L.
      { subst sg. destruct s3' as [|g s3'']; simpl; [lia|].
        destruct (g =? 45)%N; [simpl; lia|]. destruct (g =? 43)%N; simpl; lia. }
      destruct sg as [eneg r1]. cbn [snd] in L.
      pose proof (read_digits_length r1) as R.
      destruct (read_digits r1) as [[|d ds] r2]; [discriminate|].
      injection EP as <- <-. simpl in *. lia.
    - injection EP as <- <-. lia. }
  intros H; injection H as _ <-. lia.
Qed.

Lemma parse_literal_length w v s x r :
  w <> [] -> parse_literal w v s = Some (x, r) -> length r < length s.
Proof.
  unfold parse_literal. intros NE. destruct (startsWith w s) eqn:P; [|discriminate].
  intros H; injection H as _ <-. apply startsWith_inv in P.
  rewrite P at 2. rewrite length_app. destruct w; [congruence|]. simpl. lia.
Qed.

Ltac case_step H :=
  match type of H with
  | (if ?b then _ else _) = _ => destruct b eqn:?
  | match ?x with _ => _ end = _ => destruct x eqn:?
  | Some _ = Some _ => injection H as ? ?; subst
  | None = Some _ => discriminate H
  | with_head _ _ = Some _ => apply with_head_inv in H as (? & H & ?)
  end.

Ltac use_lengths :=
  repeat match goal with
         | H : parse_string _ = Some _ |- _ => apply parse_string_length in H
         | H : parse_number _ = Some _ |- _ => apply parse_number_length in H
         | H : parse_literal _ _ _ = Some _ |- _ =>
             apply parse_literal_length in H; [|discriminate]
         | H : skip_ws ?s = _ |- _ =>
             let L := fresh "L" in
             pose proof (skip_ws_length s) as L; rewrite H in L; clear H
         end.

(** Every parser passes at least one code unit. *)
Lemma parse_value_length fuel :
  (forall s v r, parse_value fuel s = Some (v, r) -> length r < length s) /\
  (forall s vs r, parse_elements fuel s = Some (vs, r) -> length r < length s) /\
  (forall s ms r, parse_members fuel s = Some (ms, r) -> length r < length s).
Proof.
  induction fuel as [|fuel (IHv & IHe & IHm)]; [repeat split; discriminate|].
  repeat split.
  - intros s v r H. cbn [parse_value] in H.
    repeat case_step H;
      repeat match goal with
             | H : parse_members _ _ = Some _ |- _ => apply IHm in H
             | H : parse_elements _ _ = Some _ |- _ => apply IHe in H
             end; use_lengths; simpl in *; lia.
  - intros s vs r H. cbn [parse_elements] in H.
    repeat case_step H;
      repeat match goal with
             | H : parse_value _ _ = Some _ |- _ => apply IHv in H
             | H : parse_elements _ _ = Some _ |- _ => apply IHe in H
             end; use_lengths; simpl in *; lia.
  - intros s ms r H. cbn [parse_members] in H.
    repeat case_step H;
      repeat match goal with
             | H : parse_value _ _ = Some _ |- _ => apply IHv in H
             | H : parse_members _ _ = Some _ |- _ => apply IHm in H
             end; use_lengths; simpl in *; lia.
Qed.

(** With fuel above twice the length of the input, more fuel changes
    nothing. *)
Lemma parse_value_fuel f1 :
  forall f2,
  (forall s, 2 * length s + 1 <= f1 -> 2 * length s + 1 <= f2 ->
             parse_value f1 s = parse_value f2 s) /\
  (forall s, 2 * length s + 2 <= f1 -> 2 * length s + 2 <= f2 ->
             parse_elements f1 s = parse_elements f2 s) /\
  (forall s, 2 * length s + 2 <= f1 -> 2 * length s + 2 <= f2 ->
             parse_members f1 s = parse_members f2 s).
Proof.
  induction f1 as [|f1 IH]; intros f2; [repeat split; intros; lia|].
  destruct f2 as [|f2]; [repeat split; intros; lia|].
  destruct (IH f2) as (IHv & IHe & IHm). clear IH.
  repeat split; intros s B1 B2.
  - cbn [parse_value]. destruct (skip_ws s) as [|c r] eqn:E; [reflexivity|].
    use_lengths. simpl in *.
    rewrite (IHm r), (IHe r) by lia. reflexivity.
  - cbn [parse_elements]. rewrite (IHv s) by lia.
    destruct (parse_value f2 s) as [[v r]|] eqn:V; [|reflexivity].
    apply (proj1 (parse_value_length f2)) in V.
    destruct (skip_ws r) as [|c r'] eqn:E; [reflexivity|].
    use_lengths. simpl in *. rewrite (IHe r') by lia. reflexivity.
  - cbn [parse_members].
    destruct (skip_ws s) as [|c r] eqn:E; [reflexivity|].
    destruct (c =? 34)%N; [|reflexivity].
    destruct (parse_string r) as [[key r1]|] eqn:K; [|reflexivity].
    destruct (skip_ws r1) as [|c1 r2] eqn:E1; [reflexivity|].
    destruct (c1 =? 58)%N; [|reflexivity].
    use_lengths. simpl in *. rewrite (IHv r2) by lia.
    destruct (parse_value f2 r2) as [[v r3]|] eqn:V; [|reflexivity].
    apply (proj1 (parse_value_length f2)) in V.
    destruct (skip_ws r3) as [|c3 r4] eqn:E3; [reflexivity|].
    use_lengths. simpl in *. rewrite (IHm r4) by lia. reflexivity.
Qed.

(** [parse] never runs out of fuel: its result is that of any larger
    amount of fuel. *)
Theorem parse_fuel_enough s fuel :
  2 * length s + 2 <= fuel ->
  parse_value fuel s = parse_value (2 * length s + 2) s.
Proof.
  intros H. apply (proj1 (parse_value_fuel fuel (2 * length s + 2))); lia.
Qed.
End JsonFacts.

(* ================================================================== *)
(** * JSON string literals *)
(* ================================================================== *)

Lemma hex_value_digit n : (n < 16)%N -> Json.hex_value (hex_digit n) = Some n.
Proof.
  intros H. unfold Json.hex_value, hex_digit.
  destruct (N.ltb_spec n 10).
  - assert ((48 <=? 48 + n)%N && (48 + n <=? 57)%N = true) as ->.
    { apply andb_true_iff; split; apply N.leb_le; lia. }
    f_equal. lia.
  - assert ((48 <=? 87 + n)%N && (87 + n <=? 57)%N = false) as ->.
    { apply andb_false_iff; right. apply N.leb_gt. lia. }
    assert ((97 <=? 87 + n)%N && (87 + n <=? 102)%N = true) as ->.
    { apply andb_true_iff; split; apply N.leb_le; lia. }
    f_equal. lia.
Qed.

(** An escaped code unit is read back as the code unit. *)
Lemma parse_string_unit c r :
  Json.parse_string (quote_unit c ++ r)
  = Json.with_head c (Json.parse_string r).
Proof.
  unfold quote_unit.
  repeat match goal with
         | |- context [if (c =? ?k)%N then _ else _] =>
             destruct (N.eqb_spec c k); [subst c; reflexivity|]
         end.
  destruct (N.ltb_spec c 32).
  - cbn [app Json.parse_string N.eqb Pos.eqb]. unfold Json.hex4.
    change (Json.hex_value 48) with (Some 0%N).
    rewrite !hex_value_digit.
    + replace ((((0 * 16 + 0) * 16 + c / 16) * 16 + c mod 16)%N) with c;
        [reflexivity|].
      rewrite (N.div_mod c 16) at 1 by discriminate. lia.
    + apply N.mod_lt. discriminate.
    + apply N.Div0.div_lt_upper_bound. lia.
  - cbn [app Json.parse_string].
    repeat match goal with
           | E : c <> ?k |- context [(c =? ?k)%N] =>
               rewrite (proj2 (N.eqb_neq c k) E)
           end.
    assert ((c <? 32)%N = false) as -> by (apply N.ltb_ge; lia).
    reflexivity.
Qed.

(** The body of a quoted string is read back as the string. *)
Lemma parse_string_quote s r :
  Json.parse_string (flat_map quote_unit s ++ 34%N :: r) = Some (s, r).
Proof.
  induction s as [|c s IH]; [reflexivity|].
  cbn [flat_map]. rewrite <- app_assoc, parse_string_unit, IH. reflexivity.
Qed.

Lemma frame_payload fragment :
  slice 6 (frame fragment)
  = litq "{'type':'content','content':'" ++ flat_map quote_unit fragment
    ++ litq "'}".
Proof. unfold frame, quote. rewrite <- !app_assoc. reflexivity. Qed.

Lemma parse_value_content fuel fragment :
  Json.parse_value (4 + fuel)
    (litq "{'type':'content','content':'" ++ flat_map quote_unit fragment
     ++ litq "'}")
  = Some (content_object fragment, []).
Proof.
  match goal with
  | |- context [litq ?s ++ ?x] =>
      let v := eval vm_compute in (litq s) in change (litq s ++ x) with (v ++ x)
  end.
  change (litq "'}") with [34%N; 125%N].
  cbn [app Nat.add].
  cbn [Json.parse_value Json.parse_members Json.skip_ws Json.is_json_ws
       N.eqb Pos.eqb orb Json.parse_string N.ltb N.compare Pos.compare 
       Pos.compare_cont Json.with_head ].
  rewrite parse_string_quote. reflexivity.
Qed.

(** [JSON.parse] of the payload of a frame: the object with the fragment. *)
Lemma parse_frame_payload fragment :
  Json.parse (slice 6 (frame fragment)) = Some (content_object fragment).
Proof.
  unfold Json.parse. rewrite frame_payload.
  match goal with
  | |- context [Json.parse_value ?n _] =>
      replace n with (4 + (n - 4)) by (rewrite !length_app; simpl; lia)
  end.
  now rewrite parse_value_content.
Qed.

(* ================================================================== *)
(** * The decoder on whole lines *)
(* ================================================================== *)

Lemma process_line_frame onStream st fragment :
  process_line onStream st (frame fragment)
  = append_fragment onStream st fragment.
Proof.
  unfold process_line. rewrite parse_frame_payload.
  assert (startsWith (lit "data: ") (frame fragment) = true) as ->
    by reflexivity.
  assert (Json.get (content_object fragment) (lit "type")
          = Some (Some (Json.JString (lit "content")))) as -> by reflexivity.
  assert (Json.get (content_object fragment) (lit "content")
          = Some (Some (Json.JString fragment))) as -> by reflexivity.
  reflexivity.
Qed.

Lemma process_line_empty onStream st : process_line onStream st [] = st.
Proof. reflexivity. Qed.

(** A line without line feed, followed by one, is the first line. *)
Lemma split_line x r :
  forallb (fun c => negb (N.eqb c LF)) x = true ->
  split LF (x ++ LF :: r) = x :: split LF r.
Proof.
  induction x as [|c x IH]; intros H; [reflexivity|].
  simpl in H. apply andb_true_iff in H as [C H]. apply negb_true_iff in C.
  rewrite <- app_comm_cons. cbn [split]. rewrite C, IH by exact H.
  reflexivity.
Qed.

Lemma quote_unit_no_line_feed c :
  forallb (fun c => negb (N.eqb c LF)) (quote_unit c) = true.
Proof.
  unfold quote_unit.
  repeat match goal with
         | |- context [if (c =? ?k)%N then _ else _] =>
             destruct (N.eqb_spec c k); [reflexivity|]
         end.
  destruct (N.ltb_spec c 32).
  - cbn [forallb]. unfold hex_digit.
    assert (forall n, negb (N.eqb (if (n <? 10)%N then (48 + n)%N else (87 + n)%N) LF) = true) as D.
    { intros k. apply negb_true_iff, N.eqb_neq. unfold LF.
      destruct (k <? 10)%N; lia. }
    now rewrite !D.
  - cbn [forallb]. rewrite andb_true_r. apply negb_true_iff, N.eqb_neq.
    assumption.
Qed.

Lemma frame_no_line_feed fragment :
  forallb (fun c => negb (N.eqb c LF)) (frame fragment) = true.
Proof.
  unfold frame, quote. rewrite !forallb_app. 
  repeat (apply andb_true_iff; split); try reflexivity.
  induction fragment as [|c s IH]; [reflexivity|].
  cbn [flat_map]. rewrite forallb_app, IH, quote_unit_no_line_feed. reflexivity.
Qed.

(** The lines of the wire text of [fragments]: their frames, and the empty
    line after the last line feed. *)
Lemma split_wire_text fragments :
  split LF (wire_text fragments) = map frame fragments ++ [[]].
Proof.
  induction fragments as [|f fs IH]; [reflexivity|].
  unfold wire_text in *. cbn [map concat]. rewrite <- app_assoc. cbn [app].
  rewrite split_line by apply frame_no_line_feed. now rewrite IH.
Qed.

(** A loop over encoded items and a last empty one. *)
Lemma fold_left_encoded {S A B : Type} (step : S -> B -> S) (h : S -> A -> S)
    (enc : A -> B) (last : B) :
  (forall st x, step st (enc x) = h st x) ->
  (forall st, step st last = st) ->
  forall xs st, fold_left step (map enc xs ++ [last]) st = fold_left h xs st.
Proof.
  intros E L. induction xs as [|x xs IH]; intros st; simpl.
  - apply L.
  - rewrite E. apply IH.
Qed.

(** A loop over groups of items, each group handled by an inner loop. *)
Lemma fold_left_grouped {S A B : Type} (step : S -> B -> S) (h : S -> A -> S)
    (enc : list A -> B) :
  (forall st g, step st (enc g) = fold_left h g st) ->
  forall gs st, fold_left step (map enc gs) st = fold_left h (concat gs) st.
Proof.
  intros E. induction gs as [|g gs IH]; intros st; simpl.
  - reflexivity.
  - rewrite fold_left_app, E. apply IH.
Qed.

Lemma process_chunk_wire_text onStream st fragments :
  process_chunk onStream st (wire_text fragments)
  = fold_left (append_fragment onStream) fragments st.
Proof.
  unfold process_chunk. rewrite split_wire_text.
  apply fold_left_encoded.
  - apply process_line_frame.
  - apply process_line_empty.
Qed.

Lemma process_chunks_wire_text onStream st groups :
  fold_left (process_chunk onStream) (map wire_text groups) st
  = fold_left (append_fragment onStream) (concat groups) st.
Proof.
  apply fold_left_grouped. intros st' g. apply process_chunk_wire_text.
Qed.

Lemma fold_append_fragment onStream fragments st :
  fold_left (append_fragment onStream) fragments st
  = mkState (result st ++ concat fragments)
      (if onStream then emitted st ++ running (result st) fragments
       else emitted st).
Proof.
  revert st; induction fragments as [|f fs IH]; intros st.
  - destruct st, onStream; simpl; now rewrite !app_nil_r.
  - cbn [fold_left]. rewrite IH. unfold append_fragment. cbn [result emitted concat running].
    rewrite <- !app_assoc. destruct onStream; [|reflexivity].
    now rewrite <- app_assoc.
Qed.

Lemma wire_text_concat groups :
  concat (map wire_text groups) = wire_text (concat groups).
Proof.
  unfold wire_text. induction groups as [|g gs IH]; [reflexivity|].
  cbn [map concat]. now rewrite map_app, concat_app, IH.
Qed.

(** On any chunks at all, the loop handles the lines of each chunk, cut
    at its line feeds, one chunk after the other. *)
Lemma process_chunks_lines onStream chunks st :
  fold_left (process_chunk onStream) chunks st
  = fold_left (process_line onStream) (flat_map (split LF) chunks) st.
Proof.
  revert st; induction chunks as [|c cs IH]; intros st; [reflexivity|].
  cbn [fold_left flat_map]. rewrite fold_left_app. apply IH.
Qed.

(** ** Whole lines in general: claim C1 *)

(** What a well-formed line does to the loop state. *)
Lemma process_well_formed_line onStream st l :
  well_formed_line l = true ->
  process_line onStream st (stream_line_text l)
  = fold_left (append_fragment onStream) (stream_line_fragment l) st.
Proof.
  unfold well_formed_line. intros H. apply andb_true_iff in H as [_ H].
  unfold process_line.
  destruct l as [line fragment|line|line];
    cbn [stream_line_text stream_line_fragment fold_left].
  - unfold frame_members in H.
    destruct (startsWith (lit "data: ") line); [|discriminate].
    destruct (Json.parse (slice 6 line)) as [[|?|?|?|?|members]|];
      try discriminate.
    unfold string_member in H. cbn [Json.get].
    destruct (Json.lookup (lit "type") members) as [[|?|?|ty|?|?]|];
      try discriminate.
    destruct (Json.lookup (lit "content") members) as [[|?|?|c|?|?]|];
      try discriminate.
    apply andb_true_iff in H as [T C]. apply eqb_eq in C. subst c.
    cbn [is_content]. rewrite T. reflexivity.
  - unfold frame_members in H.
    destruct (startsWith (lit "data: ") line); [|discriminate].
    destruct (Json.parse (slice 6 line)) as [[|?|?|?|?|members]|];
      try discriminate.
    unfold string_member in H. cbn [Json.get].
    destruct (Json.lookup (lit "type") members) as [[|?|?|ty|?|?]|];
      try discriminate.
    apply negb_true_iff in H. cbn [is_content]. rewrite H. reflexivity.
  - apply negb_true_iff in H. now rewrite H.
Qed.

(** The lines of a text put together from lines. *)
Lemma split_joined (lines : list jsstring) :
  lines <> [] ->
  Forall (fun line => forallb (fun c => negb (N.eqb c LF)) line = true) lines ->
  split LF (join [LF] lines) = lines.
Proof.
  intros NE F. revert NE.
  induction F as [|x xs X F IH]; intros NE; [now destruct NE|].
  destruct xs as [|y ys].
  - cbn [join]. rewrite <- (app_nil_r x) at 1. clear IH F NE.
    induction x as [|c x IH]; [reflexivity|].
    simpl in X. apply andb_true_iff in X as [C X]. apply negb_true_iff in C.
    cbn [app split]. rewrite C. rewrite app_nil_r in *. now rewrite IH.
  - change (join [LF] (x :: y :: ys)) with (x ++ LF :: join [LF] (y :: ys)).
    rewrite split_line by exact X. now rewrite IH.
Qed.

Lemma process_chunk_of onStream st ls :
  forallb well_formed_line ls = true ->
  process_chunk onStream st (chunk_of ls)
  = fold_left (append_fragment onStream) (flat_map stream_line_fragment ls) st.
Proof.
  intros W. unfold process_chunk, chunk_of.
  destruct ls as [|l ls]; [reflexivity|].
  rewrite split_joined.
  - revert st W. generalize (l :: ls) as xs. clear.
    induction xs as [|x xs IH]; intros st W; [reflexivity|].
    cbn [forallb] in W. apply andb_true_iff in W as [X W].
    cbn [map fold_left flat_map]. rewrite (fold_left_app (append_fragment onStream)).
    rewrite process_well_formed_line by exact X. now apply IH.
  - discriminate.
  - apply Forall_forall. intros line I. apply in_map_iff in I as (x & <- & I).
    rewrite forallb_forall in W. specialize (W x I).
    unfold well_formed_line in W. now apply andb_true_iff in W as [W _].
Qed.

Lemma process_chunks_of onStream groups st :
  forallb (forallb well_formed_line) groups = true ->
  fold_left (process_chunk onStream) (map chunk_of groups) st
  = fold_left (append_fragment onStream)
      (flat_map stream_line_fragment (concat groups)) st.
Proof.
  revert st; induction groups as [|g gs IH]; intros st W; [reflexivity|].
  cbn [forallb] in W. apply andb_true_iff in W as [G W].
  cbn [map fold_left concat]. rewrite flat_map_app.
  rewrite (fold_left_app (append_fragment onStream)).
  rewrite process_chunk_of by exact G. now apply IH.
Qed.

(** What a line adds to the text does not depend on the text so far. *)
Lemma process_line_adds onStream st line :
  result (process_line onStream st line)
  = result st ++ result (process_line false initial line).
Proof.
  unfold process_line.
  repeat match goal with
         | |- context [if ?b then _ else _] => destruct b
         | |- context [match ?x with _ => _ end] => destruct x
         end; cbn [result initial app]; now rewrite ?app_nil_r.
Qed.

Lemma process_lines_add onStream lines st :
  result (fold_left (process_line onStream) lines st)
  = result st ++ result (fold_left (process_line false) lines initial).
Proof.
  revert onStream st; induction lines as [|line lines IH]; intros onStream st.
  - cbn [fold_left result initial]. now rewrite app_nil_r.
  - cbn [fold_left]. rewrite (IH onStream), (IH false (process_line false initial line)).
    now rewrite process_line_adds, app_assoc.
Qed.

Lemma process_chunks_add onStream chunks st :
  result (fold_left (process_chunk onStream) chunks st)
  = result st ++ concat (map decoded_alone chunks).
Proof.
  revert st; induction chunks as [|chunk chunks IH]; intros st.
  - cbn [fold_left map concat]. now rewrite app_nil_r.
  - cbn [fold_left map concat]. rewrite IH. unfold process_chunk at 1.
    rewrite process_lines_add, <- app_assoc. reflexivity.
Qed.

(** C1, amended. When no line spans two chunks, that is, when every chunk
    is made of whole lines, each a well-formed frame (of the content type
    or of another) or a line that is no frame, the decoder returns the
    concatenation of the fragments of the content frames in frame order and
    calls the observer with the accumulated text after each content frame,
    however the lines are grouped into chunks and whether or not a line
    feed follows the last line. And the decoder keeps no text from one
    chunk to the next: on any chunks at all, the text it returns is the
    concatenation of the texts the chunks give one by one. *)
Theorem whole_line_chunks_decoded {Id : Type} (groups : list (list StreamLine))
    (id : Id) (onStream : bool) :
  forallb (forallb well_formed_line) groups = true ->
  post (streaming (map chunk_of groups)) id onStream
  = mkRun 1
      (if onStream
       then running [] (flat_map stream_line_fragment (concat groups))
       else [])
      (Returned
         (mkData (concat (flat_map stream_line_fragment (concat groups))) id))
  /\
  (forall chunks : list jsstring,
      outcome (post (streaming chunks) id onStream)
      = Returned (mkData (concat (map decoded_alone chunks)) id)).
Proof.
  intros W. split.
  - unfold post, streaming. cbn [ok body negb chunks broken].
    rewrite process_chunks_of by exact W.
    rewrite fold_append_fragment. reflexivity.
  - intros cs. unfold post, streaming. cbn [ok body negb chunks broken outcome].
    now rewrite process_chunks_add.
Qed.

Lemma whole_line_chunks_decoded_witness :
  post (streaming (map chunk_of varied_stream)) tt true
  = mkRun 1 [lit "Hel"; lit "Hello"; lit "Hello!"]
      (Returned (mkData (lit "Hello!") tt)).
Proof.
  apply (whole_line_chunks_decoded varied_stream tt true). reflexivity.
Defined.

(** C1, as the specification states it, fails: no text is kept from one
    chunk to the next. The chunks of the example are the one line of the
    fragment [Hello] cut twice; the line decoded whole gives [Hello], the
    three chunks give no observer call and the empty text. *)
Lemma split_frame_lost :
  concat example_chunks = wire_text [lit "Hello"] /\
  post (streaming [wire_text [lit "Hello"]]) tt true
  = mkRun 1 [lit "Hello"] (Returned (mkData (lit "Hello") tt)) /\
  post (streaming example_chunks) tt true
  = mkRun 1 [] (Returned (mkData [] tt)).
Proof. repeat split; vm_compute; reflexivity. Qed.

(* ================================================================== *)
(** * Lines that are not content frames: claim C2 *)
(* ================================================================== *)

(** A line whose payload is not JSON leaves the state as it was. *)
Lemma unparsable_line_skipped onStream st line :
  Json.parse (slice 6 line) = None -> process_line onStream st line = st.
Proof.
  intros H. unfold process_line. rewrite H.
  now destruct (startsWith (lit "data: ") line).
Qed.

(** The lines after a skipped line are processed as if it were not there. *)
Lemma skipped_line_continues onStream st before line after :
  Json.parse (slice 6 line) = None ->
  fold_left (process_line onStream) (before ++ line :: after) st
  = fold_left (process_line onStream) (before ++ after) st.
Proof.
  intros H. rewrite !fold_left_app. cbn [fold_left].
  now rewrite unparsable_line_skipped.
Qed.

(** A content frame without a [content] member appends the string form of
    [undefined] and the observer is called with it. *)
Lemma missing_content_appended onStream st line members :
  startsWith (lit "data: ") line = true ->
  Json.parse (slice 6 line) = Some (Json.JObject members) ->
  Json.lookup (lit "type") members = Some (Json.JString (lit "content")) ->
  Json.lookup (lit "content") members = None ->
  process_line onStream st line = append_fragment onStream st (lit "undefined").
Proof.
  intros P J T C. unfold process_line. rewrite P, J. cbn [Json.get].
  rewrite T, C. reflexivity.
Qed.

(** C2 on the code: the frame [data: {"type":"content"}], which has the
    content type and no [content] member, adds the text [undefined] and
    one observer call. *)
Theorem missing_content_adds_undefined :
  post (streaming [litq "data: {'type':'content'}" ++ [LF]]) tt true
  = mkRun 1 [lit "undefined"] (Returned (mkData (lit "undefined") tt)).
Proof. vm_compute. reflexivity. Qed.

(* ================================================================== *)
(** * Transport failures: claim C9 *)
(* ================================================================== *)

(** C9. When the response has an error status, or has no readable body,
    [post] throws at once: it has issued its one request and no other, the
    observer has not been called and nothing is returned. When a read of
    the body fails later, [post] throws too, after the observer calls made
    for the chunks read before. *)
Theorem transport_failure_thrown {Id : Type} (fetch : Transport) (id : Id)
    (onStream : bool) :
  (ok (fetch 0) = false ->
   post fetch id onStream
   = mkRun 1 [] (Thrown (HttpError (status (fetch 0))))) /\
  (ok (fetch 0) = true -> body (fetch 0) = None ->
   post fetch id onStream = mkRun 1 [] (Thrown NoReader)) /\
  (forall cs, ok (fetch 0) = true ->
   body (fetch 0) = Some (mkStream cs true) ->
   post fetch id onStream
   = mkRun 1 (snapshots (post (streaming cs) id onStream)) (Thrown ReadError)).
Proof.
  unfold post. repeat split.
  - intros H. now rewrite H.
  - intros H B. now rewrite H, B.
  - intros cs H B. rewrite H, B. reflexivity.
Qed.

(** A response with status 500, whatever a second request would get. *)
Lemma transport_failure_thrown_witness :
  post failing_transport tt true = mkRun 1 [] (Thrown (HttpError 500)).
Proof.
  apply (proj1 (transport_failure_thrown failing_transport tt true)).
  reflexivity.
Defined.

(* ================================================================== *)
(** * Splitting and joining *)
(* ================================================================== *)

Lemma join_cons sep x y rest :
  join sep (x :: y :: rest) = x ++ sep ++ join sep (y :: rest).
Proof. reflexivity. Qed.

Lemma join_push_front sep c segs :
  segs <> [] -> join sep (push_front c segs) = c :: join sep segs.
Proof.
  destruct segs as [|h [|y t]]; [congruence| |]; reflexivity.
Qed.

Lemma split_nonempty sep s : split sep s <> [].
Proof.
  induction s as [|c r IH]; simpl; [discriminate|].
  destruct (N.eqb c sep); [discriminate|].
  destruct (split sep r); [congruence|discriminate].
Qed.

Lemma join_split (sep : N) (s : jsstring) : join [sep] (split sep s) = s.
Proof.
  induction s as [|c r J]; [reflexivity|].
  cbn [split]. destruct (N.eqb c sep) eqn:E.
  - apply N.eqb_eq in E. subst c.
    pose proof (split_nonempty sep r) as NE.
    destruct (split sep r) as [|y t]; [congruence|].
    rewrite join_cons, J. reflexivity.
  - rewrite join_push_front by apply split_nonempty. now rewrite J.
Qed.

Lemma split_free (sep : N) (s : jsstring) :
  Forall (fun piece => forallb (fun c => negb (N.eqb c sep)) piece = true)
         (split sep s).
Proof.
  induction s as [|c r F]; [repeat constructor|].
  cbn [split]. destruct (N.eqb c sep) eqn:E.
  - constructor; [reflexivity|exact F].
  - destruct (split sep r) as [|h t]; [repeat constructor; simpl; now rewrite E|].
    inversion F as [|? ? Fh Ft]; subst. constructor; [|exact Ft].
    simpl. now rewrite E, Fh.
Qed.

(** X1. Cutting a text at a code unit loses nothing: the pieces joined by
    the code unit are the text, and no piece holds the code unit. *)
Theorem split_join (sep : N) (s : jsstring) :
  join [sep] (split sep s) = s /\
  Forall (fun piece => forallb (fun c => negb (N.eqb c sep)) piece = true)
         (split sep s).
Proof. split; [apply join_split|apply split_free]. Qed.

Lemma split_on_scan_nonempty sep skip s : split_on_scan sep skip s <> [].
Proof.
  revert skip; induction s as [|c r IH]; intros skip; simpl; [discriminate|].
  destruct skip; [|apply IH].
  destruct (startsWith sep (c :: r)); [discriminate|].
  specialize (IH 0). destruct (split_on_scan sep 0 r); [congruence|discriminate].
Qed.

Lemma split_on_scan_head sep skip s :
  exists h t b, split_on_scan sep skip s = h :: t /\ skipn skip s = h ++ b.
Proof.
  revert skip; induction s as [|c r IH]; intros skip; simpl.
  - exists [], [], []. now rewrite skipn_nil.
  - destruct skip as [|k]; [|apply IH].
    destruct (startsWith sep (c :: r)).
    + exists [], (split_on_scan sep (pred (length sep)) r), (c :: r). now split.
    + destruct (IH 0) as (h & t & b & E & P). rewrite E. simpl in *.
      exists (c :: h), t, b. split; [reflexivity|]. now rewrite P.
Qed.

Lemma split_on_scan_join sep skip s :
  sep <> [] -> join sep (split_on_scan sep skip s) = skipn skip s.
Proof.
  intros NE. revert skip; induction s as [|c r IH]; intros skip.
  - now rewrite skipn_nil.
  - destruct skip as [|k]; [|apply IH]. cbn [split_on_scan skipn].
    destruct (startsWith sep (c :: r)) eqn:P.
    + pose proof (split_on_scan_nonempty sep (pred (length sep)) r) as N0.
      destruct (split_on_scan sep (pred (length sep)) r) as [|y t] eqn:E;
        [congruence|].
      rewrite join_cons, <- E, IH. cbn [app].
      apply startsWith_inv in P.
      destruct sep as [|a sep]; [congruence|].
      cbn [length pred skipn] in *. symmetry. exact P.
    + rewrite join_push_front by apply split_on_scan_nonempty.
      now rewrite IH.
Qed.

Lemma startsWith_longer p x b :
  startsWith p x = true -> startsWith p (x ++ b) = true.
Proof.
  intros H. apply startsWith_spec in H as (r & ->).
  rewrite <- app_assoc. apply startsWith_app.
Qed.

Lemma split_on_scan_free sep skip s :
  sep <> [] ->
  Forall (fun piece => includes sep piece = false) (split_on_scan sep skip s).
Proof.
  intros NE.
  assert (includes sep [] = false) as Z by (destruct sep; [congruence|reflexivity]).
  revert skip; induction s as [|c r IH]; intros skip.
  - repeat constructor. exact Z.
  - destruct skip as [|k]; [|apply IH]. cbn [split_on_scan].
    destruct (startsWith sep (c :: r)) eqn:P.
    + constructor; [exact Z|apply IH].
    + destruct (split_on_scan_head sep 0 r) as (h & t & b & E & Q).
      specialize (IH 0). rewrite E in *. cbn [push_front skipn] in *.
      inversion IH as [|? ? Fh Ft]; subst. constructor; [|exact Ft].
      cbn [includes]. rewrite Fh, orb_false_r.
      destruct (startsWith sep (c :: h)) eqn:P'; [|reflexivity].
      apply (startsWith_longer _ _ b) in P'. cbn [app] in P'. congruence.
Qed.

(** X2. Cutting a text at a marker loses nothing either: the pieces joined
    by the marker are the text, and the marker occurs in no piece. *)
Theorem split_on_join (sep s : jsstring) :
  sep <> [] ->
  join sep (split_on sep s) = s /\
  Forall (fun piece => ~ occurs sep piece) (split_on sep s).
Proof.
  intros NE. destruct sep as [|a sep]; [congruence|]. cbn [split_on]. split.
  - apply (split_on_scan_join (a :: sep) 0 s NE).
  - eapply Forall_impl; [|apply (split_on_scan_free (a :: sep) 0 s NE)].
    intros piece H. now apply includes_false.
Qed.

Lemma split_on_join_witness :
  join (lit "[EMAIL]") (split_on (lit "[EMAIL]") (lit "a[EMAIL]b[EMAIL][EMAIL]"))
  = lit "a[EMAIL]b[EMAIL][EMAIL]".
Proof.
  apply (split_on_join (lit "[EMAIL]") (lit "a[EMAIL]b[EMAIL][EMAIL]")).
  discriminate.
Defined.

Lemma split_scan_segments_plain skip s :
  Forall (fun segment => digit_period_count segment = 0) (split_scan skip s).
Proof.
  revert skip. induction s as [|c r IH]; intros skip; [repeat constructor|].
  destruct skip as [|k]; [|apply IH]. cbn [split_scan].
  destruct (delimiter_at (c :: r)) as [n|] eqn:E.
  - constructor; [reflexivity|apply IH].
  - destruct (split_scan_head 0 r) as (h & t & b & S0 & P).
    specialize (IH 0). rewrite S0 in *. cbn [push_front skipn] in *.
    inversion IH as [|? ? Fh Ft]; subst. constructor; [|exact Ft].
    rewrite digit_period_count_cons, Fh.
    pose proof (delimiter_at_none c (h ++ b) E) as D.
    destruct h as [|d h]; [now rewrite andb_false_r|].
    cbn [app] in D. now rewrite D.
Qed.

(** X3. No segment of the numbered-list split holds a digit followed by a
    period: the split cuts at every such place. *)
Theorem split_numbered_segments_plain (t : jsstring) :
  Forall (fun segment => digit_period_count segment = 0) (split_numbered t).
Proof. apply split_scan_segments_plain. Qed.

(* ================================================================== *)
(** * The accumulated text *)
(* ================================================================== *)

Lemma last_cons {A : Type} (x : A) xs d : last (x :: xs) d = last xs x.
Proof.
  revert x d; induction xs as [|z xs IH]; intros x d; [reflexivity|].
  change (last (x :: z :: xs) d) with (last (z :: xs) d).
  now rewrite !(IH z).
Qed.

Lemma grows_from_snoc acc xs y :
  grows_from acc (xs ++ [y]) <->
  grows_from acc xs /\ exists added, y = last xs acc ++ added.
Proof.
  revert acc; induction xs as [|x xs IH]; intros acc.
  - simpl. tauto.
  - cbn [app grows_from]. rewrite IH.
    rewrite last_cons. tauto.
Qed.

Lemma process_line_accumulating st line :
  accumulating st -> accumulating (process_line true st line).
Proof.
  intros [G R]. unfold process_line.
  repeat match goal with
         | |- accumulating (if ?b then _ else _) => destruct b
         | |- accumulating (match ?x with _ => _ end) => destruct x
         end; try (split; assumption).
  split; cbn [emitted result].
  - apply grows_from_snoc. split; [exact G|]. rewrite <- R. now eexists.
  - now rewrite last_last.
Qed.

Lemma fold_left_invariant {S A : Type} (P : S -> Prop) (step : S -> A -> S) :
  (forall st x, P st -> P (step st x)) ->
  forall xs st, P st -> P (fold_left step xs st).
Proof.
  intros H. induction xs as [|x xs IH]; intros st I; [exact I|].
  cbn [fold_left]. apply IH, H, I.
Qed.

Lemma process_chunks_accumulating chunks :
  accumulating (fold_left (process_chunk true) chunks initial).
Proof.
  apply fold_left_invariant.
  - intros st chunk I. unfold process_chunk.
    apply fold_left_invariant; [|exact I].
    intros st' line. apply process_line_accumulating.
  - split; reflexivity.
Qed.

(** X4. Whatever the transport delivers, the snapshots the observer gets
    grow one from the other, starting from the empty text, and the text
    [post] returns is the last snapshot (the empty text when there was
    none). *)
Theorem snapshots_accumulate {Id : Type} (fetch : Transport) (id : Id) :
  grows_from [] (snapshots (post fetch id true)) /\
  (forall data, outcome (post fetch id true) = Returned data ->
                response data = last (snapshots (post fetch id true)) []).
Proof.
  unfold post. destruct (negb (ok (fetch 0))); [split; [exact I|discriminate]|].
  destruct (body (fetch 0)) as [stream|]; [|split; [exact I|discriminate]].
  destruct (process_chunks_accumulating (chunks stream)) as [G R].
  cbn [snapshots outcome]. split; [exact G|].
  destruct (broken stream); [discriminate|].
  intros data H. injection H as <-. exact R.
Qed.

(* ================================================================== *)
(** * Lines of other kinds and white space after a payload *)
(* ================================================================== *)

Lemma parse_value_content_rest fuel fragment rest :
  Json.parse_value (4 + fuel)
    (litq "{'type':'content','content':'" ++ flat_map quote_unit fragment
     ++ litq "'}" ++ rest)
  = Some (content_object fragment, rest).
Proof.
  match goal with
  | |- context [litq ?s ++ ?x] =>
      let v := eval vm_compute in (litq s) in change (litq s ++ x) with (v ++ x)
  end.
  change (litq "'}" ++ rest) with (34%N :: 125%N :: rest).
  cbn [app Nat.add].
  cbn [Json.parse_value Json.parse_members Json.skip_ws Json.is_json_ws
       N.eqb Pos.eqb orb Json.parse_string N.ltb N.compare Pos.compare
       Pos.compare_cont Json.with_head ].
  rewrite parse_string_quote. reflexivity.
Qed.

Lemma skip_ws_all w : forallb Json.is_json_ws w = true -> Json.skip_ws w = [].
Proof.
  induction w as [|c w IH]; [reflexivity|]. simpl.
  intros H. apply andb_true_iff in H as [C H]. rewrite C. now apply IH.
Qed.

Lemma parse_frame_trailing fragment trailing :
  forallb Json.is_json_ws trailing = true ->
  Json.parse (slice 6 (frame fragment ++ trailing))
  = Some (content_object fragment).
Proof.
  intros W. unfold Json.parse.
  assert (slice 6 (frame fragment ++ trailing)
          = litq "{'type':'content','content':'" ++ flat_map quote_unit fragment
            ++ litq "'}" ++ trailing) as ->.
  { unfold frame, quote. rewrite <- !app_assoc. reflexivity. }
  match goal with
  | |- context [Json.parse_value ?n _] =>
      replace n with (4 + (n - 4)) by (rewrite !length_app; simpl; lia)
  end.
  rewrite parse_value_content_rest, skip_ws_all by exact W. reflexivity.
Qed.

Lemma process_line_frame_trailing onStream st fragment trailing :
  forallb Json.is_json_ws trailing = true ->
  process_line onStream st (frame fragment ++ trailing)
  = append_fragment onStream st fragment.
Proof.
  intros W. unfold process_line. rewrite parse_frame_trailing by exact W.
  assert (startsWith (lit "data: ") (frame fragment ++ trailing) = true) as ->.
  { unfold frame. rewrite <- app_assoc. reflexivity. }
  assert (Json.get (content_object fragment) (lit "type")
          = Some (Some (Json.JString (lit "content")))) as -> by reflexivity.
  assert (Json.get (content_object fragment) (lit "content")
          = Some (Some (Json.JString fragment))) as -> by reflexivity.
  reflexivity.
Qed.

(** What a proper line does to the loop state. *)
Lemma process_proper_line onStream st l :
  proper_line l ->
  process_line onStream st (line_text l)
  = fold_left (append_fragment onStream) (line_fragment l) st.
Proof.
  intros [_ P]. destruct l as [fragment trailing|line]; cbn [line_text line_fragment fold_left].
  - now apply process_line_frame_trailing.
  - unfold process_line. now rewrite P.
Qed.

Lemma split_lines_text ls :
  Forall proper_line ls ->
  split LF (lines_text ls) = map line_text ls ++ [[]].
Proof.
  induction 1 as [|l ls [N _] _ IH]; [reflexivity|].
  unfold lines_text in *. cbn [map concat]. rewrite <- app_assoc. cbn [app].
  rewrite split_line by exact N. now rewrite IH.
Qed.

(** A loop over items each of which stands for some steps of an inner
    loop, and a last item that changes nothing. *)
Lemma fold_left_expanded {S A B C : Type} (step : S -> B -> S) (h : S -> C -> S)
    (enc : A -> B) (dec : A -> list C) (P : A -> Prop) (last : B) :
  (forall st x, P x -> step st (enc x) = fold_left h (dec x) st) ->
  (forall st, step st last = st) ->
  forall xs st, Forall P xs ->
    fold_left step (map enc xs ++ [last]) st = fold_left h (flat_map dec xs) st.
Proof.
  intros E L. induction xs as [|x xs IH]; intros st F; simpl.
  - apply L.
  - inversion F; subst. rewrite E by assumption.
    rewrite (fold_left_app h). now apply IH.
Qed.

Lemma process_chunk_lines_text onStream st ls :
  Forall proper_line ls ->
  process_chunk onStream st (lines_text ls)
  = fold_left (append_fragment onStream) (flat_map line_fragment ls) st.
Proof.
  intros F. unfold process_chunk. rewrite split_lines_text by exact F.
  apply (fold_left_expanded _ _ _ _ proper_line); [| |exact F].
  - intros st' l. apply process_proper_line.
  - apply process_line_empty.
Qed.

Lemma process_chunks_lines_text onStream groups :
  Forall (Forall proper_line) groups ->
  forall st,
  fold_left (process_chunk onStream) (map lines_text groups) st
  = fold_left (append_fragment onStream)
      (flat_map line_fragment (concat groups)) st.
Proof.
  induction 1 as [|g gs G _ IH]; intros st; [reflexivity|].
  cbn [map fold_left concat]. rewrite flat_map_app, fold_left_app.
  rewrite process_chunk_lines_text by exact G. apply IH.
Qed.

(** X5. On chunks made of whole lines, the lines that do not start with
    the frame prefix (empty lines, comments, lines of other fields) and the
    JSON white space after a payload (the carriage return of a CR LF line
    end) change nothing: the decoder returns the fragments of the content
    frames, concatenated in order, and calls the observer once per frame. *)
Theorem mixed_lines_decoded {Id : Type} (groups : list (list WireLine))
    (id : Id) (onStream : bool) :
  Forall (Forall proper_line) groups ->
  post (streaming (map lines_text groups)) id onStream
  = mkRun 1
      (if onStream
       then running [] (flat_map line_fragment (concat groups)) else [])
      (Returned (mkData (concat (flat_map line_fragment (concat groups))) id)).
Proof.
  intros F. unfold post, streaming. cbn [ok body negb chunks broken].
  rewrite process_chunks_lines_text, fold_append_fragment by exact F.
  reflexivity.
Qed.

Lemma mixed_lines_decoded_witness :
  post (streaming (map lines_text crlf_stream)) tt true
  = mkRun 1 [lit "Hel"; lit "Hello"] (Returned (mkData (lit "Hello") tt)).
Proof.
  apply (mixed_lines_decoded crlf_stream tt true).
  repeat constructor.
Defined.

(* ================================================================== *)
(** * The request body *)
(* ================================================================== *)

Lemma hex4_unicode_escape c :
  (c < 65536)%N ->
  Json.hex4 (hex_digit (c / 4096)) (hex_digit ((c / 256) mod 16))
            (hex_digit ((c / 16) mod 16)) (hex_digit (c mod 16)) = Some c.
Proof.
  intros H. unfold Json.hex4.
  rewrite !hex_value_digit;
    try (apply N.mod_lt; discriminate);
    try (apply N.Div0.div_lt_upper_bound; lia).
  f_equal.
  pose proof (N.div_mod c 16 ltac:(discriminate)) as E0.
  pose proof (N.div_mod (c / 16) 16 ltac:(discriminate)) as E1.
  pose proof (N.div_mod (c / 256) 16 ltac:(discriminate)) as E2.
  pose proof (N.Div0.div_div c 16 16) as F1.
  pose proof (N.Div0.div_div c 256 16) as F2.
  change (16 * 16)%N with 256%N in F1. change (256 * 16)%N with 4096%N in F2.
  lia.
Qed.

Lemma parse_string_json_unit c r :
  (c < 65536)%N ->
  Json.parse_string (quote_json_unit c ++ r)
  = Json.with_head c (Json.parse_string r).
Proof.
  intros B. unfold quote_json_unit.
  repeat match goal with
         | |- context [if (c =? ?k)%N then _ else _] =>
             destruct (N.eqb_spec c k); [subst c; reflexivity|]
         end.
  destruct ((c <? 32)%N || is_leading_surrogate c || is_trailing_surrogate c)
    eqn:E.
  - unfold unicode_escape. cbn [app Json.parse_string N.eqb Pos.eqb].
    now rewrite hex4_unicode_escape.
  - apply orb_false_iff in E as [E _]. apply orb_false_iff in E as [E _].
    cbn [app Json.parse_string].
    repeat match goal with
           | N0 : c <> ?k |- context [(c =? ?k)%N] =>
               rewrite (proj2 (N.eqb_neq c k) N0)
           end.
    now rewrite E.
Qed.

Lemma parse_string_surrogate c r :
  is_leading_surrogate c || is_trailing_surrogate c = true ->
  Json.parse_string (c :: r) = Json.with_head c (Json.parse_string r).
Proof.
  intros H. cbn [Json.parse_string].
  assert (55296 <= c)%N as B.
  { unfold is_leading_surrogate, is_trailing_surrogate in H.
    apply orb_true_iff in H as [H|H]; apply andb_true_iff in H as [H _];
      apply N.leb_le in H; lia. }
  assert ((c =? 34)%N = false) as -> by (apply N.eqb_neq; lia).
  assert ((c =? 92)%N = false) as -> by (apply N.eqb_neq; lia).
  assert ((c <? 32)%N = false) as -> by (apply N.ltb_ge; lia).
  reflexivity.
Qed.

(** The quoted text of a string is read back as the string. *)
Lemma parse_string_json_body s r :
  Forall (fun c => (c < 65536)%N) s ->
  Json.parse_string (quote_json_body s ++ 34%N :: r) = Some (s, r).
Proof.
  remember (length s) as n eqn:L. revert s L.
  induction n as [n IH] using lt_wf_ind. intros s L F.
  destruct s as [|c s]; [reflexivity|].
  inversion F as [|? ? Bc Fs]; subst. cbn [quote_json_body].
  destruct s as [|d s].
  - rewrite parse_string_json_unit by exact Bc. reflexivity.
  - destruct (is_leading_surrogate c && is_trailing_surrogate d) eqn:P.
    + apply andb_true_iff in P as [Pc Pd]. inversion Fs; subst.
      rewrite <- !app_comm_cons.
      rewrite parse_string_surrogate by (rewrite Pc; reflexivity).
      rewrite parse_string_surrogate by (rewrite Pd; apply orb_true_r).
      rewrite (IH (length s)); [reflexivity|simpl; lia|reflexivity|assumption].
    + rewrite <- app_assoc, parse_string_json_unit by exact Bc.
      rewrite (IH (length (d :: s))); [reflexivity|simpl; lia|reflexivity|exact Fs].
Qed.

(** The value the request body denotes. *)
Lemma parse_value_request_body fuel message id :
  Forall (fun c => (c < 65536)%N) message ->
  match id with Some i => Forall (fun c => (c < 65536)%N) i | None => True end ->
  Json.parse_value (4 + fuel) (request_body message id)
  = Some (Json.JObject [(lit "message", Json.JString message);
                        (lit "conversation_id", id_value id)], []).
Proof.
  intros M I. unfold request_body, stringify_string.
  destruct id as [i|]; cbn [id_value]; rewrite <- !app_assoc;
    repeat match goal with
           | |- context [litq ?s] =>
               let v := eval vm_compute in (litq s) in change (litq s) with v
           end;
    cbn [app Nat.add];
    cbn [Json.parse_value Json.parse_members Json.skip_ws Json.is_json_ws
         N.eqb Pos.eqb orb Json.parse_string N.ltb N.compare Pos.compare
         Pos.compare_cont Json.with_head ];
    rewrite parse_string_json_body by exact M;
    cbn [app Json.parse_value Json.parse_members Json.skip_ws Json.is_json_ws
         N.eqb Pos.eqb orb Json.parse_string N.ltb N.compare Pos.compare
         Pos.compare_cont Json.with_head ].
  - rewrite parse_string_json_body by exact I. reflexivity.
  - reflexivity.
Qed.

(** X6. The body [post] sends is JSON text that denotes the object with
    the message as it was typed, whatever code units it holds (quotation
    marks, reverse solidi, control characters, surrogates alone or in
    pairs), and the conversation id. *)
Theorem request_body_parses (message : jsstring) (id : option jsstring) :
  Forall (fun c => (c < 65536)%N) message ->
  match id with Some i => Forall (fun c => (c < 65536)%N) i | None => True end ->
  Json.parse (request_body message id)
  = Some (Json.JObject [(lit "message", Json.JString message);
                        (lit "conversation_id", id_value id)]).
Proof.
  intros M I. unfold Json.parse.
  match goal with
  | |- context [Json.parse_value ?n _] =>
      replace n with (4 + (n - 4))
        by (unfold request_body; rewrite !length_app; simpl; lia)
  end.
  now rewrite parse_value_request_body.
Qed.

Lemma request_body_parses_witness :
  Json.parse (request_body awkward_message None)
  = Some (Json.JObject [(lit "message", Json.JString awkward_message);
                        (lit "conversation_id", Json.JNull)]).
Proof.
  apply (request_body_parses awkward_message None).
  - repeat constructor.
  - exact I.
Defined.

(* ================================================================== *)
(** * More on the extractors *)
(* ================================================================== *)

(** ** Numbered lists in general *)

Lemma split_numbered_list items :
  Forall plain_item items -> items <> [] ->
  split_scan 0 (numbered items) = [] :: numbered_segments items.
Proof.
  induction 1 as [|item rest (NE & D & DP) _ IH]; [congruence|]. intros _.
  unfold numbered in *. destruct rest as [|item' rest].
  - cbn [map join numbered_segments app].
    rewrite split_scan_delimiter by assumption.
    now rewrite split_scan_single.
  - specialize (IH ltac:(discriminate)).
    change (numbered_segments (item :: item' :: rest))
      with ((snd item ++ [LF]) :: numbered_segments (item' :: rest)).
    cbn [map] in *. rewrite join_cons, <- !app_assoc. cbn [app] in *.
    rewrite split_scan_delimiter by assumption. f_equal.
    change (snd item ++ LF :: ?x) with (snd item ++ [LF] ++ x).
    rewrite app_assoc.
    rewrite split_scan_plain by
      (try reflexivity;
       rewrite digit_period_count_snoc by reflexivity; exact DP).
    apply (f_equal (prepend (snd item ++ [LF]))) in IH.
    etransitivity; [exact IH|].
    now rewrite prepend_cons, !app_nil_r.
Qed.

(** ** Reading back a labeled event block *)

Lemma render_event_block_shape ev w :
  render_event_block ev ++ w
  = lit " " ++ lit "**Event**:" ++ lit " " ++ event ev ++
    lit " - " ++ lit "**Location**:" ++ lit " " ++ location ev ++
    lit " - " ++ lit "**Time**:" ++ lit " " ++ (time ev ++ w).
Proof. unfold render_event_block. rewrite <- !app_assoc. reflexivity. Qed.

Lemma parseCalendarBlock_block ev w :
  includes (lit "**Location**:") (event ev) = false ->
  includes (lit "**Time**:") (event ev) = false ->
  includes (lit "**Time**:") (location ev) = false ->
  all_ws w = true ->
  parseCalendarBlock (render_event_block ev ++ w) = Some (trimmed_event ev).
Proof.
  intros EL ET LT W. unfold parseCalendarBlock.
  rewrite render_event_block_shape.
  change (lit "**Event**: ") with (lit "**Event**:" ++ lit " ").
  change (lit "**Location**: ") with (lit "**Location**:" ++ lit " ").
  change (lit "**Time**: ") with (lit "**Time**:" ++ lit " ").
  destruct (match_field_value (lit "**Event**:") (lit "**Location**:") (event ev)
              (lit " " ++ location ev ++ lit " - " ++ lit "**Time**:" ++ lit " "
               ++ (time ev ++ w)) eq_refl EL) as (ge & we & Ee & We & Me).
  rewrite (match_field_skip_prefix _ _ (lit " ")) by reflexivity.
  rewrite Me.
  destruct (match_field_value (lit "**Location**:") (lit "**Time**:")
              (location ev) (lit " " ++ (time ev ++ w)) eq_refl LT)
    as (gl & wl & El & Wl & Ml).
  skip_literals. pass_value. skip_literals. rewrite Ml.
  skip_literals. pass_value. skip_literals. pass_value. skip_literals.
  rewrite match_field_last.
  unfold trimmed_event. rewrite Ee, El, !trim_app_ws by assumption.
  reflexivity.
Qed.

Lemma collected_event_segments items :
  Forall readable_event items ->
  collected parseCalendarBlock
    (numbered_segments
       (map (fun item => (fst item, render_event_block (snd item))) items))
  = map (fun item => trimmed_event (snd item)) items.
Proof.
  induction 1 as [|item rest R _ IH]; [reflexivity|].
  destruct R as [_ (EL & ET) LT _].
  destruct rest as [|item' rest].
  - cbn [map numbered_segments snd collected flat_map].
    rewrite <- (app_nil_r (render_event_block (snd item))).
    now rewrite parseCalendarBlock_block.
  - cbn [map] in *.
    change (numbered_segments (?a :: ?b :: ?c))
      with ((snd a ++ [LF]) :: numbered_segments (b :: c)).
    change (collected parseCalendarBlock (?b :: ?bs))
      with ((match parseCalendarBlock b with Some r => [r] | None => [] end)
            ++ collected parseCalendarBlock bs).
    rewrite IH. cbn [snd].
    rewrite parseCalendarBlock_block by (assumption || reflexivity).
    reflexivity.
Qed.

(** X7. Round trip of calendar extraction: a numbered list of events, one
    item per line, each a run of digits, a period and the three labeled
    fields in order, in which no field holds the marker of a later field
    and no block holds a digit followed by a period, is read back as the
    events in order, each field trimmed. *)
Theorem event_list_read_back (items : list (jsstring * CalendarEvent)) :
  Forall readable_event items ->
  parseCalendarEventsFromText (render_event_list items)
  = map (fun item => trimmed_event (snd item)) items.
Proof.
  intros R. rewrite parseCalendarEvents_collected.
  destruct items as [|item rest]; [reflexivity|].
  unfold split_numbered, render_event_list.
  rewrite split_numbered_list.
  - cbn [tl]. now apply collected_event_segments.
  - apply Forall_map. eapply Forall_impl; [|exact R].
    intros it [[NE D] _ _ DP]. repeat split; assumption.
  - discriminate.
Qed.

Lemma event_list_read_back_witness :
  parseCalendarEventsFromText
    (render_event_list
       [(lit "1", mkEvent (lit "Standup ") (lit "Room 4") (lit "9am"));
        (lit "2", mkEvent (lit "Lunch - team") (lit " Cafe") (lit "12:30 "))])
  = [mkEvent (lit "Standup") (lit "Room 4") (lit "9am");
     mkEvent (lit "Lunch - team") (lit "Cafe") (lit "12:30")].
Proof.
  apply (event_list_read_back
           [(lit "1", mkEvent (lit "Standup ") (lit "Room 4") (lit "9am"));
            (lit "2", mkEvent (lit "Lunch - team") (lit " Cafe") (lit "12:30 "))]).
  repeat constructor; try discriminate; reflexivity.
Defined.

(** ** The text before the first item *)

Lemma tl_prepend y segs : segs <> [] -> tl (prepend y segs) = tl segs.
Proof.
  destruct segs as [|h t]; [congruence|]. intros _. now rewrite prepend_cons.
Qed.

(** X8. Text before the first item that holds no digit followed by a
    period and does not end with a digit is dropped: both extractors return
    what they return without it. *)
Theorem preamble_dropped (preamble : jsstring) (c : N) (t : jsstring) :
  digit_period_count (preamble ++ [c]) = 0 -> is_digit c = false ->
  parseMultipleEmails ((preamble ++ [c]) ++ t) = parseMultipleEmails t /\
  parseCalendarEventsFromText ((preamble ++ [c]) ++ t)
  = parseCalendarEventsFromText t.
Proof.
  intros DP C.
  assert (tl (split_numbered ((preamble ++ [c]) ++ t)) = tl (split_numbered t)) as E.
  { unfold split_numbered. rewrite split_scan_plain by assumption.
    apply tl_prepend, split_scan_nonempty. }
  now rewrite !parseMultipleEmails_collected, !parseCalendarEvents_collected, E.
Qed.

Lemma preamble_dropped_witness :
  parseMultipleEmails
    (lit "Here are your 2 emails:" ++ [LF] ++ example_email_text)
  = [example_email].
Proof.
  pose proof (preamble_dropped (lit "Here are your 2 emails:") LF
                example_email_text eq_refl eq_refl) as [E _].
  rewrite <- app_assoc in E. rewrite E. vm_compute. reflexivity.
Defined.

(** ** Where the fields come from *)

Lemma trim_occurs g : occurs (trim g) g.
Proof.
  unfold trim. destruct (trimStart_split g) as (w & E & _).
  destruct (trimEnd_split (trimStart g)) as (w' & E' & _).
  exists w, w'. now rewrite <- E'.
Qed.

Lemma match_field_occurs label K s g :
  match_field label K s = Some g -> occurs (trim g) s.
Proof.
  intros H. apply match_field_inv in H as (b & rest & -> & _).
  apply (occurs_trans _ g); [apply trim_occurs|].
  exists (b ++ label), rest. now rewrite <- !app_assoc.
Qed.

(** X9. The extractors make up no text: every field of every record they
    return occurs in the text they were given. *)
Theorem fields_occur_in_text (t : jsstring) :
  Forall (email_fields_occur t) (parseMultipleEmails t) /\
  Forall (event_fields_occur t) (parseCalendarEventsFromText t).
Proof.
  split; apply Forall_forall; intros r H.
  - rewrite parseMultipleEmails_collected in H.
    apply in_collected in H as (b & B & H). apply filter_In in B as [B _].
    apply split_numbered_occurs in B. unfold parseEmailFromText in H.
    repeat match type of H with
           | match ?m with _ => _ end = _ => destruct m eqn:?; [|discriminate]
           end.
    injection H as <-.
    repeat split; cbn [from date subject content];
      (eapply occurs_trans; [eapply match_field_occurs; eassumption|exact B]).
  - rewrite parseCalendarEvents_collected in H.
    apply in_collected in H as (b & B & H).
    apply split_numbered_occurs in B. unfold parseCalendarBlock in H.
    repeat match type of H with
           | match ?m with _ => _ end = _ => destruct m eqn:?; [|discriminate]
           end.
    injection H as <-.
    repeat split; cbn [event location time];
      (eapply occurs_trans; [eapply match_field_occurs; eassumption|exact B]).
Qed.

(** X10. A text from which the calendar extractor returns an event holds
    both calendar markers, so the classifier does not call it plain text. *)
Theorem events_imply_markers (t : jsstring) :
  parseCalendarEventsFromText t <> [] ->
  occurs (lit "**Event**:") t /\ occurs (lit "**Location**:") t /\
  detectMessageType t <> text.
Proof.
  intros H.
  assert (occurs (lit "**Event**:") t /\ occurs (lit "**Location**:") t) as [V L].
  { destruct (parseCalendarEventsFromText t) as [|ev evs] eqn:E; [congruence|].
    assert (In ev (parseCalendarEventsFromText t)) as I by (rewrite E; now left).
    rewrite parseCalendarEvents_collected in I.
    apply in_collected in I as (b & B & P).
    apply parseCalendarBlock_markers in P as [V L].
    apply split_numbered_occurs in B.
    split; eapply occurs_trans; eassumption. }
  repeat split; [exact V|exact L|].
  unfold detectMessageType. apply includes_spec in V, L.
  rewrite V, L. destruct (includes (lit "[EMAIL]") t); discriminate.
Qed.

Lemma events_imply_markers_witness :
  detectMessageType (lit "1. **Event**: Standup - **Location**: Room 4 - **Time**: 9am")
  <> text.
Proof.
  apply (events_imply_markers
           (lit "1. **Event**: Standup - **Location**: Room 4 - **Time**: 9am")).
  vm_compute. discriminate.
Defined.

(* ================================================================== *)
(** * The formatters *)
(* ================================================================== *)

Lemma no_line_feed_app a b :
  no_line_feed a -> no_line_feed b -> no_line_feed (a ++ b).
Proof. unfold no_line_feed. intros A B. now rewrite forallb_app, A, B. Qed.

(** The lines of a formatted email. *)
Lemma formatEmail_lines e :
  no_line_feed (from e) -> no_line_feed (date e) -> no_line_feed (subject e) ->
  split LF (formatEmail e) = email_header_lines e ++ split LF (content e).
Proof.
  intros F D S. unfold formatEmail, email_header_lines.
  change [LF; LF] with ([LF] ++ [LF]).
  rewrite <- !app_assoc.
  rewrite (app_assoc envelope), (app_assoc (envelope ++ lit " ")).
  cbn [app]. rewrite split_line
    by (rewrite <- app_assoc; repeat apply no_line_feed_app; auto; reflexivity).
  rewrite (app_assoc calendar_sign), (app_assoc (calendar_sign ++ lit " ")).
  rewrite split_line
    by (rewrite <- app_assoc; repeat apply no_line_feed_app; auto; reflexivity).
  rewrite (app_assoc pushpin), (app_assoc (pushpin ++ lit " ")).
  rewrite split_line
    by (rewrite <- app_assoc; repeat apply no_line_feed_app; auto; reflexivity).
  rewrite <- !app_assoc.
  change (split LF (LF :: content e)) with ([] :: split LF (content e)).
  reflexivity.
Qed.

(** X11. [formatEmail] loses nothing: two emails whose From, Date and
    Subject hold no line feed and that are formatted alike are the same
    email. *)
Theorem formatEmail_injective (e1 e2 : EmailData) :
  no_line_feed (from e1) -> no_line_feed (date e1) -> no_line_feed (subject e1) ->
  no_line_feed (from e2) -> no_line_feed (date e2) -> no_line_feed (subject e2) ->
  formatEmail e1 = formatEmail e2 -> e1 = e2.
Proof.
  intros F1 D1 S1 F2 D2 S2 H.
  apply (f_equal (split LF)) in H.
  rewrite !formatEmail_lines in H by assumption.
  unfold email_header_lines in H. cbn [app] in H.
  injection H as Hf Hd Hs Hc.
  apply (f_equal (join [LF])) in Hc.
  rewrite !join_split in Hc.
  destruct e1, e2. cbn in *. congruence.
Qed.

Lemma formatEmail_injective_witness :
  mkEmail (lit "a@x.com") (lit "Mon") (lit "Hi") (lit "one" ++ [LF] ++ lit "two")
  = mkEmail (lit "a@x.com") (lit "Mon") (lit "Hi") (lit "one" ++ [LF] ++ lit "two").
Proof.
  apply (formatEmail_injective
           (mkEmail (lit "a@x.com") (lit "Mon") (lit "Hi") (lit "one" ++ [LF] ++ lit "two"))
           (mkEmail (lit "a@x.com") (lit "Mon") (lit "Hi") (lit "one" ++ [LF] ++ lit "two")));
    reflexivity.
Defined.

(** The digits of a numeral. *)
Lemma digits_fuel_digits fuel z acc :
  forallb is_digit acc = true ->
  forallb is_digit (Number.digits_fuel fuel z acc) = true.
Proof.
  revert z acc; induction fuel as [|fuel IH]; intros z acc A; [exact A|].
  cbn [Number.digits_fuel].
  assert (forallb is_digit (Z.to_N (48 + z mod 10) :: acc) = true) as A'.
  { cbn [forallb]. rewrite A, andb_true_r. unfold is_digit.
    pose proof (Z.mod_pos_bound z 10 ltac:(lia)).
    apply andb_true_iff; split; apply N.leb_le; lia. }
  destruct (z <? 10)%Z; [exact A'|now apply IH].
Qed.

Lemma digits_fuel_nonempty fuel z acc :
  acc <> [] \/ fuel <> 0 -> Number.digits_fuel fuel z acc <> [].
Proof.
  revert z acc; induction fuel as [|fuel IH]; intros z acc H.
  - destruct H; [assumption|congruence].
  - cbn [Number.digits_fuel]. destruct (z <? 10)%Z; [discriminate|].
    apply IH. left. discriminate.
Qed.

Lemma decimal_digits n : decimal n <> [] /\ forallb is_digit (decimal n) = true.
Proof.
  unfold decimal, Number.digits. split.
  - apply digits_fuel_nonempty. right. discriminate.
  - now apply digits_fuel_digits.
Qed.

Lemma formatCalendarEvent_item index ev :
  formatCalendarEvent index ev = decimal (index + 1) ++ [46%N] ++ event_body ev.
Proof.
  unfold formatCalendarEvent, event_body.
  generalize (decimal (index + 1)) as number. intros number.
  rewrite <- !app_assoc. reflexivity.
Qed.

Lemma mapi_from_items i events :
  mapi_from i formatCalendarEvent events
  = map (fun item => fst item ++ [46%N] ++ snd item)
        (mapi_from i (fun index ev => (decimal (index + 1), event_body ev))
                   events).
Proof.
  revert i; induction events as [|ev evs IH]; intros i; [reflexivity|].
  cbn [mapi_from map fst snd]. now rewrite IH, formatCalendarEvent_item.
Qed.

Lemma formatCalendarEvents_numbered events :
  formatCalendarEvents events = numbered (event_items events).
Proof.
  unfold formatCalendarEvents, numbered, event_items.
  now rewrite mapi_from_items.
Qed.

Lemma items_plain i (events : list CalendarEvent) :
  Forall (fun ev => digit_period_count (event_body ev) = 0) events ->
  Forall plain_item
    (mapi_from i (fun index ev => (decimal (index + 1), event_body ev)) events).
Proof.
  intros F. revert i. induction F as [|ev evs H F IH]; intros i; [constructor|].
  cbn [mapi_from]. constructor; [|apply IH].
  destruct (decimal_digits (i + 1)) as [NE D]. split; [|split]; assumption.
Qed.

Lemma numbered_segments_length (items : list (jsstring * jsstring)) :
  length (numbered_segments items) = length items.
Proof.
  induction items as [|item rest IH]; [reflexivity|].
  destruct rest as [|item' rest]; [reflexivity|].
  cbn [numbered_segments length] in *. now rewrite IH.
Qed.

Lemma mapi_from_length {A B} (f : nat -> A -> B) i (l : list A) :
  length (mapi_from i f l) = length l.
Proof.
  revert i; induction l as [|x l IH]; intros i; [reflexivity|].
  cbn [mapi_from length]. now rewrite IH.
Qed.

(** X12. [formatCalendarEvents] writes a numbered list in the sense of the
    extractors: when no event holds a digit followed by a period, the
    numbered-list split of the formatted text gives one segment per event,
    the body of that event. *)
Theorem formatted_events_split (events : list CalendarEvent) :
  Forall (fun ev => digit_period_count (event_body ev) = 0) events ->
  tl (split_numbered (formatCalendarEvents events))
  = numbered_segments (event_items events) /\
  length (tl (split_numbered (formatCalendarEvents events))) = length events.
Proof.
  intros F.
  assert (tl (split_numbered (formatCalendarEvents events))
          = numbered_segments (event_items events)) as E.
  { rewrite formatCalendarEvents_numbered. unfold split_numbered.
    destruct events as [|ev evs]; [reflexivity|].
    rewrite split_numbered_list; [reflexivity| |discriminate].
    unfold event_items. now apply items_plain. }
  split; [exact E|]. rewrite E, numbered_segments_length.
  unfold event_items. apply mapi_from_length.
Qed.

Lemma formatted_events_split_witness :
  length (tl (split_numbered
                (formatCalendarEvents
                   [mkEvent (lit "Standup") (lit "Room 4") (lit "9am");
                    mkEvent (lit "Lunch") (lit "Cafe") (lit "12:30")]))) = 2.
Proof.
  apply (formatted_events_split
           [mkEvent (lit "Standup") (lit "Room 4") (lit "9am");
            mkEvent (lit "Lunch") (lit "Cafe") (lit "12:30")]).
  repeat constructor.
Defined.

(* ================================================================== *)
(** * The cards of a formatted message *)
(* ================================================================== *)

Lemma in_join_occurs sep x (xs : list jsstring) :
  In x xs -> occurs x (join sep xs).
Proof.
  induction xs as [|y ys IH]; [intros []|].
  intros [->|H].
  - destruct ys as [|z zs].
    + exists [], []. cbn [join app]. now rewrite app_nil_r.
    + exists [], (sep ++ join sep (z :: zs)). reflexivity.
  - specialize (IH H). destruct ys as [|z zs]; [destruct H|].
    rewrite join_cons. destruct IH as (a & b & E). rewrite E.
    exists (y ++ sep ++ a), b. now rewrite <- !app_assoc.
Qed.

Lemma split_first_line c r :
  N.eqb c LF = false ->
  exists first rest, split LF (c :: r) = (c :: first) :: rest.
Proof.
  intros H. cbn [split]. rewrite H.
  pose proof (split_nonempty LF r) as NE.
  destruct (split LF r) as [|h t]; [congruence|]. now exists h, t.
Qed.

Lemma is_ws_line_feed c : is_ws c = false -> N.eqb c LF = false.
Proof.
  intros H. destruct (N.eqb c LF) eqn:E; [|reflexivity].
  apply N.eqb_eq in E. subst c. discriminate H.
Qed.

Lemma in_split_on_occurs sep piece s :
  sep <> [] -> In piece (split_on sep s) -> occurs piece s.
Proof.
  intros NE H. destruct sep as [|a sep]; [congruence|]. cbn [split_on] in H.
  apply (in_join_occurs (a :: sep)) in H.
  now rewrite (split_on_scan_join (a :: sep) 0 s NE) in H.
Qed.

Lemma in_split_on_free sep piece s :
  sep <> [] -> In piece (split_on sep s) -> ~ occurs sep piece.
Proof.
  intros NE H. destruct sep as [|a sep]; [congruence|]. cbn [split_on] in H.
  pose proof (split_on_scan_free (a :: sep) 0 s NE) as F.
  rewrite Forall_forall in F. apply includes_false. now apply F.
Qed.

Lemma block_card block :
  truthy (trim block) = true -> ~ occurs (lit "[EMAIL]") block ->
  card (split LF (trim block)).
Proof.
  intros T Free. split.
  - destruct (trim block) as [|c r] eqn:E; [discriminate|].
    destruct (trim_no_outer_ws block) as [Head _]. rewrite E in Head.
    destruct (split_first_line c r) as (first & rest & S).
    { apply is_ws_line_feed. now apply (Head c r). }
    now exists c, first, rest.
  - apply Forall_forall. intros line L. split.
    + pose proof (split_free LF (trim block)) as F.
      rewrite Forall_forall in F. now apply F.
    + intros O. apply Free.
      apply (occurs_trans _ line); [exact O|].
      apply (occurs_trans _ (trim block)); [|apply trim_occurs].
      rewrite <- (join_split LF (trim block)). now apply in_join_occurs.
Qed.

(** X13. What [FormattedMessage] shows for the type [email]. It shows the
    bare message exactly when every piece between the markers is blank.
    Otherwise it shows cards, one for each piece that is not blank, in
    order: the lines of a card, joined by line feeds, are the trimmed
    piece; so there is at least one card, each has a first line that is not
    empty, no line of a card holds a line feed or the block marker, and
    the text of each card occurs in the message. *)
Theorem email_rendering (message : jsstring) :
  (Forall (fun piece => trim piece = []) (split_on (lit "[EMAIL]") message) /\
   renderContent message email = PlainMessage message) \/
  (~ Forall (fun piece => trim piece = []) (split_on (lit "[EMAIL]") message) /\
   exists cards,
     renderContent message email = EmailCards cards /\ cards <> [] /\
     map (join [LF]) cards
     = map trim (filter (fun piece => truthy (trim piece))
                   (split_on (lit "[EMAIL]") message)) /\
     Forall card cards /\
     Forall (fun lines => occurs (join [LF] lines) message) cards).
Proof.
  assert (lit "[EMAIL]" <> []) as NE by discriminate.
  unfold renderContent, emailBlocks.
  destruct (filter _ (split_on (lit "[EMAIL]") message)) as [|b bs] eqn:F.
  - left. split; [|reflexivity]. apply Forall_forall. intros piece I.
    destruct (trim piece) as [|c r] eqn:T; [reflexivity|].
    assert (In piece []) as [].
    rewrite <- F. apply filter_In. split; [exact I|]. now rewrite T.
  - right.
    assert (forall block, In block (b :: bs) ->
              In block (split_on (lit "[EMAIL]") message) /\
              truthy (trim block) = true) as B.
    { intros block I. rewrite <- F in I. now apply filter_In in I. }
    split.
    { intros A. rewrite Forall_forall in A.
      destruct (B b (or_introl eq_refl)) as [I T].
      rewrite (A b I) in T. discriminate. }
    eexists. split; [reflexivity|]. split; [discriminate|].
    split; [|split].
    + rewrite map_map. apply map_ext. intros block. apply join_split.
    + apply Forall_forall. intros lines L.
      apply in_map_iff in L as (block & <- & I). apply B in I as [I T].
      apply block_card; [exact T|]. now apply (in_split_on_free _ _ message).
    + apply Forall_forall. intros lines L.
      apply in_map_iff in L as (block & <- & I). apply B in I as [I T].
      rewrite join_split.
      apply (occurs_trans _ block); [apply trim_occurs|].
      now apply (in_split_on_occurs (lit "[EMAIL]")).
Qed.

(* ================================================================== *)
(** * The formatters and the extractors *)
(* ================================================================== *)

Lemma without_app c a b : without c (a ++ b) = without c a && without c b.
Proof. apply forallb_app. Qed.

Lemma without_In c s : without c s = true -> ~ In c s.
Proof.
  unfold without. rewrite forallb_forall. intros H I.
  specialize (H c I). now rewrite N.eqb_refl in H.
Qed.

Lemma without_occurs c a s :
  occurs a s -> without c s = true -> without c a = true.
Proof.
  intros (x & y & ->). rewrite !without_app, !andb_true_iff. tauto.
Qed.

Lemma match_field_needs_head c label K s g :
  match_field (c :: label) K s = Some g -> without c s = false.
Proof.
  intros H. apply match_field_inv in H as (b & rest & -> & _).
  rewrite without_app. cbn [app]. unfold without at 2.
  cbn [forallb]. rewrite N.eqb_refl. apply andb_false_r.
Qed.

Lemma parseEmailFromText_asterisk s :
  without asterisk s = true -> parseEmailFromText s = None.
Proof.
  intros W. unfold parseEmailFromText.
  destruct (match_field (lit "**From**: ") _ s) as [g|] eqn:E; [|reflexivity].
  apply (match_field_needs_head asterisk) in E. congruence.
Qed.

Lemma parseCalendarBlock_asterisk s :
  without asterisk s = true -> parseCalendarBlock s = None.
Proof.
  intros W. unfold parseCalendarBlock.
  destruct (match_field (lit "**Event**: ") _ s) as [g|] eqn:E; [|reflexivity].
  apply (match_field_needs_head asterisk) in E. congruence.
Qed.

Lemma collected_none {R : Type} (f : jsstring -> option R) blocks :
  (forall b, In b blocks -> f b = None) -> collected f blocks = [].
Proof.
  intros H. unfold collected. induction blocks as [|b bs IH]; [reflexivity|].
  cbn [flat_map]. rewrite (H b) by now left.
  apply IH. intros x I. apply H. now right.
Qed.

Lemma includes_needs_head c p s :
  without c s = true -> includes (c :: p) s = false.
Proof.
  intros W. apply includes_false. intros (a & b & ->).
  rewrite without_app in W. cbn [app] in W. unfold without at 2 in W.
  cbn [forallb] in W. rewrite N.eqb_refl, andb_false_r in W. discriminate.
Qed.

Lemma formatEmail_without c e :
  without c envelope = true -> without c calendar_sign = true ->
  without c pushpin = true -> without c (lit " ") = true ->
  without c [LF] = true ->
  without c (from e) = true -> without c (date e) = true ->
  without c (subject e) = true -> without c (content e) = true ->
  without c (formatEmail e) = true.
Proof.
  intros A B C D E F G H I. unfold formatEmail.
  change [LF; LF] with ([LF] ++ [LF]).
  rewrite !without_app, A, B, C, D, E, F, G, H, I. reflexivity.
Qed.

(** X14. The text [formatEmail] writes is not in the format the email
    extractors read: for a record whose fields hold no asterisk,
    [parseEmailFromText] returns null on it and [parseMultipleEmails]
    returns no record. *)
Theorem formatted_email_not_parsed (e : EmailData) :
  without asterisk (from e) = true -> without asterisk (date e) = true ->
  without asterisk (subject e) = true -> without asterisk (content e) = true ->
  parseEmailFromText (formatEmail e) = None /\
  parseMultipleEmails (formatEmail e) = [].
Proof.
  intros F D S C.
  assert (without asterisk (formatEmail e) = true) as W
      by (apply formatEmail_without; (assumption || reflexivity)).
  split; [now apply parseEmailFromText_asterisk|].
  rewrite parseMultipleEmails_collected. apply collected_none.
  intros b I. apply filter_In in I as [I _].
  apply split_numbered_occurs in I.
  apply parseEmailFromText_asterisk. now apply (without_occurs _ _ _ I).
Qed.

Lemma formatted_email_not_parsed_witness :
  parseMultipleEmails
    (formatEmail (mkEmail (lit "Ann") (lit "1. May") (lit "Hi") (lit "See you.")))
  = [].
Proof.
  apply (formatted_email_not_parsed
           (mkEmail (lit "Ann") (lit "1. May") (lit "Hi") (lit "See you.")));
    reflexivity.
Defined.

Lemma digits_without_asterisk s :
  forallb is_digit s = true -> without asterisk s = true.
Proof.
  unfold without. rewrite !forallb_forall. intros H c I.
  specialize (H c I). unfold is_digit in H.
  apply andb_true_iff in H as [L _]. apply N.leb_le in L.
  apply negb_true_iff, N.eqb_neq. unfold asterisk. lia.
Qed.

Lemma formatCalendarEvent_without index ev :
  without asterisk (event ev) = true -> without asterisk (location ev) = true ->
  without asterisk (time ev) = true ->
  without asterisk (formatCalendarEvent index ev) = true.
Proof.
  intros E L T. rewrite formatCalendarEvent_item. unfold event_body.
  rewrite !without_app, E, L, T.
  rewrite (digits_without_asterisk _ (proj2 (decimal_digits (index + 1)))).
  reflexivity.
Qed.

Lemma join_without c sep (xs : list jsstring) :
  without c sep = true -> Forall (fun x => without c x = true) xs ->
  without c (join sep xs) = true.
Proof.
  intros S F. induction F as [|x xs X F IH]; [reflexivity|].
  destruct xs as [|y ys]; [exact X|].
  rewrite join_cons, !without_app, X, S, IH. reflexivity.
Qed.

Lemma formatCalendarEvents_without events :
  Forall (fun ev => without asterisk (event ev) = true /\
                    without asterisk (location ev) = true /\
                    without asterisk (time ev) = true) events ->
  without asterisk (formatCalendarEvents events) = true.
Proof.
  intros F. unfold formatCalendarEvents. apply join_without; [reflexivity|].
  generalize 0%nat as i. induction F as [|ev evs (E & L & T) F IH]; intros i.
  - constructor.
  - cbn [mapi_from]. constructor; [|apply IH].
    now apply formatCalendarEvent_without.
Qed.

(** X15. The text [formatCalendarEvents] writes is not in the format the
    calendar side reads: for events whose fields hold no asterisk, the
    extractor returns no event from it and the classifier does not call it
    a calendar message. *)
Theorem formatted_events_not_parsed (events : list CalendarEvent) :
  Forall (fun ev => without asterisk (event ev) = true /\
                    without asterisk (location ev) = true /\
                    without asterisk (time ev) = true) events ->
  parseCalendarEventsFromText (formatCalendarEvents events) = [] /\
  detectMessageType (formatCalendarEvents events) <> calendar.
Proof.
  intros F. apply formatCalendarEvents_without in F. split.
  - rewrite parseCalendarEvents_collected. apply collected_none.
    intros b I. apply split_numbered_occurs in I.
    apply parseCalendarBlock_asterisk. now apply (without_occurs _ _ _ I).
  - unfold detectMessageType.
    destruct (includes (lit "[EMAIL]") _); [discriminate|].
    change (lit "**Event**:") with (asterisk :: lit "*Event**:").
    rewrite (includes_needs_head asterisk _ _ F). discriminate.
Qed.

Lemma formatted_events_not_parsed_witness :
  parseCalendarEventsFromText
    (formatCalendarEvents
       [mkEvent (lit "Standup") (lit "Room 4") (lit "9am");
        mkEvent (lit "Lunch") (lit "Cafe") (lit "12:30")]) = [].
Proof.
  apply (formatted_events_not_parsed
           [mkEvent (lit "Standup") (lit "Room 4") (lit "9am");
            mkEvent (lit "Lunch") (lit "Cafe") (lit "12:30")]).
  repeat constructor.
Defined.

(* ================================================================== *)
(** * The chat *)
(* ================================================================== *)

Lemma apply_updates_app us vs st :
  apply_updates (us ++ vs) st = apply_updates vs (apply_updates us st).
Proof. apply fold_left_app. Qed.

Lemma apply_streaming xs st :
  apply_updates (map SetStreamingMessage xs) st
  = mkChat (messages st) (input st) (isLoading st) (conversationId st)
      (last xs (streamingMessage st)).
Proof.
  revert st; induction xs as [|x xs IH]; intros st; [now destruct st|].
  cbn [map]. change (apply_updates (?u :: ?us) ?s)
    with (apply_updates us (apply_update u s)).
  rewrite IH, last_cons. reflexivity.
Qed.

Lemma post_returns_id {Id : Type} (fetch : Transport) (id : Id) onStream data :
  outcome (post fetch id onStream) = Returned data -> conversation_id data = id.
Proof.
  unfold post. destruct (negb (ok (fetch 0))); [discriminate|].
  destruct (body (fetch 0)) as [stream|]; [|discriminate].
  cbn [outcome]. destruct (broken stream); [discriminate|].
  intros H. now injection H as <-.
Qed.

Lemma errorText_type : detectMessageType errorText = text.
Proof. reflexivity. Qed.

(** The state a send ends in. *)
Lemma handleSend_finished fetch sent_at replied_at st :
  sendDisabled st = false ->
  exists a,
    apply_updates (handleSend fetch sent_at replied_at st) st
    = mkChat (messages st ++
                [Message.mk (input st) true sent_at (Some text); a])
        [] false (conversationId st) [] /\
    exchange (Message.mk (input st) true sent_at (Some text)) a.
Proof.
  intros D. unfold handleSend. rewrite D.
  apply orb_false_iff in D as [T _]. apply negb_false_iff in T.
  rewrite !apply_updates_app, apply_streaming.
  destruct (outcome (post fetch (conversationId st) true)) as [data|e] eqn:O.
  - apply post_returns_id in O.
    eexists. split.
    + cbv [apply_updates fold_left apply_update messages input isLoading
             conversationId streamingMessage].
      rewrite <- app_assoc, O. reflexivity.
    + repeat split; assumption || reflexivity.
  - eexists. split.
    + cbv [apply_updates fold_left apply_update messages input isLoading
             conversationId streamingMessage].
      rewrite <- app_assoc. reflexivity.
    + repeat split; assumption || reflexivity.
Qed.

Lemma no_streaming_rows st :
  streamingMessage st = [] -> rows st = map row (messages st).
Proof. intros H. unfold rows. rewrite H. apply app_nil_r. Qed.

Lemma send_settled fetch sent_at replied_at st :
  isLoading st = false /\ streamingMessage st = [] /\
  conversationId st = None /\ exchanges (messages st) ->
  let st' := apply_updates (handleSend fetch sent_at replied_at st) st in
  isLoading st' = false /\ streamingMessage st' = [] /\
  conversationId st' = None /\ exchanges (messages st').
Proof.
  intros (L & S & C & X). cbv zeta.
  destruct (sendDisabled st) eqn:D.
  - unfold handleSend. rewrite D. now repeat split.
  - destruct (handleSend_finished fetch sent_at replied_at st D) as (a & -> & E).
    cbn [messages input isLoading conversationId streamingMessage].
    repeat split; try assumption. now constructor.
Qed.

(** X16. Between the actions of a session the chat is settled: no request
    is in flight, nothing is streaming and no streaming bubble is shown;
    the messages are pairs of a user message, not blank and typed as plain
    text, and an answer that carries the type the classifier gives its text
    (the error text included); and the conversation id is still null. *)
Theorem session_settled (actions : list Action) :
  isLoading (session actions) = false /\
  streamingMessage (session actions) = [] /\
  conversationId (session actions) = None /\
  exchanges (messages (session actions)) /\
  rows (session actions) = map row (messages (session actions)).
Proof.
  assert (isLoading (session actions) = false /\
          streamingMessage (session actions) = [] /\
          conversationId (session actions) = None /\
          exchanges (messages (session actions))) as (L & S & C & X).
  { unfold session.
    apply (fold_left_invariant
             (fun st => isLoading st = false /\ streamingMessage st = [] /\
                        conversationId st = None /\ exchanges (messages st))).
    - intros st a I. destruct a as [value|fetch t1 t2|key shift fetch t1 t2].
      + exact I.
      + now apply send_settled.
      + cbn [perform]. unfold handleKeyPress.
        destruct (JS.eqb key (lit "Enter") && negb shift);
          [now apply send_settled|exact I].
    - repeat split. constructor. }
  repeat split; try assumption. now apply no_streaming_rows.
Qed.

Lemma conversation_id_prefix id us :
  Forall (fun u => forall value, u = SetConversationId value -> value = id) us ->
  forall n st, conversationId st = id ->
               conversationId (apply_updates (firstn n us) st) = id.
Proof.
  intros F. induction F as [|u us U F IH]; intros n st C.
  - now rewrite firstn_nil.
  - destruct n as [|n]; [exact C|]. cbn [firstn].
    change (apply_updates (?u :: ?us) ?s)
      with (apply_updates us (apply_update u s)).
    apply IH. destruct u; cbn [apply_update conversationId]; try exact C.
    now apply U.
Qed.

(** X17. A send never changes the conversation id: in every state the
    component goes through while [handleSend] runs, the id is the one it
    had before, since [api.post] hands back the id it was given. *)
Theorem conversation_id_kept (fetch : Transport) (sent_at replied_at : N)
    (st : ChatState) (n : nat) :
  conversationId
    (apply_updates (firstn n (handleSend fetch sent_at replied_at st)) st)
  = conversationId st.
Proof.
  apply conversation_id_prefix; [|reflexivity].
  unfold handleSend. destruct (sendDisabled st); [constructor|].
  repeat (apply Forall_app; split); try (repeat constructor; discriminate).
  - apply Forall_forall. intros u I. apply in_map_iff in I as (x & <- & _).
    discriminate.
  - destruct (outcome (post fetch (conversationId st) true)) as [data|e] eqn:O.
    + apply post_returns_id in O.
      repeat constructor; try discriminate.
      intros value H. injection H as <-. exact O.
    + repeat constructor; discriminate.
Qed.

Lemma grows_from_prefix acc xs x :
  grows_from acc xs -> In x (acc :: xs) -> exists rest, last xs acc = x ++ rest.
Proof.
  revert acc x; induction xs as [|y ys IH]; intros acc x G I.
  - destruct I as [<-|[]]. exists []. symmetry. apply app_nil_r.
  - destruct G as [(added & E) G]. rewrite last_cons.
    destruct I as [<-|I].
    + destruct (IH y y G (or_introl eq_refl)) as (rest & R).
      exists (added ++ rest). now rewrite R, E, <- app_assoc.
    + now apply IH.
Qed.

Lemma streaming_prefix (P : jsstring -> Prop) us :
  Forall (fun u => forall value, u = SetStreamingMessage value -> P value) us ->
  forall n st, P (streamingMessage st) ->
               P (streamingMessage (apply_updates (firstn n us) st)).
Proof.
  intros F. induction F as [|u us U F IH]; intros n st C.
  - now rewrite firstn_nil.
  - destruct n as [|n]; [exact C|]. cbn [firstn].
    change (apply_updates (?u :: ?us) ?s)
      with (apply_updates us (apply_update u s)).
    apply IH. destruct u; cbn [apply_update streamingMessage]; try exact C.
    now apply U.
Qed.

Lemma post_returns_last {Id : Type} (fetch : Transport) (id : Id) data :
  outcome (post fetch id true) = Returned data ->
  grows_from [] (snapshots (post fetch id true)) /\
  response data = last (snapshots (post fetch id true)) [].
Proof.
  unfold post.
  destruct (negb (ok (fetch 0))); [discriminate|].
  destruct (body (fetch 0)) as [stream|]; [|discriminate].
  destruct (process_chunks_accumulating (chunks stream)) as [G R].
  cbn [snapshots outcome]. destruct (broken stream); [discriminate|].
  intros H. injection H as <-. now split.
Qed.

(** X18. While an answer streams, the streaming bubble shows a beginning of
    the answer: when [api.post] returns, the streaming text of every state
    the component went through since the send began is a prefix of the text
    of the assistant message. *)
Theorem streamed_text_begins_answer (fetch : Transport)
    (sent_at replied_at : N) (st : ChatState) (data : Data (option jsstring))
    (n : nat) :
  streamingMessage st = [] ->
  outcome (post fetch (conversationId st) true) = Returned data ->
  exists rest,
    response data
    = streamingMessage
        (apply_updates (firstn n (handleSend fetch sent_at replied_at st)) st)
      ++ rest.
Proof.
  intros S O.
  assert (exists rest, response data = [] ++ rest) as Empty
      by now exists (response data).
  apply (streaming_prefix (fun s => exists rest, response data = s ++ rest));
    [|now rewrite S].
  unfold handleSend. destruct (sendDisabled st); [constructor|].
  rewrite O. destruct (post_returns_last _ _ _ O) as [G R].
  repeat (apply Forall_app; split).
  - repeat constructor; try discriminate.
    intros value H. now injection H as <-.
  - apply Forall_forall. intros u I. apply in_map_iff in I as (x & <- & I).
    intros value H. injection H as <-. rewrite R.
    apply grows_from_prefix; [exact G|now right].
  - repeat constructor; try discriminate.
    intros value H. now injection H as <-.
  - repeat constructor; discriminate.
Qed.

Lemma streamed_text_begins_answer_witness :
  exists rest,
    lit "Hello"
    = streamingMessage
        (apply_updates
           (firstn 5 (handleSend greeting_transport 0 1
                        (mkChat [] (lit "hi") false None [])))
           (mkChat [] (lit "hi") false None []))
      ++ rest.
Proof.
  apply (streamed_text_begins_answer greeting_transport 0 1
           (mkChat [] (lit "hi") false None [])
           (mkData (lit "Hello") None) 5); reflexivity.
Defined.

(* ================================================================== *)
(** * The observer *)
(* ================================================================== *)

Lemma fold_left_related {S A : Type} (R : S -> S -> Prop)
    (f g : S -> A -> S) :
  (forall s1 s2 x, R s1 s2 -> R (f s1 x) (g s2 x)) ->
  forall xs s1 s2, R s1 s2 -> R (fold_left f xs s1) (fold_left g xs s2).
Proof.
  intros H. induction xs as [|x xs IH]; intros s1 s2 I; [exact I|].
  cbn [fold_left]. apply IH, H, I.
Qed.

Lemma process_line_unobserved st1 st2 line :
  result st1 = result st2 /\ emitted st1 = [] ->
  result (process_line false st1 line) = result (process_line true st2 line) /\
  emitted (process_line false st1 line) = [].
Proof.
  intros [R E]. unfold process_line.
  repeat match goal with
         | |- context [if ?b then _ else _] => destruct b
         | |- context [match ?x with _ => _ end] => destruct x
         end; cbn [result emitted]; split; try assumption.
  now rewrite R.
Qed.

(** X19. The observer only watches: without one, [post] issues the same
    request and completes in the same way, with the same text, as with
    one. *)
Theorem observer_only_watches {Id : Type} (fetch : Transport) (id : Id) :
  outcome (post fetch id false) = outcome (post fetch id true) /\
  requests (post fetch id false) = requests (post fetch id true) /\
  snapshots (post fetch id false) = [].
Proof.
  unfold post. destruct (negb (ok (fetch 0))); [now repeat split|].
  destruct (body (fetch 0)) as [stream|]; [|now repeat split].
  cbn [outcome requests snapshots].
  assert (result (fold_left (process_chunk false) (chunks stream) initial)
          = result (fold_left (process_chunk true) (chunks stream) initial) /\
          emitted (fold_left (process_chunk false) (chunks stream) initial) = [])
    as [R E].
  { apply (fold_left_related
             (fun s1 s2 => result s1 = result s2 /\ emitted s1 = []));
      [|now split].
    intros s1 s2 chunk I. unfold process_chunk.
    apply (fold_left_related
             (fun s1 s2 => result s1 = result s2 /\ emitted s1 = []));
      [|exact I].
    intros t1 t2 line. apply process_line_unobserved. }
  rewrite R. now repeat split.
Qed.
